(** * Deployment tracker and transaction pipeline of the Akash deploy client

    A shallow embedding of the Go package [cmd]:
    - the deployment tracker [DeploymentData] with its order and lease
      collections (AddOrder, RemoveOrder, AddLease, RemoveLease, Leases,
      ExpectedOrders, ExpectedLeases, MsgCreate, NewDeploymentData);
    - the configuration and transaction pipeline of [Config]
      (validateConfig, initConfig, SendMsgs, BuildAndSignTx,
      BroadcastTxCommit, BlockHeight).

    Go slices are lists where only their contents matter; the module
    [SliceMem] models slice headers and backing arrays where aliasing
    matters, and the module [Locked] models the calls under the write lock
    as interleaved statements of several callers. *)

From Stdlib Require Import ZArith String Ascii Bool Lia.
From stdpp Require Import base option list gmap.

Local Open Scope Z_scope.
Local Open Scope list_scope.

(** ** Types of the chain libraries

    The identifier types and the group specification are declared by the
    Akash and Cosmos libraries the package imports.  The tracker only
    stores their values and compares identifiers with their [Equals]
    method, which compares by value. *)

Class ChainTypes : Type := {
  sdl_SDL : Type;
  manifest_Manifest : Type;
  GroupSpec : Type;
  OrderID : Type;
  LeaseID : Type;
  OrderID_Equals : OrderID → OrderID → bool;
  LeaseID_Equals : LeaseID → LeaseID → bool;
  OrderID_Equals_spec : ∀ a b, OrderID_Equals a b = true ↔ a = b;
  LeaseID_Equals_spec : ∀ a b, LeaseID_Equals a b = true ↔ a = b;
}.

(** [sdk.AccAddress] is a byte slice, [uint64] a number below [2^64]. *)
Definition AccAddress : Type := list Byte.byte.

Definition uint64_of_int64 (h : Z) : Z := h mod 2 ^ 64.

(** [dtypes.DeploymentID]: the owner and the deployment sequence number. *)
Record DeploymentID : Type := mkDeploymentID {
  Owner : AccAddress;
  DSeq : Z;
}.

(** A Go pointer to a group specification: nil or the address of one.
    Every address holds a value, [nil] holds none. *)
Inductive ptr : Type :=
| nilptr
| addr (l : positive).

(** A call returns a value, ends the process with [os.Exit], or panics
    (a nil pointer dereference). *)
Inductive outcome (A : Type) : Type :=
| Returned (a : A)
| Exited (code : Z)
| Panicked.
Arguments Returned {A} a.
Arguments Exited {A} code.
Arguments Panicked {A}.

(** A Go [error] value by its message; [nil] is [None]. *)
Definition error : Type := string.

(** A Go result pair [(value, err)] with [err] nil or not. *)
Inductive goerr (A : Type) : Type :=
| OK (a : A)
| Fail (e : error).
Arguments OK {A} a.
Arguments Fail {A} e.

Section Tracker.
Context `{CT : ChainTypes}.

Definition GroupStore : Type := positive → GroupSpec.

Definition deref (st : GroupStore) (p : ptr) : option GroupSpec :=
  match p with
  | nilptr => None
  | addr l => Some (st l)
  end.

(** The struct [DeploymentData]; its embedded [sync.RWMutex] is held only
    inside a call, and is modelled in the module [Locked]. *)
Record DeploymentData : Type := mkDeploymentData {
  SDLFile : list Byte.byte;
  SDL : option sdl_SDL;
  Manifest : option manifest_Manifest;
  Groups : list ptr;
  DeploymentID_of : DeploymentID;
  OrderID_of : list OrderID;
  LeaseID_of : list LeaseID;
  Version : list Byte.byte;
}.

Definition set_OrderID (dd : DeploymentData) (l : list OrderID) : DeploymentData :=
  {| SDLFile := SDLFile dd; SDL := SDL dd; Manifest := Manifest dd;
     Groups := Groups dd; DeploymentID_of := DeploymentID_of dd;
     OrderID_of := l; LeaseID_of := LeaseID_of dd; Version := Version dd |}.

Definition set_LeaseID (dd : DeploymentData) (l : list LeaseID) : DeploymentData :=
  {| SDLFile := SDLFile dd; SDL := SDL dd; Manifest := Manifest dd;
     Groups := Groups dd; DeploymentID_of := DeploymentID_of dd;
     OrderID_of := OrderID_of dd; LeaseID_of := l; Version := Version dd |}.

(** [dtypes.MsgCreateDeployment]. *)
Record MsgCreateDeployment : Type := mkMsgCreateDeployment {
  msg_ID : DeploymentID;
  msg_Groups : list GroupSpec;
  msg_Version : list Byte.byte;
}.

(** The loop of [MsgCreate]: [msg.Groups = append(msg.Groups, *group)]. *)
Fixpoint MsgCreate_loop (st : GroupStore) (groups : list ptr)
    (msg : MsgCreateDeployment) : outcome MsgCreateDeployment :=
  match groups with
  | [] => Returned msg
  | group :: rest =>
      match deref st group with
      | Some g =>
          MsgCreate_loop st rest
            {| msg_ID := msg_ID msg; msg_Groups := msg_Groups msg ++ [g];
               msg_Version := msg_Version msg |}
      | None => Panicked
      end
  end.

(** [MsgCreate] has a pointer receiver: it is given the store and the
    tracker and hands both back with its result. *)
Definition MsgCreate (w : GroupStore * DeploymentData)
    : outcome MsgCreateDeployment * (GroupStore * DeploymentData) :=
  let (st, dd) := w in
  (MsgCreate_loop st (Groups dd)
     {| msg_ID := DeploymentID_of dd; msg_Groups := []; msg_Version := Version dd |},
   (st, dd)).

Definition ExpectedLeases (dd : DeploymentData) : bool :=
  Nat.eqb (length (Groups dd)) (length (LeaseID_of dd)).

Definition ExpectedOrders (dd : DeploymentData) : bool :=
  Nat.eqb (length (Groups dd)) (length (OrderID_of dd)).

Definition AddOrder (order : OrderID) (dd : DeploymentData) : DeploymentData :=
  set_OrderID dd (OrderID_of dd ++ [order]).

(** The loop of [RemoveOrder]: [out] starts nil and collects every element
    that [order] does not equal. *)
Fixpoint RemoveOrder_loop (order : OrderID) (l out : list OrderID) : list OrderID :=
  match l with
  | [] => out
  | o :: rest =>
      if negb (OrderID_Equals order o)
      then RemoveOrder_loop order rest (out ++ [o])
      else RemoveOrder_loop order rest out
  end.

Definition RemoveOrder (order : OrderID) (dd : DeploymentData) : DeploymentData :=
  set_OrderID dd (RemoveOrder_loop order (OrderID_of dd) []).

Definition Leases (dd : DeploymentData) : list LeaseID := LeaseID_of dd.

Definition AddLease (lease : LeaseID) (dd : DeploymentData) : DeploymentData :=
  set_LeaseID dd (LeaseID_of dd ++ [lease]).

Fixpoint RemoveLease_loop (order : LeaseID) (l out : list LeaseID) : list LeaseID :=
  match l with
  | [] => out
  | o :: rest =>
      if negb (LeaseID_Equals order o)
      then RemoveLease_loop order rest (out ++ [o])
      else RemoveLease_loop order rest out
  end.

Definition RemoveLease (order : LeaseID) (dd : DeploymentData) : DeploymentData :=
  set_LeaseID dd (RemoveLease_loop order (LeaseID_of dd) []).

(** *** Sequences of calls *)

Inductive OrderCall : Type :=
| CallAddOrder (id : OrderID)
| CallRemoveOrder (id : OrderID).

Definition do_order_call (dd : DeploymentData) (c : OrderCall) : DeploymentData :=
  match c with
  | CallAddOrder id => AddOrder id dd
  | CallRemoveOrder id => RemoveOrder id dd
  end.

Definition run_order_calls (calls : list OrderCall) (dd : DeploymentData) : DeploymentData :=
  fold_left do_order_call calls dd.

(** [id] is removed by a call of the sequence. *)
Fixpoint removed_in (id : OrderID) (calls : list OrderCall) : bool :=
  match calls with
  | [] => false
  | CallRemoveOrder x :: rest => OrderID_Equals x id || removed_in id rest
  | CallAddOrder _ :: rest => removed_in id rest
  end.

(** [id] was added by a call of the sequence and no later call removes it. *)
Fixpoint added_not_removed (id : OrderID) (calls : list OrderCall) : bool :=
  match calls with
  | [] => false
  | CallAddOrder x :: rest =>
      (OrderID_Equals x id && negb (removed_in id rest)) || added_not_removed id rest
  | CallRemoveOrder _ :: rest => added_not_removed id rest
  end.

(** After an add of [id]: no second add of [id] comes before a remove of it. *)
Fixpoint not_added_again (id : OrderID) (calls : list OrderCall) : bool :=
  match calls with
  | [] => true
  | CallAddOrder x :: rest => negb (OrderID_Equals x id) && not_added_again id rest
  | CallRemoveOrder x :: rest => OrderID_Equals x id || not_added_again id rest
  end.

(** No duplicate adds: no id is added while an earlier add of it stands. *)
Fixpoint no_duplicate_adds (calls : list OrderCall) : bool :=
  match calls with
  | [] => true
  | CallAddOrder x :: rest => not_added_again x rest && no_duplicate_adds rest
  | CallRemoveOrder _ :: rest => no_duplicate_adds rest
  end.

(** The ids the sequence adds, in order. *)
Definition order_added_ids (calls : list OrderCall) : list OrderID :=
  omap (fun c => match c with CallAddOrder x => Some x | CallRemoveOrder _ => None end) calls.

(** No stored group pointer is nil. *)
Definition groups_not_nil (dd : DeploymentData) : bool :=
  forallb (fun p => match p with nilptr => false | addr _ => true end) (Groups dd).

Inductive LeaseCall : Type :=
| CallAddLease (id : LeaseID)
| CallRemoveLease (id : LeaseID).

Definition do_lease_call (dd : DeploymentData) (c : LeaseCall) : DeploymentData :=
  match c with
  | CallAddLease id => AddLease id dd
  | CallRemoveLease id => RemoveLease id dd
  end.

Definition run_lease_calls (calls : list LeaseCall) (dd : DeploymentData) : DeploymentData :=
  fold_left do_lease_call calls dd.

End Tracker.

(** ** Slices in memory

    A Go slice is a header (pointer, length, capacity) over a backing
    array.  [out := dd.LeaseID] copies the header only, so the slice that
    [Leases] returns shares its backing array with the tracker.  This
    module models the lease collection at that level.  Every slice of the
    package comes from [append], [make] or a nil declaration, so a header
    always points at the start of its array. *)

(** What the Go runtime chooses: the zero value that fills unused cells of
    a new backing array and the capacity [growslice] proposes. *)
Class SliceRuntime `{CT : ChainTypes} : Type := {
  zero_LeaseID : LeaseID;
  growslice_cap : nat → nat;
}.

Module SliceMem.

(** The backing arrays, by address. *)
Abbreviation Heap := (gmap positive (list LeaseID)).

Section Mem.
Context `{RT : SliceRuntime}.

Record slice : Type := mkSlice {
  base : option positive;
  len : nat;
  cap : nat;
}.

(** [var out []mtypes.LeaseID] *)
Definition nil_slice : slice := mkSlice None 0 0.

Definition cells (h : Heap) (s : slice) : list LeaseID :=
  match base s with
  | None => []
  | Some p => default [] (h !! p)
  end.

(** The elements a slice shows: the first [len] cells of its array. *)
Definition view (h : Heap) (s : slice) : list LeaseID :=
  take (len s) (cells h s).

(** [append(s, x)]: with room left the element is written in place after
    the last one; otherwise a new array is allocated, the elements are
    copied over and the element is written after them. *)
Definition append (h : Heap) (s : slice) (x : LeaseID) : Heap * slice :=
  match base s with
  | Some p =>
      if decide (len s < cap s)%nat
      then (<[p := <[len s := x]> (cells h s)]> h, mkSlice (Some p) (S (len s)) (cap s))
      else
        let q := fresh (dom h) in
        let c := Nat.max (S (len s)) (growslice_cap (cap s)) in
        (<[q := view h s ++ x :: replicate (c - S (len s)) zero_LeaseID]> h,
         mkSlice (Some q) (S (len s)) c)
  | None =>
      let q := fresh (dom h) in
      let c := Nat.max (S (len s)) (growslice_cap (cap s)) in
      (<[q := view h s ++ x :: replicate (c - S (len s)) zero_LeaseID]> h,
       mkSlice (Some q) (S (len s)) c)
  end.

(** The memory the lease calls work on: the heap and the header stored in
    the field [dd.LeaseID]. *)
Definition State : Type := Heap * slice.

(** [Leases]: [out := dd.LeaseID; return out], a copy of the header. *)
Definition Leases (st : State) : slice := snd st.

(** [AddLease]: [dd.LeaseID = append(dd.LeaseID, lease)]. *)
Definition AddLease (lease : LeaseID) (st : State) : State :=
  append (fst st) (snd st) lease.

(** The loop of [RemoveLease] over the indices of [dd.LeaseID]: the element
    is read from the array at each round. *)
Fixpoint RemoveLease_loop (order : LeaseID) (s : slice) (idx : list nat)
    (st : Heap * slice) : Heap * slice :=
  match idx with
  | [] => st
  | i :: rest =>
      match cells (fst st) s !! i with
      | Some o =>
          if negb (LeaseID_Equals order o)
          then RemoveLease_loop order s rest (append (fst st) (snd st) o)
          else RemoveLease_loop order s rest st
      | None => st
      end
  end.

(** [RemoveLease]: [out] starts nil and [dd.LeaseID = out] ends the call. *)
Definition RemoveLease (order : LeaseID) (st : State) : State :=
  RemoveLease_loop order (snd st) (seq 0 (len (snd st))) (fst st, nil_slice).

Definition do_lease_call (st : State) (c : LeaseCall) : State :=
  match c with
  | CallAddLease id => AddLease id st
  | CallRemoveLease id => RemoveLease id st
  end.

Definition run_lease_calls (calls : list LeaseCall) (st : State) : State :=
  fold_left do_lease_call calls st.

(** A header is valid in a heap: nil with no length, or the address of an
    array of [cap] cells of which it shows at most [cap]. *)
Definition valid (h : Heap) (s : slice) : Prop :=
  match base s with
  | None => len s = 0%nat ∧ cap s = 0%nat
  | Some p => ∃ arr, h !! p = Some arr ∧ length arr = cap s ∧ (len s ≤ cap s)%nat
  end.

(** A valid header [t] that appends to [s] leave alone: when both start
    at the same array, [s] shows at least the cells [t] shows. *)
Definition outlives (h : Heap) (s t : slice) : Prop :=
  valid h t ∧ (base t = base s → (len t ≤ len s)%nat).

End Mem.
End SliceMem.

(** ** Configuration and transaction pipeline *)

(** The types of the libraries the package calls (Cosmos SDK, Tendermint,
    cobra, the file system) and the zero values the package relies on. *)
Class LibTypes : Type := {
  Msg : Type;
  TxResponse : Type;
  Keybase : Type;
  KeyInfo : Type;
  Codec : Type;
  Client : Type;
  Account : Type;
  TxBuilder : Type;
  DecCoins : Type;
  float64 : Type;
  Command : Type;
  FlagSet : Type;
  File : Type;
  zero_TxResponse : TxResponse;
  zero_float64 : float64;
  nil_DecCoins : DecCoins;
}.

Module Cfg.

Section Records.
Context `{LT : LibTypes}.

(** The struct [Config]. *)
Record Config : Type := mkConfig {
  ChainID : string;
  RPCAddr : string;
  Keyfile : string;
  Keypass : string;
  gasAdj : float64;
  gasPrices : DecCoins;
  keybase : option Keybase;
  address : option AccAddress;
  Amino : option Codec;
}.

(** [&Config{}] *)
Definition zero_Config : Config :=
  {| ChainID := ""; RPCAddr := ""; Keyfile := ""; Keypass := "";
     gasAdj := zero_float64; gasPrices := nil_DecCoins;
     keybase := None; address := None; Amino := None |}.

Definition set_Amino (c : Config) (a : option Codec) : Config :=
  {| ChainID := ChainID c; RPCAddr := RPCAddr c; Keyfile := Keyfile c;
     Keypass := Keypass c; gasAdj := gasAdj c; gasPrices := gasPrices c;
     keybase := keybase c; address := address c; Amino := a |}.

Definition set_keybase (c : Config) (kb : option Keybase) : Config :=
  {| ChainID := ChainID c; RPCAddr := RPCAddr c; Keyfile := Keyfile c;
     Keypass := Keypass c; gasAdj := gasAdj c; gasPrices := gasPrices c;
     keybase := kb; address := address c; Amino := Amino c |}.

(** [cctx.CLIContext] with the fields [CLICtx] sets (the standard streams
    apart). *)
Record CLIContext : Type := mkCLIContext {
  FromAddress : option AccAddress;
  ctx_Client : option Client;
  ctx_ChainID : string;
  ctx_Keybase : option Keybase;
  NodeURI : string;
  OutputFormat : string;
  From : string;
  BroadcastMode : string;
  FromName : string;
  ctx_Codec : option Codec;
  TrustNode : bool;
  UseLedger : bool;
  Simulate : bool;
  GenerateOnly : bool;
  Indent : bool;
  SkipConfirm : bool;
}.

(** The arguments of [auth.NewTxBuilder] followed by [WithKeybase]. *)
Record TxBuilderArgs : Type := mkTxBuilderArgs {
  tb_encoder : option Codec;
  tb_accNumber : Z;
  tb_sequence : Z;
  tb_gas : Z;
  tb_gasAdj : float64;
  tb_simulateAndExecute : bool;
  tb_chainID : string;
  tb_memo : string;
  tb_fees : DecCoins;
  tb_gasPrices : DecCoins;
  tb_keybase : option Keybase;
}.

(** What a call does to the outside, in the order it happens.  The calls
    that reach the node are [EvGetAccount], [EvEnrichWithGas],
    [EvBroadcastTxCommit] and [EvStatus]. *)
Inductive Event : Type :=
| EvPrint (s : string)
| EvValidateBasic (m : Msg)
| EvSetBech32Prefix (acc pub : string)
| EvGetAccount (ctx : CLIContext) (a : option AccAddress)
| EvEnrichWithGas (b : TxBuilderArgs) (ctx : CLIContext) (msgs : list Msg)
| EvBuildAndSign (b : TxBuilder) (name pass : string) (msgs : list Msg)
| EvBroadcastTxCommit (ctx : CLIContext) (tx : list Byte.byte)
| EvStatus (cl : Client).

Definition is_network (e : Event) : bool :=
  match e with
  | EvGetAccount _ _ | EvEnrichWithGas _ _ _ | EvBroadcastTxCommit _ _ | EvStatus _ => true
  | _ => false
  end.

Definition is_sign (e : Event) : bool :=
  match e with
  | EvBuildAndSign _ _ _ _ => true
  | _ => false
  end.

(** The package variables [config], [cfgPath] and [homePath], and the
    events so far. *)
Record Proc : Type := mkProc {
  config : Config;
  cfgPath : string;
  homePath : string;
  events : list Event;
}.

(** A computation over the package state that returns, exits or panics. *)
Definition M (A : Type) : Type := Proc → outcome A * Proc.

Definition ret {A} (a : A) : M A := fun s => (Returned a, s).

Definition bind {A B} (m : M A) (f : A → M B) : M B :=
  fun s =>
    match m s with
    | (Returned a, s') => f a s'
    | (Exited code, s') => (Exited code, s')
    | (Panicked, s') => (Panicked, s')
    end.

(** The state with more events after those it has. *)
Definition add_events (s : Proc) (evs : list Event) : Proc :=
  {| config := config s; cfgPath := cfgPath s; homePath := homePath s;
     events := events s ++ evs |}.


Definition emit (e : Event) : M unit :=
  fun s => (Returned tt, add_events s [e]).

Definition get_config : M Config := fun s => (Returned (config s), s).

Definition put_config (c : Config) : M unit :=
  fun s => (Returned tt,
            {| config := c; cfgPath := cfgPath s; homePath := homePath s;
               events := events s |}).

Definition get_cfgPath : M string := fun s => (Returned (cfgPath s), s).

Definition put_cfgPath (p : string) : M unit :=
  fun s => (Returned tt,
            {| config := config s; cfgPath := p; homePath := homePath s;
               events := events s |}).

Definition get_homePath : M string := fun s => (Returned (homePath s), s).

Definition os_Exit {A} (code : Z) : M A := fun s => (Exited code, s).

Definition panic {A} : M A := fun s => (Panicked, s).

End Records.

Notation "x <- m ;; k" := (bind m (fun x => k))
  (at level 100, m at next level, right associativity).
Notation "m ;;; k" := (bind m (fun _ => k))
  (at level 100, right associativity).

(** A function for each call the package makes into a library or the
    operating system, giving the result of the call. *)
Class Env `{CT : ChainTypes} `{LT : LibTypes} : Type := {
  msg_ValidateBasic : Msg → option error;
  app_MakeCodec : Codec;
  rpchttp_New : string → string → goerr Client;
  client_Status : Client → goerr Z;
  path_Join : string → string → string;
  os_Stat : string → option error;
  os_IsNotExist : option error → bool;
  os_Open : string → goerr File;
  ioutil_ReadAll : File → goerr string;
  ioutil_ReadFile : string → goerr (list Byte.byte);
  yaml_Unmarshal : list Byte.byte → Config → Config * option error;
  keys_NewInMemory : Keybase;
  kb_ImportPrivKey : Keybase → string → string → string → Keybase * option error;
  kb_Get : Keybase → string → goerr KeyInfo;
  info_GetAddress : KeyInfo → option AccAddress;
  cmd_GetString : Command → string → goerr string;
  viper_ReadInConfig : string → option error;
  auth_GetAccount : CLIContext → option AccAddress → goerr Account;
  acc_GetAccountNumber : Account → Z;
  acc_GetSequence : Account → Z;
  sdk_NewCoins : DecCoins;
  authclient_EnrichWithGas : TxBuilderArgs → CLIContext → list Msg → goerr TxBuilder;
  txBldr_BuildAndSign : TxBuilder → string → string → list Msg → goerr (list Byte.byte);
  ctx_BroadcastTxCommit : CLIContext → list Byte.byte → TxResponse * option error;
  addr_String : AccAddress → string;
  sdl_Read : list Byte.byte → goerr sdl_SDL;
  sdl_DeploymentGroups : sdl_SDL → goerr (list ptr);
  sdl_Manifest : sdl_SDL → goerr manifest_Manifest;
  sdl_ManifestVersion : manifest_Manifest → goerr (list Byte.byte);
  dcli_DeploymentIDFromFlags : FlagSet → string → goerr DeploymentID;
}.

Section Pipeline.
Context `{E : Env}.

Definition akashPrefix : string := "akash".
Definition defaultKey : string := "default".
Definition defaultPass : string := "12345678".
Definition FlagHome : string := "home".
Definition newline : string := String "010"%char EmptyString.

(** [CLICtx] *)
Definition CLICtx (c : Config) (client : option Client) : CLIContext :=
  {| FromAddress := address c;
     ctx_Client := client;
     ctx_ChainID := ChainID c;
     ctx_Keybase := keybase c;
     NodeURI := RPCAddr c;
     OutputFormat := "json";
     From := defaultKey;
     BroadcastMode := "sync";
     FromName := defaultKey;
     ctx_Codec := Amino c;
     TrustNode := true;
     UseLedger := false;
     Simulate := false;
     GenerateOnly := false;
     Indent := true;
     SkipConfirm := true |}.

(** [GetAccAddress]: the key of a keybase that does not hold it is a nil
    interface, whose [GetAddress] panics. *)
Definition GetAccAddress : M (option AccAddress) :=
  c <- get_config ;;
  match address c with
  | Some a => ret (Some a)
  | None =>
      emit (EvSetBech32Prefix akashPrefix (akashPrefix ++ "pub")) ;;;
      match keybase c with
      | Some kb =>
          match kb_Get kb defaultKey with
          | OK k => ret (info_GetAddress k)
          | Fail _ => panic
          end
      | None => ret None
      end
  end.

(** [NewTMClient] drops the error and returns the client or nil. *)
Definition NewTMClient : M (option Client) :=
  c <- get_config ;;
  match rpchttp_New (RPCAddr c) "/websocket" with
  | OK out => ret (Some out)
  | Fail _ => ret None
  end.

(** [CreateKeybase] *)
Definition CreateKeybase : M (option error) :=
  c <- get_config ;;
  home <- get_homePath ;;
  let kb := keys_NewInMemory in
  match os_Open (path_Join home (Keyfile c)) with
  | Fail e => ret (Some e)
  | OK kf =>
      match ioutil_ReadAll kf with
      | Fail e => ret (Some e)
      | OK byt =>
          let (kb', err) := kb_ImportPrivKey kb defaultKey byt (Keypass c) in
          put_config (set_keybase c (Some kb')) ;;;
          ret err
      end
  end.

(** [validateConfig], called on the package variable [config]. *)
Definition validateConfig : M (option error) :=
  c <- get_config ;;
  put_config (set_Amino c (Some app_MakeCodec)) ;;;
  c <- get_config ;;
  match rpchttp_New (RPCAddr c) "/websocket" with
  | Fail e => ret (Some e)
  | OK _ =>
      home <- get_homePath ;;
      let keypath := path_Join home (Keyfile c) in
      let err := os_Stat keypath in
      if os_IsNotExist err
      then
        emit (EvPrint ("Private key specified in the config file doesn't exist: "
                       ++ keypath ++ newline)) ;;;
        ret None
      else
        err <- CreateKeybase ;;
        match err with
        | Some e => ret (Some e)
        | None => GetAccAddress ;;; ret None
        end
  end.

(** The state [validateConfig] leaves when it finds no key file: the codec
    is set and the warning that names the path is printed. *)
Definition keyfile_warning (s : Proc) : Event :=
  EvPrint ("Private key specified in the config file doesn't exist: "
           ++ path_Join (homePath s) (Keyfile (config s)) ++ newline).

Definition warned (s : Proc) : Proc :=
  add_events
    {| config := set_Amino (config s) (Some app_MakeCodec);
       cfgPath := cfgPath s; homePath := homePath s; events := events s |}
    [keyfile_warning s].

(** [initConfig] *)
Definition initConfig (cmd : Command) : M (option error) :=
  match cmd_GetString cmd FlagHome with
  | Fail e => ret (Some e)
  | OK home =>
      put_config zero_Config ;;;
      put_cfgPath (path_Join home "config.yaml") ;;;
      p <- get_cfgPath ;;
      match os_Stat p with
      | None =>
          match viper_ReadInConfig p with
          | None =>
              match ioutil_ReadFile p with
              | Fail e =>
                  emit (EvPrint ("Error reading file: " ++ e ++ newline)) ;;;
                  os_Exit 1
              | OK file =>
                  c <- get_config ;;
                  let (c', err) := yaml_Unmarshal file c in
                  put_config c' ;;;
                  match err with
                  | Some e =>
                      emit (EvPrint ("Error unmarshalling config: " ++ e ++ newline)) ;;;
                      os_Exit 1
                  | None =>
                      err <- validateConfig ;;
                      match err with
                      | Some e =>
                          emit (EvPrint ("Error parsing chain config: " ++ e ++ newline)) ;;;
                          os_Exit 1
                      | None => ret None
                      end
                  end
              end
          | Some _ => ret None
          end
      | Some e =>
          if os_IsNotExist (Some e)
          then
            emit (EvPrint ("config file " ++ p ++ " doesn't exist" ++ newline)) ;;;
            ret None
          else ret None
      end
  end.

(** [BuildAndSignTx] *)
Definition BuildAndSignTx (msgs : list Msg) : M (goerr (list Byte.byte)) :=
  client <- NewTMClient ;;
  c <- get_config ;;
  let ctx := CLICtx c client in
  a <- GetAccAddress ;;
  emit (EvGetAccount ctx a) ;;;
  match auth_GetAccount ctx a with
  | Fail e => ret (Fail e)
  | OK acc =>
      let txBldr :=
        {| tb_encoder := Amino c;
           tb_accNumber := acc_GetAccountNumber acc;
           tb_sequence := acc_GetSequence acc;
           tb_gas := 200000;
           tb_gasAdj := gasAdj c;
           tb_simulateAndExecute := true;
           tb_chainID := ChainID c;
           tb_memo := "";
           tb_fees := sdk_NewCoins;
           tb_gasPrices := gasPrices c;
           tb_keybase := keybase c |} in
      emit (EvEnrichWithGas txBldr ctx msgs) ;;;
      match authclient_EnrichWithGas txBldr ctx msgs with
      | Fail e => ret (Fail e)
      | OK txBldr' =>
          emit (EvBuildAndSign txBldr' defaultKey (Keypass c) msgs) ;;;
          ret (txBldr_BuildAndSign txBldr' defaultKey (Keypass c) msgs)
      end
  end.

(** [BroadcastTxCommit] *)
Definition BroadcastTxCommit (txBytes : list Byte.byte) : M (TxResponse * option error) :=
  client <- NewTMClient ;;
  c <- get_config ;;
  let ctx := CLICtx c client in
  emit (EvBroadcastTxCommit ctx txBytes) ;;;
  ret (ctx_BroadcastTxCommit ctx txBytes).

(** The loop of [SendMsgs] that validates the messages in order and
    returns at the first error. *)
Fixpoint SendMsgs_validate (datagrams : list Msg) : M (option error) :=
  match datagrams with
  | [] => ret None
  | msg :: rest =>
      emit (EvValidateBasic msg) ;;;
      match msg_ValidateBasic msg with
      | Some err => ret (Some err)
      | None => SendMsgs_validate rest
      end
  end.

(** [SendMsgs]; [res] is the zero response until the broadcast returns. *)
Definition SendMsgs (datagrams : list Msg) : M (TxResponse * option error) :=
  let res := zero_TxResponse in
  v <- SendMsgs_validate datagrams ;;
  match v with
  | Some err => ret (res, Some err)
  | None =>
      b <- BuildAndSignTx datagrams ;;
      match b with
      | Fail err => ret (res, Some err)
      | OK out => BroadcastTxCommit out
      end
  end.

(** [BlockHeight]; [Status] on a nil client panics. *)
Definition BlockHeight : M (goerr Z) :=
  client <- NewTMClient ;;
  match client with
  | None => panic
  | Some cl =>
      emit (EvStatus cl) ;;;
      match client_Status cl with
      | Fail e => ret (Fail e)
      | OK h => ret (OK (uint64_of_int64 h))
      end
  end.

(** [NewDeploymentData] *)
Definition NewDeploymentData (file : string) (flags : FlagSet) (depAddr : AccAddress)
    : M (goerr DeploymentData) :=
  match ioutil_ReadFile file with
  | Fail e => ret (Fail e)
  | OK f =>
  match sdl_Read f with
  | Fail e => ret (Fail e)
  | OK sdlSpec =>
  match sdl_DeploymentGroups sdlSpec with
  | Fail e => ret (Fail e)
  | OK groups =>
  match sdl_Manifest sdlSpec with
  | Fail e => ret (Fail e)
  | OK mani =>
  match sdl_ManifestVersion mani with
  | Fail e => ret (Fail e)
  | OK ver =>
  match dcli_DeploymentIDFromFlags flags (addr_String depAddr) with
  | Fail e => ret (Fail e)
  | OK id =>
      let finish (id : DeploymentID) : M (goerr DeploymentData) :=
        ret (OK {| SDLFile := f;
                   SDL := Some sdlSpec;
                   Manifest := Some mani;
                   Groups := groups;
                   DeploymentID_of := id;
                   OrderID_of := [];
                   LeaseID_of := [];
                   Version := ver |}) in
      if Z.eqb (DSeq id) 0
      then
        h <- BlockHeight ;;
        match h with
        | Fail e => ret (Fail e)
        | OK dseq => finish {| Owner := Owner id; DSeq := dseq |}
        end
      else finish id
  end end end end end end.

(** [NewDeploymentDataFromConfig] *)
Definition NewDeploymentDataFromConfig : M DeploymentData :=
  a <- GetAccAddress ;;
  ret {| SDLFile := [];
         SDL := None;
         Manifest := None;
         Groups := [];
         DeploymentID_of := {| Owner := default [] a; DSeq := 0 |};
         OrderID_of := [];
         LeaseID_of := [];
         Version := [] |}.

End Pipeline.
End Cfg.

(** ** Callers under the write lock

    [AddLease] and [RemoveLease] take the write lock of the tracker, read
    the lease collection, store the new collection and release the lock.
    Several callers run these statements interleaved by a schedule; a
    caller waiting at [dd.Lock()] cannot run while another caller holds
    the lock. *)

Module Locked.
Section Callers.
Context `{CT : ChainTypes}.

(** Where a caller stands in its current call. *)
Inductive phase : Type :=
| AtLock
| AtBody
| AtStore (out : list LeaseID)
| AtUnlock.

(** A caller: the calls it still makes, the first being in progress. *)
Record caller : Type := mkCaller {
  todo : list LeaseCall;
  at_phase : phase;
}.

Record world : Type := mkWorld {
  dd : DeploymentData;
  writer : option nat;
  callers : list caller;
}.

(** The right-hand side a call computes from the collection it reads. *)
Definition body (c : LeaseCall) (cur : list LeaseID) : list LeaseID :=
  match c with
  | CallAddLease lease => cur ++ [lease]
  | CallRemoveLease order => RemoveLease_loop order cur []
  end.

(** One statement of caller [t]; [None] when [t] has finished or waits
    for the lock. *)
Definition step (t : nat) (w : world) : option world :=
  match callers w !! t with
  | None => None
  | Some c =>
      match todo c with
      | [] => None
      | call :: rest =>
          match at_phase c with
          | AtLock =>
              match writer w with
              | Some _ => None
              | None =>
                  Some {| dd := dd w; writer := Some t;
                          callers := <[t := mkCaller (call :: rest) AtBody]> (callers w) |}
              end
          | AtBody =>
              Some {| dd := dd w; writer := writer w;
                      callers := <[t := mkCaller (call :: rest)
                                           (AtStore (body call (LeaseID_of (dd w))))]>
                                   (callers w) |}
          | AtStore out =>
              Some {| dd := set_LeaseID (dd w) out; writer := writer w;
                      callers := <[t := mkCaller (call :: rest) AtUnlock]> (callers w) |}
          | AtUnlock =>
              Some {| dd := dd w; writer := None;
                      callers := <[t := mkCaller rest AtLock]> (callers w) |}
          end
      end
  end.

(** A schedule names the caller that runs next. *)
Fixpoint run (sched : list nat) (w : world) : option world :=
  match sched with
  | [] => Some w
  | t :: rest =>
      match step t w with
      | Some w' => run rest w'
      | None => None
      end
  end.

Definition start (d : DeploymentData) (programs : list (list LeaseCall)) : world :=
  {| dd := d; writer := None;
     callers := map (fun p => mkCaller p AtLock) programs |}.

Definition finished (w : world) : bool :=
  forallb (fun c => match todo c with [] => true | _ => false end) (callers w).

Definition is_add (c : LeaseCall) : bool :=
  match c with CallAddLease _ => true | CallRemoveLease _ => false end.

Definition added_ids (calls : list LeaseCall) : list LeaseID :=
  omap (fun c => match c with CallAddLease x => Some x | _ => None end) calls.

Definition removed_ids (calls : list LeaseCall) : list LeaseID :=
  omap (fun c => match c with CallRemoveLease x => Some x | _ => None end) calls.

(** Every remove of a caller follows an add of the same id by that caller. *)
Fixpoint removes_own_adds (seen : list LeaseID) (calls : list LeaseCall) : bool :=
  match calls with
  | [] => true
  | CallAddLease x :: rest => removes_own_adds (x :: seen) rest
  | CallRemoveLease x :: rest =>
      existsb (LeaseID_Equals x) seen && removes_own_adds seen rest
  end.

(** The ids of a list are pairwise different, by [Equals]. *)
Fixpoint distinct (l : list LeaseID) : bool :=
  match l with
  | [] => true
  | x :: rest => negb (existsb (LeaseID_Equals x) rest) && distinct rest
  end.

(** [calls] runs all the calls of the programs, those of each program in
    its order. *)
Inductive interleaving : list (list LeaseCall) → list LeaseCall → Prop :=
| interleaving_done programs :
    Forall (fun p => p = []) programs → interleaving programs []
| interleaving_next programs t call rest calls :
    programs !! t = Some (call :: rest) →
    interleaving (<[t := rest]> programs) calls →
    interleaving programs (call :: calls).

(** The calls of a caller that have not stored their result yet. *)
Definition remaining_of (c : caller) : list LeaseCall :=
  match at_phase c with
  | AtUnlock => tail (todo c)
  | _ => todo c
  end.

(** What holds in every world the callers reach from [start d programs]:
    the tracker is what the calls stored so far give when run one after
    another, these calls followed by any run of the remaining ones are an
    interleaving of the programs, only the caller that holds the lock is
    inside a call, and a result waiting to be stored was computed from the
    collection as it is now. *)
Definition consistent (d : DeploymentData) (programs : list (list LeaseCall))
    (w : world) : Prop :=
  (∃ hist,
     dd w = run_lease_calls hist d
     ∧ ∀ calls, interleaving (map remaining_of (callers w)) calls →
                interleaving programs (hist ++ calls))
  ∧ (∀ t c, callers w !! t = Some c → at_phase c ≠ AtLock →
            writer w = Some t ∧ todo c ≠ [])
  ∧ (∀ t c out, callers w !! t = Some c → at_phase c = AtStore out →
                ∃ call rest, todo c = call :: rest
                             ∧ out = body call (LeaseID_of (dd w)))
  ∧ (∀ t, writer w = Some t →
          ∃ c, callers w !! t = Some c ∧ at_phase c ≠ AtLock).

End Callers.
End Locked.

(** ** A sample instance

    Identifiers with the fields of the market module: owner, deployment,
    group and order sequence numbers, and the provider of a lease
    (addresses as lists of byte values). *)

Module Sample.

Record order_id : Type := mkOrderId {
  o_owner : list nat;
  o_dseq : Z;
  o_gseq : Z;
  o_oseq : Z;
}.

Record lease_id : Type := mkLeaseId {
  l_owner : list nat;
  l_dseq : Z;
  l_gseq : Z;
  l_oseq : Z;
  l_provider : list nat;
}.

#[global] Instance order_id_eq_dec : EqDecision order_id.
Proof. solve_decision. Defined.

#[global] Instance lease_id_eq_dec : EqDecision lease_id.
Proof. solve_decision. Defined.

Definition chain : ChainTypes := {|
  sdl_SDL := unit;
  manifest_Manifest := unit;
  GroupSpec := string;
  OrderID := order_id;
  LeaseID := lease_id;
  OrderID_Equals := fun a b => bool_decide (a = b);
  LeaseID_Equals := fun a b => bool_decide (a = b);
  OrderID_Equals_spec := fun a b => bool_decide_eq_true (a = b);
  LeaseID_Equals_spec := fun a b => bool_decide_eq_true (a = b);
|}.

Definition runtime : @SliceRuntime chain :=
  @Build_SliceRuntime chain (mkLeaseId [] 0 0 0 []) (fun c => (2 * c)%nat).

(** Library types and answers for one run: a node at a local address that
    reports height 1234, a home directory that holds [config.yaml] and no
    key file, and messages that are valid unless empty. *)
Definition libs : LibTypes := {|
  Msg := string;
  TxResponse := string;
  Keybase := list string;
  KeyInfo := AccAddress;
  Codec := unit;
  Client := string;
  Account := Z * Z;
  TxBuilder := Z;
  DecCoins := list Z;
  float64 := Z;
  Command := string;
  FlagSet := Z;
  File := string;
  zero_TxResponse := ""%string;
  zero_float64 := 0;
  nil_DecCoins := [];
|}.

Definition env : @Cfg.Env chain libs := {|
  Cfg.msg_ValidateBasic := fun m : @Msg libs =>
    if String.eqb m "" then Some "empty message"%string else None;
  Cfg.app_MakeCodec := tt;
  Cfg.rpchttp_New := fun remote _ =>
    if String.eqb remote "" then Fail "no address"%string else OK remote;
  Cfg.client_Status := fun _ => OK 1234;
  Cfg.path_Join := fun a b => (a ++ "/" ++ b)%string;
  Cfg.os_Stat := fun p =>
    if String.eqb p "/home/akash/config.yaml" then None
    else Some "no such file or directory"%string;
  Cfg.os_IsNotExist := fun e => match e with Some _ => true | None => false end;
  Cfg.os_Open := fun _ => Fail "no such file or directory"%string;
  Cfg.ioutil_ReadAll := fun f : string => OK f;
  Cfg.ioutil_ReadFile := fun _ => OK [];
  Cfg.yaml_Unmarshal := fun _ (c : @Cfg.Config libs) =>
    (@Cfg.mkConfig libs "testnet" "http://localhost:26657" "key.priv" "12345678"
       (Cfg.gasAdj c) (Cfg.gasPrices c) (Cfg.keybase c) (Cfg.address c) (Cfg.Amino c),
     None);
  Cfg.keys_NewInMemory := [];
  Cfg.kb_ImportPrivKey := fun kb name _ _ => (name :: kb, None);
  Cfg.kb_Get := fun _ _ => OK [];
  Cfg.info_GetAddress := fun k => Some k;
  Cfg.cmd_GetString := fun (cmd : string) _ => OK cmd;
  Cfg.viper_ReadInConfig := fun _ => None;
  Cfg.auth_GetAccount := fun _ _ => OK (7, 3);
  Cfg.acc_GetAccountNumber := fun a : Z * Z => fst a;
  Cfg.acc_GetSequence := fun a : Z * Z => snd a;
  Cfg.sdk_NewCoins := [];
  Cfg.authclient_EnrichWithGas := fun _ _ _ => OK 250000;
  Cfg.txBldr_BuildAndSign := fun _ _ _ _ => OK [];
  Cfg.ctx_BroadcastTxCommit := fun _ _ => ("committed"%string, None);
  Cfg.addr_String := fun _ => "akash1owner"%string;
  Cfg.sdl_Read := fun _ => (OK tt : goerr (@sdl_SDL chain));
  Cfg.sdl_DeploymentGroups := fun _ => OK [addr 1; addr 2];
  Cfg.sdl_Manifest := fun _ => OK tt;
  Cfg.sdl_ManifestVersion := fun _ => OK [];
  Cfg.dcli_DeploymentIDFromFlags := fun (flags : Z) _ => OK (mkDeploymentID [] flags);
|}.

(** The package state when the command starts, and with the configuration
    of the file loaded. *)
Definition proc_start : @Cfg.Proc libs :=
  {| Cfg.config := @Cfg.zero_Config libs; Cfg.cfgPath := ""; Cfg.homePath := "/home/akash";
     Cfg.events := [] |}.

Definition proc_loaded : @Cfg.Proc libs :=
  {| Cfg.config := @Cfg.mkConfig libs "testnet" "http://localhost:26657" "key.priv"
                     "12345678" 0 [] None None None;
     Cfg.cfgPath := "/home/akash/config.yaml"; Cfg.homePath := "/home/akash";
     Cfg.events := [] |}.

End Sample.

(** Sample values: identifiers, a tracker of two groups, a lease slice of
    two elements in an array of four cells, a batch of messages. *)

Section SampleValues.
#[local] Existing Instance Sample.chain.
#[local] Existing Instance Sample.libs.
#[local] Existing Instance Sample.env.
#[local] Existing Instance Sample.runtime.

Definition sample_order (n : Z) : @OrderID Sample.chain :=
  {| Sample.o_owner := [7%nat; 9%nat]; Sample.o_dseq := 42; Sample.o_gseq := 1;
     Sample.o_oseq := n |}.

Definition sample_lease (n : Z) : @LeaseID Sample.chain :=
  {| Sample.l_owner := [7%nat; 9%nat]; Sample.l_dseq := 42; Sample.l_gseq := 1;
     Sample.l_oseq := n; Sample.l_provider := [3%nat] |}.

Definition sample_tracker : @DeploymentData Sample.chain :=
  {| SDLFile := []; SDL := None; Manifest := None;
     Groups := [addr 1; addr 2];
     DeploymentID_of := {| Owner := []; DSeq := 42 |};
     OrderID_of := []; LeaseID_of := []; Version := [] |}.

Definition sample_store : @GroupStore Sample.chain :=
  fun l => if Pos.eqb l 1 then "web"%string else "db"%string.

Definition sample_order_calls : list (@OrderCall Sample.chain) :=
  [CallAddOrder (sample_order 1); CallAddOrder (sample_order 2);
   CallRemoveOrder (sample_order 1); CallAddOrder (sample_order 1);
   CallRemoveOrder (sample_order 3); CallAddOrder (sample_order 3);
   CallRemoveOrder (sample_order 2)].

Definition sample_heap : SliceMem.Heap :=
  {[ 5%positive := [sample_lease 1; sample_lease 2; zero_LeaseID; zero_LeaseID] ]}.

Definition sample_slice : SliceMem.slice := SliceMem.mkSlice (Some 5%positive) 2 4.

Definition sample_lease_calls : list LeaseCall :=
  [CallAddLease (sample_lease 3); CallRemoveLease (sample_lease 1);
   CallAddLease (sample_lease 4); CallAddLease (sample_lease 1);
   CallRemoveLease (sample_lease 2)].



Definition sample_client : @Client Sample.libs := "http://localhost:26657"%string.

Definition sample_command : @Command Sample.libs := "/home/akash"%string.

Definition sample_flags (dseq : Z) : @FlagSet Sample.libs := dseq.

Definition sample_programs : list (list LeaseCall) :=
  [[CallAddLease (sample_lease 1); CallAddLease (sample_lease 2);
    CallRemoveLease (sample_lease 1)];
   [CallAddLease (sample_lease 3); CallRemoveLease (sample_lease 3);
    CallAddLease (sample_lease 4)]].

(** The callers take turns, a call (four statements) at a time. *)
Definition sample_schedule : list nat :=
  [0; 0; 0; 0; 1; 1; 1; 1; 1; 1; 1; 1; 0; 0; 0; 0; 1; 1; 1; 1; 0; 0; 0; 0]%nat.

End SampleValues.

(** ** Key creation and the configuration file

    [CreateKey] and [writeConfig] write to the file system.  The state they
    run on is the package state together with the file operations
    attempted so far. *)

(** The calls of key creation and of writing the configuration file into
    the libraries and the operating system. *)
Class KeyEnv `{E : Cfg.Env} : Type := {
  SigningAlgo : Type;
  keys_Secp256k1 : SigningAlgo;
  keys_CreateHDPath : Z → Z → string;
  bip39_NewEntropy : Z → goerr (list Byte.byte);
  bip39_NewMnemonic : list Byte.byte → goerr string;
  kb_CreateAccount :
    Keybase → string → string → string → string → string → SigningAlgo →
    Keybase * goerr KeyInfo;
  kb_ExportPrivKey : Keybase → string → string → string → goerr string;
  ioutil_WriteFile : string → list Byte.byte → Z → option error;
  os_MkdirAll : string → Z → option error;
  filepath_Dir : string → string;
  yaml_Marshal : Cfg.Config → goerr (list Byte.byte);
}.

Module Keys.
Section Files.
Context `{K : KeyEnv}.

(** A file operation with its arguments; permissions are the numbers the
    source writes in octal ([0644] is 420, [os.ModePerm] is 511). *)
Inductive FsOp : Type :=
| OpMkdirAll (path : string) (perm : Z)
| OpWriteFile (path : string) (data : list Byte.byte) (perm : Z).

Record Disk : Type := mkDisk {
  proc : Cfg.Proc;
  ops : list FsOp;
}.

Definition W (A : Type) : Type := Disk → outcome A * Disk.

Definition wret {A} (a : A) : W A := fun d => (Returned a, d).

Definition wbind {A B} (m : W A) (f : A → W B) : W B :=
  fun d =>
    match m d with
    | (Returned a, d') => f a d'
    | (Exited code, d') => (Exited code, d')
    | (Panicked, d') => (Panicked, d')
    end.

(** A computation on the package state, run on the state with files. *)
Definition lift {A} (m : Cfg.M A) : W A :=
  fun d => let (o, p) := m (proc d) in (o, mkDisk p (ops d)).

Definition attempt (op : FsOp) : W unit :=
  fun d => (Returned tt, mkDisk (proc d) (ops d ++ [op])).

(** [CreateKey] *)
Definition CreateKey : W (option error) :=
  wbind (lift Cfg.get_config) (fun c =>
  wbind (lift Cfg.get_homePath) (fun home =>
  let kp := Cfg.path_Join home (Cfg.Keyfile c) in
  if negb (Cfg.os_IsNotExist (Cfg.os_Stat kp))
  then wret (Some ("keyfile " ++ kp ++ " already exists")%string)
  else
    wbind (lift (Cfg.emit (Cfg.EvPrint ("Creating " ++ kp ++ " ..." ++ Cfg.newline)%string)))
      (fun _ =>
    let kb := Cfg.keys_NewInMemory in
    match bip39_NewEntropy 256 with
    | Fail e => wret (Some e)
    | OK entropySeed =>
    match bip39_NewMnemonic entropySeed with
    | Fail e => wret (Some e)
    | OK mnemonic =>
    let (kb', created) :=
      kb_CreateAccount kb Cfg.defaultKey mnemonic Cfg.defaultPass Cfg.defaultPass
        (keys_CreateHDPath 0 0) keys_Secp256k1 in
    match created with
    | Fail e => wret (Some e)
    | OK _ =>
    match kb_ExportPrivKey kb' Cfg.defaultKey Cfg.defaultPass Cfg.defaultPass with
    | Fail e => wret (Some e)
    | OK armor =>
        wbind (attempt (OpWriteFile kp (list_byte_of_string armor) 420)) (fun _ =>
        wret (ioutil_WriteFile kp (list_byte_of_string armor) 420))
    end end end end))).

(** [writeConfig]; [cfg] becomes the package configuration at the end. *)
Definition writeConfig (cmd : Command) (cfg : Cfg.Config) : W (option error) :=
  wbind (lift Cfg.get_cfgPath) (fun p =>
  wbind (attempt (OpMkdirAll (filepath_Dir p) 511)) (fun _ =>
  match os_MkdirAll (filepath_Dir p) 511 with
  | Some e => wret (Some e)
  | None =>
  match yaml_Marshal cfg with
  | Fail e => wret (Some e)
  | OK out =>
      wbind (attempt (OpWriteFile p out 420)) (fun _ =>
      match ioutil_WriteFile p out 420 with
      | Some e => wret (Some e)
      | None => wbind (lift (Cfg.put_config cfg)) (fun _ => wret None)
      end)
  end end)).

End Files.
End Keys.

(** The statements the callers of a world have still to run: four for
    each call, less those of the call in progress that were run. *)
Definition phase_index `{CT : ChainTypes} (ph : Locked.phase) : nat :=
  match ph with
  | Locked.AtLock => 0
  | Locked.AtBody => 1
  | Locked.AtStore _ => 2
  | Locked.AtUnlock => 3
  end.

Definition caller_steps_left `{CT : ChainTypes} (c : Locked.caller) : nat :=
  4 * length (Locked.todo c) - phase_index (Locked.at_phase c).

Definition steps_left `{CT : ChainTypes} (w : Locked.world) : nat :=
  list_sum (map caller_steps_left (Locked.callers w)).

(** The broadcast among the events. *)
Definition is_broadcast `{LT : LibTypes} (e : Cfg.Event) : bool :=
  match e with
  | Cfg.EvBroadcastTxCommit _ _ => true
  | _ => false
  end.

(** The sample run with a key file: as [Sample.env], but the key file
    exists and holds an armored key, and the configuration file gives a
    passphrase that does not open it. *)
Definition sample_env_with_key : @Cfg.Env Sample.chain Sample.libs := {|
  Cfg.msg_ValidateBasic := @Cfg.msg_ValidateBasic _ _ Sample.env;
  Cfg.app_MakeCodec := @Cfg.app_MakeCodec _ _ Sample.env;
  Cfg.rpchttp_New := @Cfg.rpchttp_New _ _ Sample.env;
  Cfg.client_Status := @Cfg.client_Status _ _ Sample.env;
  Cfg.path_Join := @Cfg.path_Join _ _ Sample.env;
  Cfg.os_Stat := fun _ => None;
  Cfg.os_IsNotExist := @Cfg.os_IsNotExist _ _ Sample.env;
  Cfg.os_Open := fun p => (OK p : goerr (@File Sample.libs));
  Cfg.ioutil_ReadAll := fun _ => OK "armored key"%string;
  Cfg.ioutil_ReadFile := @Cfg.ioutil_ReadFile _ _ Sample.env;
  Cfg.yaml_Unmarshal := fun _ (c : @Cfg.Config Sample.libs) =>
    (@Cfg.mkConfig Sample.libs "testnet" "http://localhost:26657" "key.priv" "wrong"
       (Cfg.gasAdj c) (Cfg.gasPrices c) (Cfg.keybase c) (Cfg.address c) (Cfg.Amino c),
     None);
  Cfg.keys_NewInMemory := @Cfg.keys_NewInMemory _ _ Sample.env;
  Cfg.kb_ImportPrivKey := fun kb name _ pass =>
    (name :: kb,
     if String.eqb pass "12345678" then None else Some "invalid passphrase"%string);
  Cfg.kb_Get := @Cfg.kb_Get _ _ Sample.env;
  Cfg.info_GetAddress := @Cfg.info_GetAddress _ _ Sample.env;
  Cfg.cmd_GetString := @Cfg.cmd_GetString _ _ Sample.env;
  Cfg.viper_ReadInConfig := @Cfg.viper_ReadInConfig _ _ Sample.env;
  Cfg.auth_GetAccount := @Cfg.auth_GetAccount _ _ Sample.env;
  Cfg.acc_GetAccountNumber := @Cfg.acc_GetAccountNumber _ _ Sample.env;
  Cfg.acc_GetSequence := @Cfg.acc_GetSequence _ _ Sample.env;
  Cfg.sdk_NewCoins := @Cfg.sdk_NewCoins _ _ Sample.env;
  Cfg.authclient_EnrichWithGas := @Cfg.authclient_EnrichWithGas _ _ Sample.env;
  Cfg.txBldr_BuildAndSign := @Cfg.txBldr_BuildAndSign _ _ Sample.env;
  Cfg.ctx_BroadcastTxCommit := @Cfg.ctx_BroadcastTxCommit _ _ Sample.env;
  Cfg.addr_String := @Cfg.addr_String _ _ Sample.env;
  Cfg.sdl_Read := @Cfg.sdl_Read _ _ Sample.env;
  Cfg.sdl_DeploymentGroups := @Cfg.sdl_DeploymentGroups _ _ Sample.env;
  Cfg.sdl_Manifest := @Cfg.sdl_Manifest _ _ Sample.env;
  Cfg.sdl_ManifestVersion := @Cfg.sdl_ManifestVersion _ _ Sample.env;
  Cfg.dcli_DeploymentIDFromFlags := @Cfg.dcli_DeploymentIDFromFlags _ _ Sample.env;
|}.

(** Key creation and file writes that succeed on the sample run. *)
Definition sample_key_env : @KeyEnv Sample.chain Sample.libs Sample.env :=
  @Build_KeyEnv Sample.chain Sample.libs Sample.env
    string "secp256k1"%string
    (fun _ _ => "44'/118'/0'/0/0"%string)
    (fun _ => OK [])
    (fun _ => OK "abandon ability able"%string)
    (fun kb name _ _ _ _ _ => (name :: kb, OK []))
    (fun _ _ _ _ => OK "armored key"%string)
    (fun _ _ _ => None)
    (fun _ _ => None)
    (fun p => p)
    (fun _ => OK []).

(** The loaded sample state with a wrong passphrase, with the address
    set, and with a key file named like the configuration file. *)
Definition sample_proc_wrong_pass : @Cfg.Proc Sample.libs :=
  {| Cfg.config := @Cfg.mkConfig Sample.libs "testnet" "http://localhost:26657" "key.priv"
                     "wrong" 0 [] None None None;
     Cfg.cfgPath := "/home/akash/config.yaml"; Cfg.homePath := "/home/akash";
     Cfg.events := [] |}.

Definition sample_proc_address : @Cfg.Proc Sample.libs :=
  {| Cfg.config := @Cfg.mkConfig Sample.libs "testnet" "http://localhost:26657" "key.priv"
                     "12345678" 0 [] (Some ["default"%string]) (Some []) (Some tt);
     Cfg.cfgPath := "/home/akash/config.yaml"; Cfg.homePath := "/home/akash";
     Cfg.events := [] |}.

Definition sample_proc_key_taken : @Cfg.Proc Sample.libs :=
  {| Cfg.config := @Cfg.mkConfig Sample.libs "testnet" "http://localhost:26657" "config.yaml"
                     "12345678" 0 [] None None None;
     Cfg.cfgPath := "/home/akash/config.yaml"; Cfg.homePath := "/home/akash";
     Cfg.events := [] |}.

Definition sample_command_tmp : @Command Sample.libs := "/tmp"%string.

(** An empty slice that is not nil, over the array of the sample heap. *)
Definition sample_empty_slice : @SliceMem.slice := SliceMem.mkSlice (Some 5%positive) 0 4.

Definition sample_disk : @Keys.Disk Sample.libs :=
  Keys.mkDisk Sample.proc_loaded [].

Definition sample_disk_key_taken : @Keys.Disk Sample.libs :=
  Keys.mkDisk sample_proc_key_taken [].

(** The sample tracker with a nil pointer as its second group, as
    [[]*dtypes.GroupSpec{&web, nil}]. *)
Definition sample_nil_tracker : @DeploymentData Sample.chain :=
  {| SDLFile := []; SDL := None; Manifest := None;
     Groups := [addr 1; nilptr];
     DeploymentID_of := {| Owner := []; DSeq := 42 |};
     OrderID_of := []; LeaseID_of := []; Version := [] |}.

(** A tracker that holds the same lease twice, two callers that add
    other leases, one of them removing its own, and a schedule that starts
    the second caller inside the first one's calls. *)
Definition sample_tracker_twice : @DeploymentData Sample.chain :=
  {| SDLFile := []; SDL := None; Manifest := None;
     Groups := [addr 1; addr 2];
     DeploymentID_of := {| Owner := []; DSeq := 42 |};
     OrderID_of := []; LeaseID_of := [sample_lease 9; sample_lease 9]; Version := [] |}.

Definition sample_programs_twice : list (list (@LeaseCall Sample.chain)) :=
  [[CallAddLease (sample_lease 1); CallRemoveLease (sample_lease 1)];
   [CallAddLease (sample_lease 2)]].

Definition sample_schedule_twice : list nat :=
  [0; 0; 0; 0; 1; 1; 1; 1; 0; 0; 0; 0]%nat.

(** * Properties *)

(** ** The tracker, sequentially *)

Section TrackerFacts.
Context `{CT : ChainTypes}.

Lemma OrderID_Equals_refl (a : OrderID) : OrderID_Equals a a = true.
Proof. by apply OrderID_Equals_spec. Qed.

Lemma LeaseID_Equals_refl (a : LeaseID) : LeaseID_Equals a a = true.
Proof. by apply LeaseID_Equals_spec. Qed.

Lemma OrderID_Equals_false (a b : OrderID) : OrderID_Equals a b = false ↔ a ≠ b.
Proof.
  split.
  - intros Hf ->. rewrite OrderID_Equals_refl in Hf. discriminate.
  - intros Hne. destruct (OrderID_Equals a b) eqn:Heq; [|done].
    apply OrderID_Equals_spec in Heq. contradiction.
Qed.

Lemma LeaseID_Equals_false (a b : LeaseID) : LeaseID_Equals a b = false ↔ a ≠ b.
Proof.
  split.
  - intros Hf ->. rewrite LeaseID_Equals_refl in Hf. discriminate.
  - intros Hne. destruct (LeaseID_Equals a b) eqn:Heq; [|done].
    apply LeaseID_Equals_spec in Heq. contradiction.
Qed.

(** The removal loops keep what was collected and filter the rest. *)
Lemma RemoveOrder_loop_filter (order : OrderID) (l out : list OrderID) :
  RemoveOrder_loop order l out
  = out ++ List.filter (fun o => negb (OrderID_Equals order o)) l.
Proof.
  revert out. induction l as [|o l IH]; intros out; simpl.
  - by rewrite app_nil_r.
  - destruct (negb (OrderID_Equals order o)); rewrite IH; [|done].
    by rewrite <- app_assoc.
Qed.

Lemma RemoveLease_loop_filter (order : LeaseID) (l out : list LeaseID) :
  RemoveLease_loop order l out
  = out ++ List.filter (fun o => negb (LeaseID_Equals order o)) l.
Proof.
  revert out. induction l as [|o l IH]; intros out; simpl.
  - by rewrite app_nil_r.
  - destruct (negb (LeaseID_Equals order o)); rewrite IH; [|done].
    by rewrite <- app_assoc.
Qed.

Lemma filter_all_kept {A} (f : A → bool) (l : list A) :
  existsb f l = false → List.filter (fun a => negb (f a)) l = l.
Proof.
  induction l as [|a l IH]; simpl; [done|].
  intros H. apply orb_false_iff in H as [Ha Hl].
  rewrite Ha. simpl. by rewrite IH.
Qed.

Lemma set_OrderID_same (dd : DeploymentData) : set_OrderID dd (OrderID_of dd) = dd.
Proof. by destruct dd. Qed.

Lemma set_LeaseID_same (dd : DeploymentData) : set_LeaseID dd (LeaseID_of dd) = dd.
Proof. by destruct dd. Qed.

Lemma In_RemoveOrder (order id : OrderID) (dd : DeploymentData) :
  In id (OrderID_of (RemoveOrder order dd))
  ↔ In id (OrderID_of dd) ∧ OrderID_Equals order id = false.
Proof.
  unfold RemoveOrder. simpl. rewrite RemoveOrder_loop_filter. simpl.
  rewrite filter_In. by rewrite negb_true_iff.
Qed.

Lemma In_AddOrder (order id : OrderID) (dd : DeploymentData) :
  In id (OrderID_of (AddOrder order dd)) ↔ In id (OrderID_of dd) ∨ order = id.
Proof.
  unfold AddOrder. simpl. rewrite in_app_iff. simpl. tauto.
Qed.

(** What a sequence of calls leaves of an arbitrary start. *)
Lemma In_run_order_calls (calls : list OrderCall) (dd : DeploymentData) (id : OrderID) :
  In id (OrderID_of (run_order_calls calls dd))
  ↔ (In id (OrderID_of dd) ∧ removed_in id calls = false)
    ∨ added_not_removed id calls = true.
Proof.
  revert dd. induction calls as [|[x|x] calls IH]; intros dd; simpl.
  - split; [intros H; left; done | intros [[H _]|H]; [done | discriminate]].
  - fold (run_order_calls calls (AddOrder x dd)). rewrite IH, In_AddOrder.
    rewrite orb_true_iff, andb_true_iff, negb_true_iff, OrderID_Equals_spec.
    tauto.
  - fold (run_order_calls calls (RemoveOrder x dd)). rewrite IH, In_RemoveOrder.
    rewrite orb_false_iff. tauto.
Qed.

Lemma NoDup_run_order_calls (calls : list OrderCall) (dd : DeploymentData) :
  List.NoDup (OrderID_of dd) →
  (∀ id, In id (OrderID_of dd) → not_added_again id calls = true) →
  no_duplicate_adds calls = true →
  List.NoDup (OrderID_of (run_order_calls calls dd)).
Proof.
  revert dd. induction calls as [|[x|x] calls IH]; intros dd Hnd Hin Hok; simpl in *.
  - done.
  - apply andb_true_iff in Hok as [Hx Hok].
    fold (run_order_calls calls (AddOrder x dd)). apply IH; [| |done].
    + unfold AddOrder; simpl. apply List.NoDup_app; [done | | ].
      * apply List.NoDup_cons; [simpl; tauto | apply List.NoDup_nil].
      * intros a Ha [<-|[]]. apply Hin in Ha.
        apply andb_true_iff in Ha as [Ha _].
        rewrite OrderID_Equals_refl in Ha. discriminate.
    + intros id Hid. apply In_AddOrder in Hid as [Hid| <-]; [|done].
      apply Hin in Hid. by apply andb_true_iff in Hid as [_ ?].
  - fold (run_order_calls calls (RemoveOrder x dd)). apply IH; [| |done].
    + unfold RemoveOrder; simpl. rewrite RemoveOrder_loop_filter. simpl.
      by apply List.NoDup_filter.
    + intros id Hid. apply In_RemoveOrder in Hid as [Hid Hne].
      apply Hin in Hid. by rewrite Hne in Hid.
Qed.

(** The two conditions of the statement below, read on the sequence. *)
Lemma removed_in_iff (id : OrderID) (calls : list OrderCall) :
  removed_in id calls = true ↔ In (CallRemoveOrder id) calls.
Proof.
  induction calls as [|[x|x] calls IH]; simpl.
  - split; [discriminate | done].
  - rewrite IH. split; [by right | intros [?|?]; [discriminate | done]].
  - rewrite orb_true_iff, IH, OrderID_Equals_spec. split.
    + intros [->|?]; [by left | by right].
    + intros [[= ->]|?]; [by left | by right].
Qed.

Lemma added_not_removed_iff (id : OrderID) (calls : list OrderCall) :
  added_not_removed id calls = true
  ↔ ∃ pre post, calls = pre ++ CallAddOrder id :: post ∧ ¬ In (CallRemoveOrder id) post.
Proof.
  induction calls as [|[x|x] calls IH]; simpl.
  - split; [discriminate|]. intros (pre & post & Heq & _). by destruct pre.
  - rewrite orb_true_iff, andb_true_iff, negb_true_iff, OrderID_Equals_spec, IH.
    rewrite <- not_true_iff_false, removed_in_iff. split.
    + intros [[-> Hrem]|(pre & post & -> & Hpost)].
      * by exists [], calls.
      * by exists (CallAddOrder x :: pre), post.
    + intros (pre & post & Heq & Hpost). destruct pre as [|c pre]; simpl in Heq.
      * inversion Heq; subst. by left.
      * inversion Heq; subst. right. by exists pre, post.
  - rewrite IH. split.
    + intros (pre & post & -> & Hpost). by exists (CallRemoveOrder x :: pre), post.
    + intros (pre & post & Heq & Hpost). destruct pre as [|c pre]; simpl in Heq.
      * discriminate.
      * inversion Heq; subst. by exists pre, post.
Qed.

Lemma not_added_again_fresh (id : OrderID) (calls : list OrderCall) :
  ¬ In id (order_added_ids calls) → not_added_again id calls = true.
Proof.
  induction calls as [|[x|x] calls IH]; simpl; intros Hid; [done| |].
  - rewrite IH by tauto. rewrite andb_true_r, negb_true_iff, OrderID_Equals_false.
    intros ->. tauto.
  - rewrite IH by done. apply orb_true_r.
Qed.

(** A sequence that adds no id twice has no duplicate adds. *)
Lemma never_added_twice (calls : list OrderCall) :
  List.NoDup (order_added_ids calls) → no_duplicate_adds calls = true.
Proof.
  induction calls as [|[x|x] calls IH]; simpl; intros Hnd; [done| |by apply IH].
  apply List.NoDup_cons_iff in Hnd as [Hx Hnd].
  by rewrite not_added_again_fresh, IH.
Qed.

(** C1. Starting from a tracker without orders, a sequence of AddOrder and
    RemoveOrder calls that never adds an id whose earlier add still stands
    leaves an order collection without repetition that holds an id exactly
    when some call added it and no later call removed it; this is so for
    every sequence, whatever the order of its calls. *)
Theorem orders_are_added_not_removed (calls : list OrderCall) (dd : DeploymentData) :
  OrderID_of dd = [] →
  no_duplicate_adds calls = true →
  List.NoDup (OrderID_of (run_order_calls calls dd))
  ∧ ∀ id, In id (OrderID_of (run_order_calls calls dd))
          ↔ added_not_removed id calls = true.
Proof.
  intros Hfresh Hok. split.
  - apply NoDup_run_order_calls; [| |done].
    + rewrite Hfresh. apply List.NoDup_nil.
    + rewrite Hfresh. intros id [].
  - intros id. rewrite In_run_order_calls, Hfresh. simpl. tauto.
Qed.

(** C2. ExpectedOrders is true exactly when the order collection is as long
    as Groups, and ExpectedLeases exactly when the lease collection is. *)
Theorem expected_iff_lengths (dd : DeploymentData) :
  (ExpectedOrders dd = true ↔ length (OrderID_of dd) = length (Groups dd))
  ∧ (ExpectedLeases dd = true ↔ length (LeaseID_of dd) = length (Groups dd)).
Proof.
  unfold ExpectedOrders, ExpectedLeases.
  split; rewrite Nat.eqb_eq; split; intros H; by symmetry.
Qed.

(** C4. RemoveOrder with an id that Equals finds in no element of the
    order collection leaves the collection, hence its size and contents,
    as it was, and so does RemoveLease on the lease collection. *)
Theorem remove_absent_is_noop (dd : DeploymentData) :
  (∀ order, existsb (OrderID_Equals order) (OrderID_of dd) = false →
     OrderID_of (RemoveOrder order dd) = OrderID_of dd
     ∧ length (OrderID_of (RemoveOrder order dd)) = length (OrderID_of dd)
     ∧ RemoveOrder order dd = dd)
  ∧ (∀ lease, existsb (LeaseID_Equals lease) (LeaseID_of dd) = false →
     LeaseID_of (RemoveLease lease dd) = LeaseID_of dd
     ∧ length (LeaseID_of (RemoveLease lease dd)) = length (LeaseID_of dd)
     ∧ RemoveLease lease dd = dd).
Proof.
  split.
  - intros order Habs.
    assert (RemoveOrder_loop order (OrderID_of dd) [] = OrderID_of dd) as Heq.
    { rewrite RemoveOrder_loop_filter. simpl. by apply filter_all_kept. }
    unfold RemoveOrder. simpl. rewrite !Heq. by rewrite set_OrderID_same.
  - intros lease Habs.
    assert (RemoveLease_loop lease (LeaseID_of dd) [] = LeaseID_of dd) as Heq.
    { rewrite RemoveLease_loop_filter. simpl. by apply filter_all_kept. }
    unfold RemoveLease. simpl. rewrite !Heq. by rewrite set_LeaseID_same.
Qed.

Lemma MsgCreate_loop_returns (st : GroupStore) (groups : list ptr)
    (msg : MsgCreateDeployment) (gs : list GroupSpec) :
  Forall2 (fun p g => deref st p = Some g) groups gs →
  MsgCreate_loop st groups msg
  = Returned {| msg_ID := msg_ID msg; msg_Groups := msg_Groups msg ++ gs;
                msg_Version := msg_Version msg |}.
Proof.
  intros H. revert msg. induction H as [|p g groups gs Hp _ IH]; intros msg; simpl.
  - rewrite app_nil_r. by destruct msg.
  - rewrite Hp, IH. simpl. by rewrite <- app_assoc.
Qed.

Lemma groups_not_nil_deref (st : GroupStore) (groups : list ptr) :
  forallb (fun p => match p with nilptr => false | addr _ => true end) groups = true →
  ∃ gs, Forall2 (fun p g => deref st p = Some g) groups gs.
Proof.
  induction groups as [|p groups IH]; simpl; intros H.
  - exists []. constructor.
  - apply andb_true_iff in H as [Hp Hrest]. destruct (IH Hrest) as [gs Hgs].
    destruct p as [|l]; [discriminate|].
    exists (st l :: gs). by constructor.
Qed.

(** The loop panics at the first nil pointer, whatever it has collected. *)
Lemma MsgCreate_loop_panics (st : GroupStore) (groups : list ptr) :
  forallb (fun p => match p with nilptr => false | addr _ => true end) groups = false →
  ∀ msg, MsgCreate_loop st groups msg = Panicked.
Proof.
  induction groups as [|p groups IH]; simpl; intros H msg; [discriminate|].
  destruct p as [|l]; simpl; [done|]. by apply IH.
Qed.

(** C5, as the code has it.  MsgCreate changes neither the tracker nor the
    stored groups, so a second call gives what the first gave.  When no
    stored group pointer is nil it returns a message whose ID is
    DeploymentID, whose Version is Version and whose Groups are the stored
    pointers dereferenced, one for one in the same order.  When a stored
    group pointer is nil the dereference panics and no message is
    returned. *)
Theorem MsgCreate_is_pure (st : GroupStore) (dd : DeploymentData) :
  snd (MsgCreate (st, dd)) = (st, dd)
  ∧ MsgCreate (snd (MsgCreate (st, dd))) = MsgCreate (st, dd)
  ∧ (groups_not_nil dd = true →
     ∃ msg, fst (MsgCreate (st, dd)) = Returned msg
            ∧ msg_ID msg = DeploymentID_of dd
            ∧ msg_Version msg = Version dd
            ∧ length (msg_Groups msg) = length (Groups dd)
            ∧ Forall2 (fun p g => deref st p = Some g) (Groups dd) (msg_Groups msg))
  ∧ (groups_not_nil dd = false → fst (MsgCreate (st, dd)) = Panicked).
Proof.
  split; [done|]. split; [done|]. split.
  - intros Hok. destruct (groups_not_nil_deref st (Groups dd) Hok) as [gs Hgs].
    exists {| msg_ID := DeploymentID_of dd; msg_Groups := gs; msg_Version := Version dd |}.
    simpl. rewrite (MsgCreate_loop_returns st _ _ gs Hgs). simpl.
    repeat split; [|done].
    symmetry. by eapply Forall2_length.
  - intros Hnil. simpl. by apply MsgCreate_loop_panics.
Qed.

(** With a nil pointer among the stored groups the dereference panics and
    no message is returned; the tracker is as it was. *)
Lemma MsgCreate_nil_group_panics (st : GroupStore) (dd : DeploymentData)
    (before after : list ptr) :
  Groups dd = before ++ nilptr :: after →
  forallb (fun p => match p with nilptr => false | addr _ => true end) before = true →
  MsgCreate (st, dd) = (Panicked, (st, dd)).
Proof.
  intros Hg Hbefore. unfold MsgCreate. rewrite Hg. f_equal.
  generalize {| msg_ID := DeploymentID_of dd; msg_Groups := []; msg_Version := Version dd |}.
  clear Hg. induction before as [|p before IH]; intros msg; simpl; [done|].
  simpl in Hbefore. apply andb_true_iff in Hbefore as [Hp Hbefore].
  destruct p as [|l]; [discriminate|]. simpl. by apply IH.
Qed.

(** C8. AddOrder and AddLease append whatever the collection holds: the
    length grows by one and the id occurs once more, so an id that was
    present is now repeated; and after the same order is added twice to a
    tracker of two groups and no orders, ExpectedOrders is true although
    one id only was added. *)
Theorem adds_keep_duplicates (dd : DeploymentData) :
  (∀ order,
     length (OrderID_of (AddOrder order dd)) = S (length (OrderID_of dd))
     ∧ length (List.filter (OrderID_Equals order) (OrderID_of (AddOrder order dd)))
       = S (length (List.filter (OrderID_Equals order) (OrderID_of dd)))
     ∧ (In order (OrderID_of dd) → ¬ List.NoDup (OrderID_of (AddOrder order dd))))
  ∧ (∀ lease,
     length (LeaseID_of (AddLease lease dd)) = S (length (LeaseID_of dd))
     ∧ length (List.filter (LeaseID_Equals lease) (LeaseID_of (AddLease lease dd)))
       = S (length (List.filter (LeaseID_Equals lease) (LeaseID_of dd)))
     ∧ (In lease (LeaseID_of dd) → ¬ List.NoDup (LeaseID_of (AddLease lease dd))))
  ∧ (∀ order,
     OrderID_of dd = [] → length (Groups dd) = 2%nat →
     ExpectedOrders (AddOrder order (AddOrder order dd)) = true
     ∧ ∀ id, In id (OrderID_of (AddOrder order (AddOrder order dd))) → id = order).
Proof.
  split; [|split].
  - intros order. split; [|split].
    + unfold AddOrder; simpl. rewrite length_app. simpl. lia.
    + unfold AddOrder; simpl. rewrite List.filter_app, length_app. simpl.
      rewrite OrderID_Equals_refl. simpl. lia.
    + intros Hin Hnd. unfold AddOrder in Hnd; simpl in Hnd.
      apply List.NoDup_remove_2 in Hnd. rewrite app_nil_r in Hnd. contradiction.
  - intros lease. split; [|split].
    + unfold AddLease; simpl. rewrite length_app. simpl. lia.
    + unfold AddLease; simpl. rewrite List.filter_app, length_app. simpl.
      rewrite LeaseID_Equals_refl. simpl. lia.
    + intros Hin Hnd. unfold AddLease in Hnd; simpl in Hnd.
      apply List.NoDup_remove_2 in Hnd. rewrite app_nil_r in Hnd. contradiction.
  - intros order Hfresh Hgroups. split.
    + unfold ExpectedOrders, AddOrder; simpl. by rewrite Hfresh, Hgroups.
    + unfold AddOrder; simpl. rewrite Hfresh. simpl.
      intros id [<-|[<-|[]]]; done.
Qed.

End TrackerFacts.

Lemma orders_are_added_not_removed_witness :
  OrderID_of sample_tracker = []
  ∧ no_duplicate_adds sample_order_calls = true
  ∧ List.NoDup (OrderID_of (run_order_calls sample_order_calls sample_tracker))
  ∧ (∀ id, In id (OrderID_of (run_order_calls sample_order_calls sample_tracker))
           ↔ added_not_removed id sample_order_calls = true).
Proof.
  split; [reflexivity|]. split; [vm_compute; reflexivity|].
  apply (orders_are_added_not_removed sample_order_calls sample_tracker);
    [reflexivity | vm_compute; reflexivity].
Defined.

Lemma remove_absent_is_noop_witness :
  let dd := AddLease (sample_lease 1) (AddOrder (sample_order 1) sample_tracker) in
  existsb (OrderID_Equals (sample_order 2)) (OrderID_of dd) = false
  ∧ existsb (LeaseID_Equals (sample_lease 2)) (LeaseID_of dd) = false
  ∧ RemoveOrder (sample_order 2) dd = dd
  ∧ RemoveLease (sample_lease 2) dd = dd.
Proof.
  intros dd.
  split; [vm_compute; reflexivity|]. split; [vm_compute; reflexivity|].
  destruct (remove_absent_is_noop dd) as [Ho Hl]. split.
  - apply (Ho (sample_order 2)). vm_compute; reflexivity.
  - apply (Hl (sample_lease 2)). vm_compute; reflexivity.
Defined.

Lemma MsgCreate_is_pure_witness :
  groups_not_nil sample_tracker = true
  ∧ ∃ msg, fst (MsgCreate (sample_store, sample_tracker)) = Returned msg
           ∧ msg_ID msg = DeploymentID_of sample_tracker
           ∧ length (msg_Groups msg) = 2%nat.
Proof.
  split; [reflexivity|].
  destruct (MsgCreate_is_pure sample_store sample_tracker) as (_ & _ & H & _).
  destruct (H eq_refl) as (msg & Hmsg & Hid & _ & Hlen & _).
  exists msg. split; [exact Hmsg|]. split; [exact Hid | exact Hlen].
Defined.

(** C5, the claim on a tracker whose second group pointer is nil: the call
    panics, so there is no message whose fields could be those of the
    stored state. *)
Lemma MsgCreate_panics_on_nil_group :
  fst (MsgCreate (sample_store, sample_nil_tracker)) = Panicked
  ∧ (∀ msg, fst (MsgCreate (sample_store, sample_nil_tracker)) ≠ Returned msg)
  ∧ length (Groups sample_nil_tracker) = 2%nat.
Proof.
  split; [reflexivity|]. split; [|reflexivity]. intros msg H. discriminate H.
Qed.

Lemma adds_keep_duplicates_witness :
  let dd := AddOrder (sample_order 1) sample_tracker in
  In (sample_order 1) (OrderID_of dd)
  ∧ ¬ List.NoDup (OrderID_of (AddOrder (sample_order 1) dd))
  ∧ ExpectedOrders (AddOrder (sample_order 1) (AddOrder (sample_order 1) sample_tracker)) = true.
Proof.
  intros dd. split; [left; reflexivity|]. split.
  - destruct (adds_keep_duplicates dd) as (Ho & _ & _).
    destruct (Ho (sample_order 1)) as (_ & _ & Hdup). apply Hdup. left; reflexivity.
  - destruct (adds_keep_duplicates sample_tracker) as (_ & _ & He).
    apply (He (sample_order 1)); reflexivity.
Defined.

(** ** Slices in memory: what a returned header keeps showing *)

Section SliceMemFacts.
Context `{RT : SliceRuntime}.

Lemma valid_length_view (h : SliceMem.Heap) (s : SliceMem.slice) :
  SliceMem.valid h s → length (SliceMem.view h s) = SliceMem.len s.
Proof.
  unfold SliceMem.valid, SliceMem.view, SliceMem.cells.
  destruct (SliceMem.base s) as [p|].
  - intros (arr & Harr & Hlen & Hle). rewrite Harr. simpl.
    rewrite length_take. lia.
  - intros [-> _]. done.
Qed.

Lemma valid_nil_slice (h : SliceMem.Heap) : SliceMem.valid h SliceMem.nil_slice.
Proof. by split. Qed.

Lemma outlives_nil_slice (h : SliceMem.Heap) (t : SliceMem.slice) :
  SliceMem.valid h t → SliceMem.outlives h SliceMem.nil_slice t.
Proof.
  intros Ht. split; [done|]. simpl. intros Hb.
  unfold SliceMem.valid in Ht. rewrite Hb in Ht. lia.
Qed.

Lemma outlives_self (h : SliceMem.Heap) (s : SliceMem.slice) :
  SliceMem.valid h s → SliceMem.outlives h s s.
Proof. intros Hs. split; [done|]. lia. Qed.

(** The array a new slice gets when [append] has to allocate. *)
Lemma append_alloc_spec (h : SliceMem.Heap) (s : SliceMem.slice) (x : LeaseID) :
  SliceMem.valid h s →
  let q := fresh (dom h) in
  let c := Nat.max (S (SliceMem.len s)) (growslice_cap (SliceMem.cap s)) in
  let h' := <[q := SliceMem.view h s ++ x :: replicate (c - S (SliceMem.len s)) zero_LeaseID]> h in
  let s' := SliceMem.mkSlice (Some q) (S (SliceMem.len s)) c in
  SliceMem.valid h' s' ∧ SliceMem.view h' s' = SliceMem.view h s ++ [x].
Proof.
  intros Hs q c h' s'. pose proof (valid_length_view h s Hs) as Hlen. split.
  - unfold SliceMem.valid; simpl. eexists. split; [apply lookup_insert_eq|].
    rewrite length_app, Hlen. simpl. rewrite length_replicate. lia.
  - unfold SliceMem.view at 1, SliceMem.cells; simpl.
    unfold h'. rewrite lookup_insert_eq. simpl.
    rewrite take_app, Hlen.
    replace (S (SliceMem.len s) - SliceMem.len s)%nat with 1%nat by lia.
    rewrite take_ge by lia. done.
Qed.

Lemma append_alloc_frame (h : SliceMem.Heap) (s t : SliceMem.slice) (arr : list LeaseID) :
  SliceMem.valid h t →
  let q := fresh (dom h) in
  let h' := <[q := arr]> h in
  SliceMem.valid h' t ∧ SliceMem.view h' t = SliceMem.view h t
  ∧ SliceMem.base t ≠ Some q.
Proof.
  intros Ht q h'.
  unfold SliceMem.valid, SliceMem.view, SliceMem.cells in *.
  destruct (SliceMem.base t) as [pt|]; [|done].
  destruct Ht as (a & Ha & Hlen & Hle).
  assert (pt ≠ q) as Hne.
  { intros ->. pose proof (is_fresh (dom h)) as Hf.
    apply not_elem_of_dom in Hf. unfold q in Ha. congruence. }
  unfold h'. rewrite lookup_insert_ne by done.
  split; [by exists a|]. split; [done | congruence].
Qed.

(** [append] gives a valid slice that shows the old elements and the new
    one. *)
Lemma append_spec (h : SliceMem.Heap) (s : SliceMem.slice) (x : LeaseID) :
  SliceMem.valid h s →
  SliceMem.valid (fst (SliceMem.append h s x)) (snd (SliceMem.append h s x))
  ∧ SliceMem.view (fst (SliceMem.append h s x)) (snd (SliceMem.append h s x))
    = SliceMem.view h s ++ [x].
Proof.
  intros Hs. unfold SliceMem.append.
  destruct (SliceMem.base s) as [p|] eqn:Hb; [|by apply append_alloc_spec].
  destruct (decide (SliceMem.len s < SliceMem.cap s)%nat) as [Hlt|_];
    [|by apply append_alloc_spec].
  simpl. unfold SliceMem.valid in Hs. rewrite Hb in Hs.
  destruct Hs as (arr & Harr & Hlen & Hle).
  assert (SliceMem.cells h s = arr) as Hcells.
  { unfold SliceMem.cells. by rewrite Hb, Harr. }
  rewrite Hcells. split.
  - unfold SliceMem.valid; simpl. eexists. split; [apply lookup_insert_eq|].
    rewrite length_insert. lia.
  - unfold SliceMem.view, SliceMem.cells; simpl. rewrite Hb, Harr. simpl.
    rewrite lookup_insert_eq. simpl.
    erewrite take_S_r; [|apply list_lookup_insert_eq; lia].
    by rewrite take_insert_ge.
Qed.

(** [append] to [s] changes nothing of what a header that outlives [s]
    shows, and the header outlives the result. *)
Lemma append_frame (h : SliceMem.Heap) (s t : SliceMem.slice) (x : LeaseID) :
  SliceMem.valid h s → SliceMem.outlives h s t →
  SliceMem.outlives (fst (SliceMem.append h s x)) (snd (SliceMem.append h s x)) t
  ∧ SliceMem.view (fst (SliceMem.append h s x)) t = SliceMem.view h t.
Proof.
  intros Hs [Ht Hle].
  assert (∀ arr c,
    let q := fresh (dom h) in
    SliceMem.outlives (<[q := arr]> h) (SliceMem.mkSlice (Some q) (S (SliceMem.len s)) c) t
    ∧ SliceMem.view (<[q := arr]> h) t = SliceMem.view h t) as Halloc.
  { intros arr c q. destruct (append_alloc_frame h s t arr Ht) as (Hv & Hview & Hne).
    split; [|done]. split; [done|]. simpl. intros Heq. contradiction. }
  unfold SliceMem.append.
  destruct (SliceMem.base s) as [p|] eqn:Hb; [|apply Halloc].
  destruct (decide (SliceMem.len s < SliceMem.cap s)%nat) as [Hlt|_]; [|apply Halloc].
  simpl. clear Halloc.
  unfold SliceMem.valid in Hs. rewrite Hb in Hs.
  destruct Hs as (arr & Harr & Hlen & Hcap).
  assert (SliceMem.cells h s = arr) as Hcells.
  { unfold SliceMem.cells. by rewrite Hb, Harr. }
  rewrite Hcells.
  unfold SliceMem.outlives, SliceMem.valid, SliceMem.view, SliceMem.cells in *. simpl.
  destruct (SliceMem.base t) as [pt|] eqn:Hbt; [|by split].
  destruct Ht as (a & Ha & Hlena & Hlea).
  destruct (decide (pt = p)) as [->|Hne].
  - rewrite lookup_insert_eq. simpl.
    assert (a = arr) as -> by congruence.
    specialize (Hle eq_refl). rewrite Ha. simpl. split; [split|].
    + eexists. split; [done|]. rewrite length_insert. done.
    + intros _. lia.
    + by rewrite take_insert_ge.
  - rewrite lookup_insert_ne by done. rewrite Ha. split; [split|]; [by exists a | | done].
    intros Heq. congruence.
Qed.

(** The loop of RemoveLease, started at index [k]: the slice [out] ends up
    showing what the list loop collects from the elements from [k] on, and
    headers that outlive [out] show what they showed. *)
Lemma RemoveLease_loop_mem (order : LeaseID) (s0 : SliceMem.slice) (n : nat) :
  ∀ (k : nat) (h : SliceMem.Heap) (out : SliceMem.slice),
  (k + n = SliceMem.len s0)%nat →
  SliceMem.valid h out → SliceMem.outlives h out s0 →
  let r := SliceMem.RemoveLease_loop order s0 (seq k n) (h, out) in
  SliceMem.valid (fst r) (snd r)
  ∧ SliceMem.view (fst r) (snd r)
    = RemoveLease_loop order (drop k (SliceMem.view h s0)) (SliceMem.view h out)
  ∧ ∀ t, SliceMem.outlives h out t →
         SliceMem.outlives (fst r) (snd r) t ∧ SliceMem.view (fst r) t = SliceMem.view h t.
Proof.
  induction n as [|n IH]; intros k h out Hk Hout Hs0; simpl.
  - rewrite drop_ge; [by simpl|].
    destruct Hs0 as [Hv _]. rewrite (valid_length_view h s0 Hv). lia.
  - destruct Hs0 as [Hv Hle].
    pose proof (valid_length_view h s0 Hv) as Hlen.
    destruct (SliceMem.view h s0 !! k) as [o|] eqn:Ho; cycle 1.
    { apply lookup_ge_None in Ho. lia. }
    assert (SliceMem.cells h s0 !! k = Some o) as Hcell.
    { unfold SliceMem.view in Ho. rewrite lookup_take_lt in Ho by lia. done. }
    rewrite Hcell. rewrite (drop_S _ o k Ho). simpl.
    destruct (negb (LeaseID_Equals order o)).
    + destruct (append_spec h out o Hout) as [Hv1 Hview1].
      destruct (append_frame h out s0 o Hout (conj Hv Hle)) as [Ho1 Hs1].
      destruct (IH (S k) _ _ ltac:(lia) Hv1 Ho1) as (Hr1 & Hr2 & Hr3).
      rewrite <- surjective_pairing in Hr1, Hr2, Hr3.
      split; [done|]. split.
      * rewrite Hr2, Hs1, Hview1. done.
      * intros t Ht. destruct (append_frame h out t o Hout Ht) as [Ht1 Hvt1].
        destruct (Hr3 t Ht1) as [Ht2 Hvt2]. split; [done|]. by rewrite Hvt2.
    + destruct (IH (S k) h out ltac:(lia) Hout (conj Hv Hle)) as (Hr1 & Hr2 & Hr3).
      done.
Qed.

(** One call: the tracker's slice stays valid and shows what the list
    model computes; a header that outlives it keeps what it shows. *)
Lemma do_lease_call_mem (c : LeaseCall) (h : SliceMem.Heap) (s t : SliceMem.slice)
    (dd : DeploymentData) :
  SliceMem.valid h s → SliceMem.outlives h s t →
  LeaseID_of dd = SliceMem.view h s →
  let r := SliceMem.do_lease_call (h, s) c in
  SliceMem.valid (fst r) (snd r)
  ∧ SliceMem.outlives (fst r) (snd r) t
  ∧ SliceMem.view (fst r) t = SliceMem.view h t
  ∧ LeaseID_of (do_lease_call dd c) = SliceMem.view (fst r) (snd r).
Proof.
  intros Hs Ht Hdd. destruct c as [x|x]; simpl.
  - unfold SliceMem.AddLease; simpl.
    destruct (append_spec h s x Hs) as [Hv Hview].
    destruct (append_frame h s t x Hs Ht) as [Ho Hvt].
    by rewrite Hdd, Hview.
  - unfold SliceMem.RemoveLease; simpl.
    destruct Ht as [Hvt Hle].
    destruct (RemoveLease_loop_mem x s (SliceMem.len s) 0 h SliceMem.nil_slice
                eq_refl (valid_nil_slice h) (outlives_nil_slice h s Hs))
      as (Hr1 & Hr2 & Hr3).
    destruct (Hr3 t (outlives_nil_slice h t Hvt)) as [Hr4 Hr5].
    split; [done|]. split; [done|]. split; [done|].
    rewrite Hr2, Hdd. done.
Qed.

Lemma run_lease_calls_mem (calls : list LeaseCall) :
  ∀ (h : SliceMem.Heap) (s t : SliceMem.slice) (dd : DeploymentData),
  SliceMem.valid h s → SliceMem.outlives h s t →
  LeaseID_of dd = SliceMem.view h s →
  let r := SliceMem.run_lease_calls calls (h, s) in
  SliceMem.valid (fst r) (snd r)
  ∧ SliceMem.view (fst r) t = SliceMem.view h t
  ∧ LeaseID_of (run_lease_calls calls dd) = SliceMem.view (fst r) (snd r).
Proof.
  induction calls as [|c calls IH]; intros h s t dd Hs Ht Hdd; simpl.
  - done.
  - destruct (do_lease_call_mem c h s t dd Hs Ht Hdd) as (H1 & H2 & H3 & H4).
    destruct (SliceMem.do_lease_call (h, s) c) as [h1 s1] eqn:Hc. simpl in *.
    destruct (IH h1 s1 t (do_lease_call dd c) H1 H2 H4) as (H5 & H6 & H7).
    split; [done|]. split; [|done]. by rewrite H6.
Qed.

(** C3. The header Leases returns keeps its length and keeps showing the
    same elements after any sequence of AddLease and RemoveLease calls on
    the tracker, from every state whose lease slice is valid. *)
Theorem Leases_snapshot_unchanged (h : SliceMem.Heap) (s : SliceMem.slice)
    (calls : list LeaseCall) :
  SliceMem.valid h s →
  let snapshot := SliceMem.Leases (h, s) in
  let after := SliceMem.run_lease_calls calls (h, s) in
  SliceMem.view (fst after) snapshot = SliceMem.view h snapshot
  ∧ length (SliceMem.view (fst after) snapshot) = length (SliceMem.view h snapshot).
Proof.
  intros Hs snapshot after.
  set (dd0 := {| SDLFile := []; SDL := None; Manifest := None; Groups := [];
                 DeploymentID_of := {| Owner := []; DSeq := 0 |};
                 OrderID_of := []; LeaseID_of := SliceMem.view h s; Version := [] |}).
  destruct (run_lease_calls_mem calls h s s dd0 Hs (outlives_self h s Hs) eq_refl)
    as (_ & Hview & _).
  unfold after, snapshot; simpl. by rewrite Hview.
Qed.

End SliceMemFacts.

(** ** The configuration and the transaction pipeline *)

Import Cfg.

Section PipelineFacts.
Context `{E : Env}.

Lemma add_events_nil (s : Cfg.Proc) : Cfg.add_events s [] = s.
Proof. destruct s. unfold Cfg.add_events. simpl. by rewrite app_nil_r. Qed.

Lemma add_events_app (s : Cfg.Proc) (a b : list Cfg.Event) :
  Cfg.add_events (Cfg.add_events s a) b = Cfg.add_events s (a ++ b).
Proof. unfold Cfg.add_events. simpl. by rewrite app_assoc. Qed.

(** The validation loop stops at the first message that fails. *)
Lemma SendMsgs_validate_stops (pre post : list Msg) (msg : Msg) (err : error) :
  ∀ s : Cfg.Proc,
  (∀ m, In m pre → msg_ValidateBasic m = None) →
  msg_ValidateBasic msg = Some err →
  Cfg.SendMsgs_validate (pre ++ msg :: post) s
  = (Returned (Some err),
     Cfg.add_events s (map Cfg.EvValidateBasic (pre ++ [msg]))).
Proof.
  induction pre as [|m pre IH]; intros s Hpre Hmsg; simpl.
  - unfold Cfg.bind, Cfg.emit. rewrite Hmsg. done.
  - unfold Cfg.bind, Cfg.emit. rewrite (Hpre m) by (by left).
    rewrite IH; [|intros m' Hm'; apply Hpre; by right|done].
    by rewrite add_events_app.
Qed.

Lemma SendMsgs_validate_passes (datagrams : list Msg) :
  ∀ s : Cfg.Proc,
  (∀ m, In m datagrams → msg_ValidateBasic m = None) →
  Cfg.SendMsgs_validate datagrams s
  = (Returned None, Cfg.add_events s (map Cfg.EvValidateBasic datagrams)).
Proof.
  induction datagrams as [|m l IH]; intros s Hall; simpl.
  - by rewrite add_events_nil.
  - unfold Cfg.bind, Cfg.emit. rewrite (Hall m) by (by left).
    rewrite IH; [|intros m' Hm'; apply Hall; by right].
    by rewrite add_events_app.
Qed.

(** Either every message validates or there is a first one that fails. *)
Lemma first_invalid (datagrams : list Msg) :
  (∀ m, In m datagrams → msg_ValidateBasic m = None)
  ∨ ∃ pre msg post err,
      datagrams = pre ++ msg :: post
      ∧ (∀ m, In m pre → msg_ValidateBasic m = None)
      ∧ msg_ValidateBasic msg = Some err.
Proof.
  induction datagrams as [|m l IH].
  - left. intros m [].
  - destruct (msg_ValidateBasic m) as [err|] eqn:Hm.
    + right. exists [], m, l, err. split; [done|]. split; [intros ? []|done].
    + destruct IH as [Hall|(pre & msg & post & err & -> & Hpre & Hmsg)].
      * left. intros m' [<-|Hin]; [done|by apply Hall].
      * right. exists (m :: pre), msg, post, err. split; [done|].
        split; [|done]. intros m' [<-|Hin]; [done|by apply Hpre].
Qed.


(** C7, as the code has it.  When the rpc address parses and the key file
    does not exist, validateConfig prints a warning that names the path and
    returns nil: the codec is set and no keybase is made.  initConfig,
    having read such a configuration from the configuration file, returns
    nil in that state, so the process does not exit. *)
Theorem validateConfig_missing_keyfile_warns :
  (∀ (s : Proc) (cl : Client),
     rpchttp_New (RPCAddr (config s)) "/websocket" = OK cl →
     os_IsNotExist (os_Stat (path_Join (homePath s) (Keyfile (config s)))) = true →
     validateConfig s = (Returned None, warned s)
     ∧ keybase (config (warned s)) = keybase (config s)
     ∧ events (warned s) = events s ++ [keyfile_warning s])
  ∧ (∀ (cmd : Command) (s0 : Proc) (home : string) (file : list Byte.byte)
       (c : Config) (cl : Client),
     cmd_GetString cmd FlagHome = OK home →
     os_Stat (path_Join home "config.yaml") = None →
     viper_ReadInConfig (path_Join home "config.yaml") = None →
     ioutil_ReadFile (path_Join home "config.yaml") = OK file →
     yaml_Unmarshal file zero_Config = (c, None) →
     rpchttp_New (RPCAddr c) "/websocket" = OK cl →
     os_IsNotExist (os_Stat (path_Join (homePath s0) (Keyfile c))) = true →
     initConfig cmd s0
     = (Returned None,
        warned {| config := c; cfgPath := path_Join home "config.yaml";
                  homePath := homePath s0; events := events s0 |})).
Proof.
  assert (∀ (s : Proc) (cl : Client),
     rpchttp_New (RPCAddr (config s)) "/websocket" = OK cl →
     os_IsNotExist (os_Stat (path_Join (homePath s) (Keyfile (config s)))) = true →
     validateConfig s = (Returned None, warned s)) as Hvalidate.
  { intros s cl Hrpc Hstat.
    unfold validateConfig, bind, get_config, put_config, get_homePath, emit, ret.
    simpl. rewrite Hrpc. simpl. rewrite Hstat. done. }
  split.
  - intros s cl Hrpc Hstat. split; [by eapply Hvalidate|]. done.
  - intros cmd s0 home file c cl Hhome Hcfg Hviper Hread Hyaml Hrpc Hstat.
    unfold initConfig. rewrite Hhome.
    unfold bind at 1 2 3, put_config, put_cfgPath, get_cfgPath. simpl.
    rewrite Hcfg, Hviper, Hread.
    unfold bind at 1, get_config. simpl. rewrite Hyaml.
    unfold bind at 1 2, put_config. simpl.
    erewrite Hvalidate; [done | exact Hrpc | exact Hstat].
Qed.

(** What BlockHeight returns: the latest height the node reports, as
    uint64. *)
Lemma BlockHeight_status (s : Proc) (cl : Client) :
  rpchttp_New (RPCAddr (config s)) "/websocket" = OK cl →
  BlockHeight s
  = (Returned match client_Status cl with
              | OK h => OK (uint64_of_int64 h)
              | Fail e => Fail e
              end,
     add_events s [EvStatus cl]).
Proof.
  intros Hrpc. unfold BlockHeight, NewTMClient, bind, get_config, emit, ret. simpl.
  rewrite Hrpc. simpl. by destruct (client_Status cl).
Qed.

(** A tracker that NewDeploymentData returns has no orders and no leases
    yet. *)
Lemma NewDeploymentData_starts_empty (file : string) (flags : FlagSet)
    (depAddr : AccAddress) (s s' : Proc) (dd : DeploymentData) :
  NewDeploymentData file flags depAddr s = (Returned (OK dd), s') →
  OrderID_of dd = [] ∧ LeaseID_of dd = [].
Proof.
  unfold NewDeploymentData. intros Hrun.
  destruct (ioutil_ReadFile file) as [f|]; [|by inversion Hrun].
  destruct (sdl_Read f) as [sdlSpec|]; [|by inversion Hrun].
  destruct (sdl_DeploymentGroups sdlSpec) as [groups|]; [|by inversion Hrun].
  destruct (sdl_Manifest sdlSpec) as [mani|]; [|by inversion Hrun].
  destruct (sdl_ManifestVersion mani) as [ver|]; [|by inversion Hrun].
  destruct (dcli_DeploymentIDFromFlags flags (addr_String depAddr)) as [id|];
    [|by inversion Hrun].
  destruct (Z.eqb (DSeq id) 0).
  - unfold bind in Hrun.
    destruct (BlockHeight s) as [[[h|e]| |] s1]; by inversion Hrun.
  - by inversion Hrun.
Qed.

(** C9. A tracker that NewDeploymentData returns carries the sequence
    number of the flags when that is not zero, and otherwise the height
    BlockHeight returns.  When the file cannot be read, when it does not
    parse (sdl.Read, or the groups, the manifest or its version), or when
    the sequence number is zero and BlockHeight returns an error,
    NewDeploymentData returns that error and no tracker. *)
Theorem NewDeploymentData_sequence (file : string) (flags : FlagSet)
    (depAddr : AccAddress) (s : Proc) :
  (∀ dd s',
     NewDeploymentData file flags depAddr s = (Returned (OK dd), s') →
     ∃ id, dcli_DeploymentIDFromFlags flags (addr_String depAddr) = OK id
           ∧ Owner (DeploymentID_of dd) = Owner id
           ∧ (DSeq id ≠ 0 → DSeq (DeploymentID_of dd) = DSeq id ∧ s' = s)
           ∧ (DSeq id = 0 →
              BlockHeight s = (Returned (OK (DSeq (DeploymentID_of dd))), s')))
  ∧ (∀ e, ioutil_ReadFile file = Fail e →
          NewDeploymentData file flags depAddr s = (Returned (Fail e), s))
  ∧ (∀ f e, ioutil_ReadFile file = OK f → sdl_Read f = Fail e →
            NewDeploymentData file flags depAddr s = (Returned (Fail e), s))
  ∧ (∀ f sdlSpec e, ioutil_ReadFile file = OK f → sdl_Read f = OK sdlSpec →
       (sdl_DeploymentGroups sdlSpec = Fail e
        ∨ (∃ groups, sdl_DeploymentGroups sdlSpec = OK groups
                     ∧ (sdl_Manifest sdlSpec = Fail e
                        ∨ ∃ mani, sdl_Manifest sdlSpec = OK mani
                                  ∧ sdl_ManifestVersion mani = Fail e))) →
       NewDeploymentData file flags depAddr s = (Returned (Fail e), s))
  ∧ (∀ f sdlSpec groups mani ver id e s',
       ioutil_ReadFile file = OK f → sdl_Read f = OK sdlSpec →
       sdl_DeploymentGroups sdlSpec = OK groups →
       sdl_Manifest sdlSpec = OK mani →
       sdl_ManifestVersion mani = OK ver →
       dcli_DeploymentIDFromFlags flags (addr_String depAddr) = OK id →
       DSeq id = 0 →
       BlockHeight s = (Returned (Fail e), s') →
       NewDeploymentData file flags depAddr s = (Returned (Fail e), s')).
Proof.
  split; [|split; [|split; [|split]]].
  - intros dd s' Hrun. unfold NewDeploymentData in Hrun.
    destruct (ioutil_ReadFile file) as [f|]; [|by inversion Hrun].
    destruct (sdl_Read f) as [sdlSpec|]; [|by inversion Hrun].
    destruct (sdl_DeploymentGroups sdlSpec) as [groups|]; [|by inversion Hrun].
    destruct (sdl_Manifest sdlSpec) as [mani|]; [|by inversion Hrun].
    destruct (sdl_ManifestVersion mani) as [ver|]; [|by inversion Hrun].
    destruct (dcli_DeploymentIDFromFlags flags (addr_String depAddr)) as [id|];
      [|by inversion Hrun].
    exists id. split; [done|].
    destruct (Z.eqb (DSeq id) 0) eqn:Hz.
    + apply Z.eqb_eq in Hz. unfold bind in Hrun.
      destruct (BlockHeight s) as [[[h|e]| |] s1] eqn:Hh; by inversion Hrun.
    + apply Z.eqb_neq in Hz. inversion Hrun; subst; simpl.
      split; [done|]. split; [done | intros ?; lia].
  - intros e Hread. unfold NewDeploymentData. by rewrite Hread.
  - intros f e Hread Hparse. unfold NewDeploymentData. by rewrite Hread, Hparse.
  - intros f sdlSpec e Hread Hparse Hfail. unfold NewDeploymentData.
    rewrite Hread, Hparse.
    destruct Hfail as [->|(groups & -> & [->|(mani & -> & ->)])]; done.
  - intros f sdlSpec groups mani ver id e s' Hread Hparse Hgroups Hmani Hver Hid Hz Hh.
    unfold NewDeploymentData.
    rewrite Hread, Hparse, Hgroups, Hmani, Hver, Hid, Hz. simpl.
    unfold bind. by rewrite Hh.
Qed.

End PipelineFacts.

(** ** The statements on the sample run *)

Section SampleRun.
#[local] Existing Instance Sample.chain.
#[local] Existing Instance Sample.libs.
#[local] Existing Instance Sample.env.
#[local] Existing Instance Sample.runtime.

Lemma sample_slice_valid : SliceMem.valid sample_heap sample_slice.
Proof.
  exists [sample_lease 1; sample_lease 2; zero_LeaseID; zero_LeaseID].
  split; [reflexivity|]. split; [reflexivity | simpl; lia].
Defined.

Lemma Leases_snapshot_unchanged_witness :
  SliceMem.valid sample_heap sample_slice
  ∧ SliceMem.view
      (fst (SliceMem.run_lease_calls sample_lease_calls (sample_heap, sample_slice)))
      (SliceMem.Leases (sample_heap, sample_slice))
    = [sample_lease 1; sample_lease 2].
Proof.
  split; [exact sample_slice_valid|].
  pose proof (Leases_snapshot_unchanged sample_heap sample_slice sample_lease_calls
                sample_slice_valid) as [H _].
  transitivity (SliceMem.view sample_heap (SliceMem.Leases (sample_heap, sample_slice)));
    [exact H | reflexivity].
Defined.

(** The first AddLease writes into the array the returned header points
    at, past the cells the header shows. *)
Example AddLease_shares_the_array :
  let snapshot := SliceMem.Leases (sample_heap, sample_slice) in
  let after := SliceMem.AddLease (sample_lease 3) (sample_heap, sample_slice) in
  SliceMem.base (snd after) = SliceMem.base snapshot
  ∧ SliceMem.cells (fst after) snapshot
    = [sample_lease 1; sample_lease 2; sample_lease 3; zero_LeaseID]
  ∧ SliceMem.view (fst after) snapshot = [sample_lease 1; sample_lease 2].
Proof. vm_compute. done. Qed.


Lemma validateConfig_missing_keyfile_warns_witness :
  os_IsNotExist (os_Stat (path_Join (homePath Sample.proc_loaded)
                            (Keyfile (config Sample.proc_loaded)))) = true
  ∧ validateConfig Sample.proc_loaded = (Returned None, warned Sample.proc_loaded)
  ∧ initConfig sample_command Sample.proc_start
    = (Returned None, warned Sample.proc_loaded).
Proof.
  split; [reflexivity|].
  destruct validateConfig_missing_keyfile_warns as [Hv Hi]. split.
  - destruct (Hv Sample.proc_loaded sample_client)
      as [H _]; [reflexivity | reflexivity | exact H].
  - apply (Hi sample_command Sample.proc_start "/home/akash"%string []
              (config Sample.proc_loaded) sample_client);
      reflexivity.
Defined.

(** C7, the claim on the sample run: the key file does not exist, yet
    validateConfig returns nil and initConfig returns nil instead of
    exiting, after one printed warning and with no keybase. *)
Lemma missing_keyfile_is_not_an_error :
  os_Stat "/home/akash/key.priv" = Some "no such file or directory"%string
  ∧ os_IsNotExist (os_Stat "/home/akash/key.priv") = true
  ∧ fst (validateConfig Sample.proc_loaded) = Returned None
  ∧ fst (initConfig sample_command Sample.proc_start) = Returned None
  ∧ fst (initConfig sample_command Sample.proc_start) ≠ Exited 1
  ∧ events (snd (initConfig sample_command Sample.proc_start))
    = [EvPrint ("Private key specified in the config file doesn't exist: "
                ++ "/home/akash/key.priv" ++ newline)]
  ∧ keybase (config (snd (initConfig sample_command Sample.proc_start))) = None.
Proof. vm_compute. repeat split; discriminate. Qed.

Lemma NewDeploymentData_sequence_witness :
  ∃ dd s',
    NewDeploymentData "deploy.yaml" (sample_flags 0) [] Sample.proc_loaded
    = (Returned (OK dd), s')
    ∧ BlockHeight Sample.proc_loaded = (Returned (OK (DSeq (DeploymentID_of dd))), s')
    ∧ DSeq (DeploymentID_of dd) = 1234.
Proof.
  destruct (NewDeploymentData "deploy.yaml" (sample_flags 0) [] Sample.proc_loaded)
    as [[[dd|e]| |] s'] eqn:Hrun; try (vm_compute in Hrun; discriminate).
  exists dd, s'. split; [reflexivity|].
  destruct (NewDeploymentData_sequence "deploy.yaml" (sample_flags 0) []
              Sample.proc_loaded) as [H _].
  destruct (H dd s' Hrun) as (id & Hid & _ & _ & Hzero).
  assert (DSeq id = 0) as Hz by (vm_compute in Hid; by inversion Hid).
  split; [exact (Hzero Hz)|].
  specialize (Hzero Hz). vm_compute in Hzero. by inversion Hzero.
Defined.

End SampleRun.

(** ** Callers under the write lock: no update is lost *)

Section LockedFacts.
Context `{CT : ChainTypes}.

Lemma map_insert {A B} (f : A → B) (l : list A) (i : nat) (x : A) :
  map f (<[i := x]> l) = <[i := f x]> (map f l).
Proof. exact (list_fmap_insert f l i x). Qed.

Lemma map_lookup {A B} (f : A → B) (l : list A) (i : nat) :
  map f l !! i = f <$> l !! i.
Proof. exact (list_lookup_fmap f l i). Qed.

Lemma do_lease_call_body (d : DeploymentData) (c : LeaseCall) :
  do_lease_call d c = set_LeaseID d (Locked.body c (LeaseID_of d)).
Proof. by destruct c. Qed.

Lemma run_lease_calls_snoc (calls : list LeaseCall) (c : LeaseCall) (d : DeploymentData) :
  run_lease_calls (calls ++ [c]) d = do_lease_call (run_lease_calls calls d) c.
Proof. unfold run_lease_calls. by rewrite fold_left_app. Qed.

Lemma consistent_start (d : DeploymentData) (programs : list (list LeaseCall)) :
  Locked.consistent d programs (Locked.start d programs).
Proof.
  unfold Locked.consistent, Locked.start; simpl. split; [|split; [|split]].
  - exists []. split; [done|]. intros calls. rewrite map_map. simpl.
    by rewrite map_id.
  - intros t c Hc Hph. rewrite map_lookup in Hc.
    destruct (programs !! t); inversion Hc; subst. done.
  - intros t c out Hc Hph. rewrite map_lookup in Hc.
    destruct (programs !! t); inversion Hc; subst. done.
  - intros t Ht. discriminate.
Qed.

Lemma remaining_insert_same (cs : list Locked.caller) (t : nat) (c c' : Locked.caller) :
  cs !! t = Some c → Locked.remaining_of c' = Locked.remaining_of c →
  map Locked.remaining_of (<[t := c']> cs) = map Locked.remaining_of cs.
Proof.
  intros Hc Heq. rewrite map_insert, Heq.
  apply list_insert_id. by rewrite map_lookup, Hc.
Qed.

Lemma lookup_insert_caller (cs : list Locked.caller) (t t' : nat) (c c' x : Locked.caller) :
  cs !! t = Some c → <[t := c']> cs !! t' = Some x →
  (t' = t ∧ x = c') ∨ (t' ≠ t ∧ cs !! t' = Some x).
Proof.
  intros Hc Hx. destruct (decide (t' = t)) as [->|Hne].
  - left. split; [done|]. rewrite list_lookup_insert_eq in Hx; [congruence|].
    by eapply lookup_lt_Some.
  - right. split; [done|]. by rewrite list_lookup_insert_ne in Hx.
Qed.

(** A statement of a caller keeps the world consistent. *)
Lemma consistent_step (d : DeploymentData) (programs : list (list LeaseCall))
    (t : nat) (w w' : Locked.world) :
  Locked.consistent d programs w → Locked.step t w = Some w' → Locked.consistent d programs w'.
Proof.
  intros (Hhist & Hlock & Hstore & Hwriter) Hstep. unfold Locked.step in Hstep.
  destruct (Locked.callers w !! t) as [c|] eqn:Hc; [|discriminate].
  destruct (Locked.todo c) as [|call rest] eqn:Htodo; [discriminate|].
  assert (∀ t' c', t' ≠ t → Locked.at_phase c ≠ Locked.AtLock →
            Locked.callers w !! t' = Some c' → Locked.at_phase c' = Locked.AtLock)
    as Hothers.
  { intros t' c' Hne Hph Hc'.
    destruct (Locked.at_phase c') eqn:Hph'; [done| | |];
      destruct (Hlock t c Hc Hph) as [Hw _];
      destruct (Hlock t' c' Hc') as [Hw' _]; rewrite ?Hph'; try done; congruence. }
  destruct (Locked.at_phase c) eqn:Hph.
  - (* dd.Lock() *)
    destruct (Locked.writer w) as [holder|] eqn:Hw; [discriminate|].
    inversion Hstep; subst w'; clear Hstep. unfold Locked.consistent; simpl.
    split; [|split; [|split]].
    + destruct Hhist as (hist & Hdd & Hil). exists hist. split; [done|].
      intros calls. rewrite (remaining_insert_same _ t c); [apply Hil|done|].
      unfold Locked.remaining_of. simpl. by rewrite Hph, Htodo.
    + intros t' c' Hc' Hph'.
      destruct (lookup_insert_caller _ _ _ _ _ _ Hc Hc') as [[-> ->]|[Hne Hold]]; [done|].
      destruct (Hlock t' c' Hold Hph') as [Hw' _]. congruence.
    + intros t' c' out Hc' Hph'.
      destruct (lookup_insert_caller _ _ _ _ _ _ Hc Hc') as [[-> ->]|[Hne Hold]];
        [discriminate|]. by apply (Hstore t').
    + intros t' [= <-]. eexists. split; [apply list_lookup_insert_eq|done].
      by eapply lookup_lt_Some.
  - (* the right-hand side is computed *)
    inversion Hstep; subst w'; clear Hstep. unfold Locked.consistent; simpl.
    destruct (Hlock t c Hc) as [Hw _]; [by rewrite Hph|].
    split; [|split; [|split]].
    + destruct Hhist as (hist & Hdd & Hil). exists hist. split; [done|].
      intros calls. rewrite (remaining_insert_same _ t c); [apply Hil|done|].
      unfold Locked.remaining_of. simpl. by rewrite Hph, Htodo.
    + intros t' c' Hc' Hph'.
      destruct (lookup_insert_caller _ _ _ _ _ _ Hc Hc') as [[-> ->]|[Hne Hold]]; [done|].
      by apply Hlock.
    + intros t' c' out Hc' Hph'.
      destruct (lookup_insert_caller _ _ _ _ _ _ Hc Hc') as [[-> ->]|[Hne Hold]].
      * simpl in *. inversion Hph'. by exists call, rest.
      * by apply (Hstore t').
    + intros t' Ht'. assert (t' = t) as -> by congruence.
      eexists. split; [apply list_lookup_insert_eq; by eapply lookup_lt_Some|done].
  - (* dd.LeaseID is stored *)
    inversion Hstep; subst w'; clear Hstep. unfold Locked.consistent; simpl.
    destruct (Hlock t c Hc) as [Hw _]; [by rewrite Hph|].
    destruct (Hstore t c out Hc Hph) as (call' & rest' & Htodo' & Hout).
    rewrite Htodo in Htodo'. inversion Htodo'; subst call' rest'; clear Htodo'.
    split; [|split; [|split]].
    + destruct Hhist as (hist & Hdd & Hil). exists (hist ++ [call]). split.
      * rewrite run_lease_calls_snoc, <- Hdd, do_lease_call_body. by rewrite Hout.
      * intros calls Hcalls. rewrite <- app_assoc. simpl. apply Hil.
        eapply (Locked.interleaving_next _ t call rest).
        { rewrite map_lookup, Hc. simpl. unfold Locked.remaining_of.
          by rewrite Hph, Htodo. }
        by rewrite map_insert in Hcalls.
    + intros t' c' Hc' Hph'.
      destruct (lookup_insert_caller _ _ _ _ _ _ Hc Hc') as [[-> ->]|[Hne Hold]]; [done|].
      by apply Hlock.
    + intros t' c' out' Hc' Hph'.
      destruct (lookup_insert_caller _ _ _ _ _ _ Hc Hc') as [[-> ->]|[Hne Hold]];
        [discriminate|].
      rewrite (Hothers t' c' Hne) in Hph'; [discriminate|done|done].
    + intros t' Ht'. assert (t' = t) as -> by congruence.
      eexists. split; [apply list_lookup_insert_eq; by eapply lookup_lt_Some|done].
  - (* dd.Unlock() *)
    inversion Hstep; subst w'; clear Hstep. unfold Locked.consistent; simpl.
    split; [|split; [|split]].
    + destruct Hhist as (hist & Hdd & Hil). exists hist. split; [done|].
      intros calls. rewrite (remaining_insert_same _ t c); [apply Hil|done|].
      unfold Locked.remaining_of. simpl. by rewrite Hph, Htodo.
    + intros t' c' Hc' Hph'.
      destruct (lookup_insert_caller _ _ _ _ _ _ Hc Hc') as [[-> ->]|[Hne Hold]]; [done|].
      rewrite (Hothers t' c' Hne) in Hph'; [done|done|done].
    + intros t' c' out' Hc' Hph'.
      destruct (lookup_insert_caller _ _ _ _ _ _ Hc Hc') as [[-> ->]|[Hne Hold]];
        [discriminate|].
      rewrite (Hothers t' c' Hne) in Hph'; [discriminate|done|done].
    + intros t' Ht'. discriminate.
Qed.

Lemma consistent_run (d : DeploymentData) (programs : list (list LeaseCall))
    (sched : list nat) :
  ∀ w w', Locked.consistent d programs w → Locked.run sched w = Some w' →
          Locked.consistent d programs w'.
Proof.
  induction sched as [|t sched IH]; intros w w' Hw Hrun; simpl in Hrun.
  - by inversion Hrun; subst.
  - destruct (Locked.step t w) as [w1|] eqn:Hstep; [|discriminate].
    eapply IH; [|exact Hrun]. by eapply consistent_step.
Qed.

(** No update is lost: when all callers have finished, the lock is free
    and the tracker is what their calls give when run one after another in
    an order that keeps the order of each caller. *)
Lemma locked_calls_serialize (d : DeploymentData) (programs : list (list LeaseCall))
    (sched : list nat) (w : Locked.world) :
  Locked.run sched (Locked.start d programs) = Some w →
  Locked.finished w = true →
  Locked.writer w = None
  ∧ ∃ calls, Locked.interleaving programs calls
             ∧ Locked.dd w = run_lease_calls calls d.
Proof.
  intros Hrun Hfin.
  pose proof (consistent_run d programs sched _ _ (consistent_start d programs) Hrun)
    as (Hhist & Hlock & _ & Hwriter).
  unfold Locked.finished in Hfin. rewrite forallb_forall in Hfin.
  assert (∀ t c, Locked.callers w !! t = Some c → Locked.todo c = []) as Hdone.
  { intros t c Hc. apply list_elem_of_lookup_2, list_elem_of_In in Hc.
    apply Hfin in Hc. by destruct (Locked.todo c). }
  split.
  - destruct (Locked.writer w) as [t|] eqn:Hw; [|done].
    destruct (Hwriter t eq_refl) as (c & Hc & Hph).
    destruct (Hlock t c Hc Hph) as [_ Hne]. by rewrite (Hdone t c Hc) in Hne.
  - destruct Hhist as (hist & Hdd & Hil). exists hist. split; [|done].
    rewrite <- (app_nil_r hist). apply Hil. apply Locked.interleaving_done.
    apply Forall_forall. intros p Hp. apply list_elem_of_In, in_map_iff in Hp.
    destruct Hp as (c & <- & Hc). apply list_elem_of_In, list_elem_of_lookup_1 in Hc.
    destruct Hc as [t Hc]. unfold Locked.remaining_of.
    rewrite (Hdone t c Hc). by destruct (Locked.at_phase c).
Qed.

Lemma existsb_LeaseID_Equals (x : LeaseID) (l : list LeaseID) :
  existsb (LeaseID_Equals x) l = true ↔ In x l.
Proof.
  rewrite existsb_exists. split.
  - intros (y & Hy & Heq). apply LeaseID_Equals_spec in Heq. by subst.
  - intros Hx. exists x. split; [done|]. apply LeaseID_Equals_refl.
Qed.

Lemma distinct_NoDup (l : list LeaseID) : Locked.distinct l = true ↔ List.NoDup l.
Proof.
  induction l as [|x l IH]; simpl.
  - split; [intros _; apply List.NoDup_nil | done].
  - rewrite andb_true_iff, negb_true_iff, IH, List.NoDup_cons_iff.
    rewrite <- existsb_LeaseID_Equals.
    destruct (existsb (LeaseID_Equals x) l); intuition congruence.
Qed.

Lemma concat_insert_Permutation {A} (ls : list (list A)) (t : nat) (x : A) (l : list A) :
  ls !! t = Some (x :: l) → Permutation (x :: concat (<[t := l]> ls)) (concat ls).
Proof.
  intros Ht.
  rewrite <- (take_drop_middle ls t (x :: l) Ht) at 2.
  rewrite insert_take_drop by (by eapply lookup_lt_Some).
  rewrite !concat_app. simpl. apply Permutation_middle.
Qed.

Lemma interleaving_Permutation (programs : list (list LeaseCall)) (calls : list LeaseCall) :
  Locked.interleaving programs calls → Permutation calls (concat programs).
Proof.
  induction 1 as [programs Hnil|programs t call rest calls Ht _ IH].
  - induction Hnil as [|p ps -> _ IH]; simpl; [done | exact IH].
  - rewrite <- (concat_insert_Permutation programs t call rest Ht).
    by apply Permutation_cons.
Qed.

Lemma removes_own_adds_mono (calls : list LeaseCall) :
  ∀ seen seen' : list LeaseID,
  (∀ x, In x seen → In x seen') →
  Locked.removes_own_adds seen calls = true → Locked.removes_own_adds seen' calls = true.
Proof.
  induction calls as [|[x|x] calls IH]; intros seen seen' Hsub; simpl; [done| |].
  - apply IH. intros y [<-|Hy]; [by left | right; by apply Hsub].
  - rewrite !andb_true_iff, !existsb_LeaseID_Equals. intros [Hx Hrest].
    split; [by apply Hsub | by eapply IH].
Qed.

Lemma interleaving_removes_own_adds (programs : list (list LeaseCall))
    (calls : list LeaseCall) :
  Locked.interleaving programs calls →
  ∀ seen, Forall (fun p => Locked.removes_own_adds seen p = true) programs →
          Locked.removes_own_adds seen calls = true.
Proof.
  induction 1 as [programs Hnil|programs t call rest calls Ht _ IH]; intros seen Hall.
  - done.
  - pose proof (Forall_lookup_1 _ _ _ _ Hall Ht) as Hp.
    destruct call as [x|x]; simpl in *.
    + apply IH. apply Forall_insert; [|done].
      eapply Forall_impl; [exact Hall|]. simpl. intros p.
      apply removes_own_adds_mono. intros y Hy. by right.
    + apply andb_true_iff in Hp as [Hx Hrest]. rewrite Hx. simpl.
      apply IH. by apply Forall_insert.
Qed.

Lemma filter_removed_length (x : LeaseID) (l : list LeaseID) :
  List.NoDup l → In x l →
  S (length (List.filter (fun o => negb (LeaseID_Equals x o)) l)) = length l.
Proof.
  induction l as [|y l IH]; intros Hnd Hin; [destruct Hin|].
  apply List.NoDup_cons_iff in Hnd as [Hy Hnd]. simpl.
  destruct (LeaseID_Equals x y) eqn:Heq; simpl.
  - apply LeaseID_Equals_spec in Heq. subst y.
    rewrite <- existsb_LeaseID_Equals in Hy.
    rewrite filter_all_kept; [done|]. by destruct (existsb (LeaseID_Equals x) l).
  - f_equal. apply IH; [done|]. destruct Hin as [->|Hin]; [|done].
    by rewrite LeaseID_Equals_refl in Heq.
Qed.

(** Calls run one after another, where [seen] holds the ids tracked at the
    start or added since and [gone] those removed since: when adds and
    removes do not repeat and removes target seen ids, each add makes the
    collection one longer and each remove one shorter. *)
Lemma sequential_cardinality (calls : list LeaseCall) :
  ∀ (d : DeploymentData) (seen gone : list LeaseID),
  List.NoDup (LeaseID_of d) →
  (∀ x, In x (LeaseID_of d) ↔ In x seen ∧ ¬ In x gone) →
  (∀ x, In x gone → In x seen) →
  (length (LeaseID_of d) + length gone = length seen)%nat →
  List.NoDup (seen ++ Locked.added_ids calls) →
  List.NoDup (gone ++ Locked.removed_ids calls) →
  Locked.removes_own_adds seen calls = true →
  (length (LeaseID_of (run_lease_calls calls d)) + length gone
   + length (Locked.removed_ids calls)
   = length seen + length (Locked.added_ids calls))%nat.
Proof.
  induction calls as [|[x|x] calls IH]; intros d seen gone Hnd Hmem Hsub Hlen Hadds Hrems Hown.
  - simpl. lia.
  - change (run_lease_calls (CallAddLease x :: calls) d)
      with (run_lease_calls calls (AddLease x d)).
    change (Locked.added_ids (CallAddLease x :: calls)) with (x :: Locked.added_ids calls) in *.
    change (Locked.removed_ids (CallAddLease x :: calls)) with (Locked.removed_ids calls) in *.
    pose proof (List.NoDup_remove_1 _ _ _ Hadds) as Hadds1.
    pose proof (List.NoDup_remove_2 _ _ _ Hadds) as Hadds2.
    assert (¬ In x seen) as Hx by (intros ?; apply Hadds2, in_or_app; by left).
    specialize (IH (AddLease x d) (x :: seen) gone). simpl in IH.
    rewrite length_app in IH. simpl in IH. simpl.
    enough (length (LeaseID_of (run_lease_calls calls (AddLease x d))) + length gone
            + length (Locked.removed_ids calls)
            = S (length seen + length (Locked.added_ids calls)))%nat by lia.
    apply IH; [| | |lia| |done|done].
    + apply List.NoDup_app; [done | apply List.NoDup_cons; [intros []|apply List.NoDup_nil]|].
      intros a Ha [<-|[]]. apply Hmem in Ha as [Ha _]. contradiction.
    + intros y. rewrite in_app_iff, Hmem. simpl. split.
      * intros [[Hy Hg]|[<-|[]]]; [tauto|]. split; [by left|].
        intros Hg. apply Hx. by apply Hsub.
      * intros [[<-|Hy] Hg]; [right; by left | left; tauto].
    + intros y Hy. right. by apply Hsub.
    + apply List.NoDup_cons; [done|done].
  - change (run_lease_calls (CallRemoveLease x :: calls) d)
      with (run_lease_calls calls (RemoveLease x d)).
    change (Locked.added_ids (CallRemoveLease x :: calls)) with (Locked.added_ids calls) in *.
    change (Locked.removed_ids (CallRemoveLease x :: calls))
      with (x :: Locked.removed_ids calls) in *.
    simpl in Hown. apply andb_true_iff in Hown as [Hseen Hown].
    apply existsb_LeaseID_Equals in Hseen.
    pose proof (List.NoDup_remove_1 _ _ _ Hrems) as Hrems1.
    pose proof (List.NoDup_remove_2 _ _ _ Hrems) as Hrems2.
    assert (¬ In x gone) as Hx by (intros ?; apply Hrems2, in_or_app; by left).
    assert (In x (LeaseID_of d)) as Hin by (by apply Hmem).
    assert (LeaseID_of (RemoveLease x d)
            = List.filter (fun o => negb (LeaseID_Equals x o)) (LeaseID_of d)) as Hrm.
    { unfold RemoveLease. simpl. by rewrite RemoveLease_loop_filter. }
    pose proof (filter_removed_length x (LeaseID_of d) Hnd Hin) as Hlen'.
    enough (length (LeaseID_of (run_lease_calls calls (RemoveLease x d)))
            + length (x :: gone) + length (Locked.removed_ids calls)
            = length seen + length (Locked.added_ids calls))%nat
      by (simpl in *; lia).
    apply IH; [| | | |done| |done].
    + rewrite Hrm. by apply List.NoDup_filter.
    + intros y. rewrite Hrm, filter_In, Hmem, negb_true_iff, LeaseID_Equals_false.
      simpl. split; [intros [[Hy Hg] Hne]|intros [Hy Hg]].
      * split; [done|]. intros [->|?]; tauto.
      * split; [split; [done|tauto]|]. intros ->. tauto.
    + intros y [<-|Hy]; [done|by apply Hsub].
    + rewrite Hrm. simpl. lia.
    + simpl. apply List.NoDup_cons; [done|done].
Qed.

(** A caller that removes only ids it has seen removes ids that were seen
    at the start or that it adds. *)
Lemma removes_own_adds_removed (calls : list LeaseCall) :
  ∀ seen, Locked.removes_own_adds seen calls = true →
  ∀ x, In x (Locked.removed_ids calls) → In x seen ∨ In x (Locked.added_ids calls).
Proof.
  induction calls as [|[y|y] calls IH]; intros seen Hown x Hx.
  - destruct Hx.
  - change (Locked.added_ids (CallAddLease y :: calls)) with (y :: Locked.added_ids calls).
    change (Locked.removed_ids (CallAddLease y :: calls)) with (Locked.removed_ids calls) in Hx.
    simpl in Hown. destruct (IH (y :: seen) Hown x Hx) as [[<-|Hs]|Ha].
    + right. by left.
    + by left.
    + right. by right.
  - change (Locked.added_ids (CallRemoveLease y :: calls)) with (Locked.added_ids calls).
    change (Locked.removed_ids (CallRemoveLease y :: calls))
      with (y :: Locked.removed_ids calls) in Hx.
    simpl in Hown. apply andb_true_iff in Hown as [Hseen Hown].
    destruct Hx as [<-|Hx].
    + left. by apply existsb_LeaseID_Equals.
    + by apply (IH seen).
Qed.

(** Ids at the front of the collection that no call removes stay at its
    front: the calls work on what follows them. *)
Lemma run_lease_calls_keeps_front (calls : list LeaseCall) :
  ∀ (d : DeploymentData) (front l : list LeaseID),
  LeaseID_of d = front ++ l →
  (∀ x, In x (Locked.removed_ids calls) → ¬ In x front) →
  LeaseID_of (run_lease_calls calls d)
  = front ++ LeaseID_of (run_lease_calls calls (set_LeaseID d l)).
Proof.
  induction calls as [|[x|x] calls IH]; intros d front l Hd Hrem.
  - done.
  - change (run_lease_calls (CallAddLease x :: calls) d)
      with (run_lease_calls calls (AddLease x d)).
    rewrite (IH (AddLease x d) front (l ++ [x])); [done| |done].
    simpl. by rewrite Hd, app_assoc.
  - change (run_lease_calls (CallRemoveLease x :: calls) d)
      with (run_lease_calls calls (RemoveLease x d)).
    change (Locked.removed_ids (CallRemoveLease x :: calls))
      with (x :: Locked.removed_ids calls) in Hrem.
    assert (existsb (LeaseID_Equals x) front = false) as Hx.
    { destruct (existsb (LeaseID_Equals x) front) eqn:He; [|done].
      apply existsb_LeaseID_Equals in He. destruct (Hrem x); [by left | done]. }
    rewrite (IH (RemoveLease x d) front
               (List.filter (fun o => negb (LeaseID_Equals x o)) l)).
    + change (run_lease_calls (CallRemoveLease x :: calls) (set_LeaseID d l))
        with (run_lease_calls calls (RemoveLease x (set_LeaseID d l))).
      unfold RemoveLease, set_LeaseID. simpl. rewrite !RemoveLease_loop_filter. reflexivity.
    + simpl. rewrite RemoveLease_loop_filter, Hd. simpl.
      by rewrite List.filter_app, filter_all_kept.
    + intros y Hy. apply Hrem. by right.
Qed.

(** C10, as the code has it.  Callers that run AddLease and RemoveLease
    under the write lock, their statements interleaved by any schedule,
    lose no update: when all have finished the lock is free and the
    tracker is what their calls give when run one after another in an order
    that keeps the order of each caller.  When moreover the ids added
    differ from each other and from those tracked at the start, no id is
    removed twice and each caller removes only ids it added before, the
    final number of leases is the number at the start plus the adds minus
    the removes. *)
Theorem locked_lease_calls_cardinality (d : DeploymentData)
    (programs : list (list LeaseCall)) (sched : list nat) (w : Locked.world) :
  Locked.run sched (Locked.start d programs) = Some w →
  Locked.finished w = true →
  Locked.writer w = None
  ∧ (∃ calls, Locked.interleaving programs calls
              ∧ Locked.dd w = run_lease_calls calls d)
  ∧ (Locked.distinct (Locked.added_ids (concat programs)) = true →
     forallb (fun x => negb (existsb (LeaseID_Equals x) (LeaseID_of d)))
       (Locked.added_ids (concat programs)) = true →
     Locked.distinct (Locked.removed_ids (concat programs)) = true →
     forallb (Locked.removes_own_adds []) programs = true →
     (length (LeaseID_of (Locked.dd w)) + length (Locked.removed_ids (concat programs))
      = length (LeaseID_of d) + length (Locked.added_ids (concat programs)))%nat).
Proof.
  intros Hrun Hfin.
  destruct (locked_calls_serialize d programs sched w Hrun Hfin)
    as (Hw & calls & Hil & Hdd).
  split; [done|]. split; [by exists calls|].
  intros Hadds Hnew Hrems Hown.
  apply distinct_NoDup in Hadds. apply distinct_NoDup in Hrems.
  rewrite forallb_forall in Hnew.
  pose proof (interleaving_Permutation programs calls Hil) as Hperm.
  assert (Permutation (Locked.added_ids calls) (Locked.added_ids (concat programs)))
    as Hpa by (unfold Locked.added_ids; by rewrite Hperm).
  assert (Permutation (Locked.removed_ids calls) (Locked.removed_ids (concat programs)))
    as Hpr by (unfold Locked.removed_ids; by rewrite Hperm).
  assert (Locked.removes_own_adds [] calls = true) as Hcalls.
  { apply (interleaving_removes_own_adds programs); [done|].
    rewrite forallb_forall in Hown. apply Forall_forall. intros p Hp.
    apply list_elem_of_In in Hp. by apply Hown. }
  assert (∀ x, In x (Locked.removed_ids calls) → ¬ In x (LeaseID_of d)) as Hkept.
  { intros x Hx Hstart.
    destruct (removes_own_adds_removed calls [] Hcalls x Hx) as [[]|Ha].
    apply (Permutation_in _ Hpa), Hnew, negb_true_iff in Ha.
    apply existsb_LeaseID_Equals in Hstart. congruence. }
  rewrite <- (Permutation_length Hpa), <- (Permutation_length Hpr), Hdd.
  rewrite (run_lease_calls_keeps_front calls d (LeaseID_of d) []);
    [|by rewrite app_nil_r|done].
  rewrite length_app.
  pose proof (sequential_cardinality calls (set_LeaseID d []) [] []) as Hcard.
  simpl in Hcard.
  enough (length (LeaseID_of (run_lease_calls calls (set_LeaseID d []))) + 0
          + length (Locked.removed_ids calls)
          = length (Locked.added_ids calls))%nat by lia.
  apply Hcard.
  - apply List.NoDup_nil.
  - intros x. tauto.
  - intros x [].
  - lia.
  - eapply Permutation_NoDup; [|exact Hadds]. by symmetry.
  - eapply Permutation_NoDup; [|exact Hrems]. by symmetry.
  - done.
Qed.

End LockedFacts.

(** ** The callers on the sample run *)

Section SampleCallers.
#[local] Existing Instance Sample.chain.

Lemma locked_lease_calls_cardinality_witness :
  ∃ w, Locked.run sample_schedule_twice
         (Locked.start sample_tracker_twice sample_programs_twice) = Some w
       ∧ Locked.finished w = true
       ∧ Locked.writer w = None
       ∧ Locked.distinct (Locked.added_ids (concat sample_programs_twice)) = true
       ∧ forallb (fun x => negb (existsb (LeaseID_Equals x) (LeaseID_of sample_tracker_twice)))
           (Locked.added_ids (concat sample_programs_twice)) = true
       ∧ Locked.distinct (Locked.removed_ids (concat sample_programs_twice)) = true
       ∧ forallb (Locked.removes_own_adds []) sample_programs_twice = true
       ∧ length (LeaseID_of sample_tracker_twice) = 2%nat
       ∧ length (LeaseID_of (Locked.dd w)) = 3%nat.
Proof.
  destruct (Locked.run sample_schedule_twice
              (Locked.start sample_tracker_twice sample_programs_twice))
    as [w|] eqn:Hrun; [|vm_compute in Hrun; discriminate].
  exists w. split; [reflexivity|].
  assert (Locked.finished w = true) as Hfin.
  { vm_compute in Hrun. inversion Hrun. reflexivity. }
  split; [exact Hfin|].
  destruct (locked_lease_calls_cardinality sample_tracker_twice sample_programs_twice
              sample_schedule_twice w Hrun Hfin)
    as (Hw & _ & Hcard).
  split; [exact Hw|].
  split; [vm_compute; reflexivity|]. split; [vm_compute; reflexivity|].
  split; [vm_compute; reflexivity|]. split; [vm_compute; reflexivity|].
  split; [reflexivity|].
  assert (length (Locked.removed_ids (concat sample_programs_twice)) = 1%nat) as Hr
    by (vm_compute; reflexivity).
  assert (length (Locked.added_ids (concat sample_programs_twice)) = 2%nat) as Ha
    by (vm_compute; reflexivity).
  assert (length (LeaseID_of sample_tracker_twice) = 2%nat) as H0 by reflexivity.
  specialize (Hcard ltac:(vm_compute; reflexivity) ltac:(vm_compute; reflexivity)
                ltac:(vm_compute; reflexivity) ltac:(vm_compute; reflexivity)).
  rewrite Hr, Ha, H0 in Hcard. lia.
Defined.

(** C10, the claim on two runs.  A caller that removes a lease that is not
    tracked leaves no lease where adds minus removes is -1; and when the
    caller that removes a lease takes the lock before the caller that adds
    it, one lease is left where adds minus removes is 0. *)
Lemma cardinality_is_not_adds_minus_removes :
  (∃ w, Locked.run [0; 0; 0; 0]%nat
          (Locked.start sample_tracker [[CallRemoveLease (sample_lease 1)]]) = Some w
        ∧ Locked.finished w = true
        ∧ Z.of_nat (length (LeaseID_of (Locked.dd w))) = 0
        ∧ Z.of_nat (length (Locked.added_ids [CallRemoveLease (sample_lease 1)]))
          - Z.of_nat (length (Locked.removed_ids [CallRemoveLease (sample_lease 1)]))
          = -1)
  ∧ (∃ w, Locked.run [1; 1; 1; 1; 0; 0; 0; 0]%nat
            (Locked.start sample_tracker
               [[CallAddLease (sample_lease 1)]; [CallRemoveLease (sample_lease 1)]])
          = Some w
          ∧ Locked.finished w = true
          ∧ Z.of_nat (length (LeaseID_of (Locked.dd w))) = 1
          ∧ Z.of_nat (length (Locked.added_ids
                                [CallAddLease (sample_lease 1); CallRemoveLease (sample_lease 1)]))
            - Z.of_nat (length (Locked.removed_ids
                                  [CallAddLease (sample_lease 1); CallRemoveLease (sample_lease 1)]))
            = 0).
Proof.
  split.
  - eexists. split; [vm_compute; reflexivity|]. vm_compute. done.
  - eexists. split; [vm_compute; reflexivity|]. vm_compute. done.
Qed.

End SampleCallers.

(** * Further properties *)

(** ** The tracker: removal, round trips and what calls leave alone *)

Section TrackerMore.
Context `{CT : ChainTypes}.

Lemma filter_split_length {A} (f : A → bool) (l : list A) :
  (length (List.filter (fun a => negb (f a)) l) + length (List.filter f l)
   = length l)%nat.
Proof.
  induction l as [|a l IH]; simpl; [done|].
  destruct (f a); simpl; lia.
Qed.

Lemma filter_sublist {A} (f : A → bool) (l : list A) : sublist (List.filter f l) l.
Proof.
  induction l as [|a l IH]; simpl; [constructor|].
  destruct (f a); by constructor.
Qed.

Lemma filter_filter_comm {A} (f g : A → bool) (l : list A) :
  List.filter f (List.filter g l) = List.filter g (List.filter f l).
Proof.
  induction l as [|a l IH]; simpl; [done|].
  destruct (f a) eqn:Hf, (g a) eqn:Hg; simpl; rewrite ?Hf, ?Hg, IH; done.
Qed.

Lemma filter_filter_same {A} (f : A → bool) (l : list A) :
  List.filter f (List.filter f l) = List.filter f l.
Proof.
  induction l as [|a l IH]; simpl; [done|].
  destruct (f a) eqn:Hf; simpl; rewrite ?Hf, IH; done.
Qed.

Lemma OrderID_of_RemoveOrder (order : OrderID) (dd : DeploymentData) :
  OrderID_of (RemoveOrder order dd)
  = List.filter (fun o => negb (OrderID_Equals order o)) (OrderID_of dd).
Proof. unfold RemoveOrder. simpl. by rewrite RemoveOrder_loop_filter. Qed.

Lemma LeaseID_of_RemoveLease (lease : LeaseID) (dd : DeploymentData) :
  LeaseID_of (RemoveLease lease dd)
  = List.filter (fun o => negb (LeaseID_Equals lease o)) (LeaseID_of dd).
Proof. unfold RemoveLease. simpl. by rewrite RemoveLease_loop_filter. Qed.

Lemma RemoveOrder_as_filter (order : OrderID) (dd : DeploymentData) :
  RemoveOrder order dd
  = set_OrderID dd (List.filter (fun o => negb (OrderID_Equals order o)) (OrderID_of dd)).
Proof. unfold RemoveOrder. by rewrite RemoveOrder_loop_filter. Qed.

Lemma RemoveLease_as_filter (lease : LeaseID) (dd : DeploymentData) :
  RemoveLease lease dd
  = set_LeaseID dd (List.filter (fun o => negb (LeaseID_Equals lease o)) (LeaseID_of dd)).
Proof. unfold RemoveLease. by rewrite RemoveLease_loop_filter. Qed.

(** X1. RemoveOrder drops every occurrence of the id, also of an id that
    was added more than once, and keeps the other ids in their order: the
    collection gets shorter by the number of occurrences.  RemoveLease
    does the same to the leases. *)
Theorem remove_drops_every_occurrence (dd : DeploymentData) :
  (∀ order,
     ¬ In order (OrderID_of (RemoveOrder order dd))
     ∧ (∀ id, id ≠ order →
          List.filter (OrderID_Equals id) (OrderID_of (RemoveOrder order dd))
          = List.filter (OrderID_Equals id) (OrderID_of dd))
     ∧ sublist (OrderID_of (RemoveOrder order dd)) (OrderID_of dd)
     ∧ (length (OrderID_of (RemoveOrder order dd))
        + length (List.filter (OrderID_Equals order) (OrderID_of dd))
        = length (OrderID_of dd))%nat)
  ∧ (∀ lease,
     ¬ In lease (LeaseID_of (RemoveLease lease dd))
     ∧ (∀ id, id ≠ lease →
          List.filter (LeaseID_Equals id) (LeaseID_of (RemoveLease lease dd))
          = List.filter (LeaseID_Equals id) (LeaseID_of dd))
     ∧ sublist (LeaseID_of (RemoveLease lease dd)) (LeaseID_of dd)
     ∧ (length (LeaseID_of (RemoveLease lease dd))
        + length (List.filter (LeaseID_Equals lease) (LeaseID_of dd))
        = length (LeaseID_of dd))%nat).
Proof.
  split.
  - intros order. rewrite OrderID_of_RemoveOrder. split; [|split; [|split]].
    + rewrite filter_In, negb_true_iff, OrderID_Equals_false. tauto.
    + intros id Hne. rewrite filter_filter_comm.
      induction (OrderID_of dd) as [|o l IH]; simpl; [done|].
      destruct (OrderID_Equals id o) eqn:Hid; simpl; [|done].
      apply OrderID_Equals_spec in Hid. subst o.
      assert (OrderID_Equals order id = false) as -> by (apply OrderID_Equals_false; congruence).
      simpl. by rewrite IH.
    + apply filter_sublist.
    + apply filter_split_length.
  - intros lease. rewrite LeaseID_of_RemoveLease. split; [|split; [|split]].
    + rewrite filter_In, negb_true_iff, LeaseID_Equals_false. tauto.
    + intros id Hne. rewrite filter_filter_comm.
      induction (LeaseID_of dd) as [|o l IH]; simpl; [done|].
      destruct (LeaseID_Equals id o) eqn:Hid; simpl; [|done].
      apply LeaseID_Equals_spec in Hid. subst o.
      assert (LeaseID_Equals lease id = false) as -> by (apply LeaseID_Equals_false; congruence).
      simpl. by rewrite IH.
    + apply filter_sublist.
    + apply filter_split_length.
Qed.

(** X2. Removing the same id twice is removing it once, and two removals
    give the same tracker in either order, for orders and for leases. *)
Theorem removes_are_idempotent_and_commute (dd : DeploymentData) :
  (∀ x y : OrderID,
     RemoveOrder x (RemoveOrder x dd) = RemoveOrder x dd
     ∧ RemoveOrder x (RemoveOrder y dd) = RemoveOrder y (RemoveOrder x dd))
  ∧ (∀ x y : LeaseID,
     RemoveLease x (RemoveLease x dd) = RemoveLease x dd
     ∧ RemoveLease x (RemoveLease y dd) = RemoveLease y (RemoveLease x dd)).
Proof.
  split; intros x y; split.
  - rewrite (RemoveOrder_as_filter x (RemoveOrder x dd)), OrderID_of_RemoveOrder.
    rewrite filter_filter_same, (RemoveOrder_as_filter x dd). by destruct dd.
  - rewrite (RemoveOrder_as_filter x (RemoveOrder y dd)),
      (RemoveOrder_as_filter y (RemoveOrder x dd)), !OrderID_of_RemoveOrder.
    rewrite filter_filter_comm, (RemoveOrder_as_filter x dd), (RemoveOrder_as_filter y dd).
    by destruct dd.
  - rewrite (RemoveLease_as_filter x (RemoveLease x dd)), LeaseID_of_RemoveLease.
    rewrite filter_filter_same, (RemoveLease_as_filter x dd). by destruct dd.
  - rewrite (RemoveLease_as_filter x (RemoveLease y dd)),
      (RemoveLease_as_filter y (RemoveLease x dd)), !LeaseID_of_RemoveLease.
    rewrite filter_filter_comm, (RemoveLease_as_filter x dd), (RemoveLease_as_filter y dd).
    by destruct dd.
Qed.

Lemma run_order_calls_frame (calls : list OrderCall) :
  ∀ dd, set_OrderID (run_order_calls calls dd) (OrderID_of dd) = dd.
Proof.
  induction calls as [|c calls IH]; intros dd; simpl.
  - apply set_OrderID_same.
  - fold (run_order_calls calls (do_order_call dd c)).
    specialize (IH (do_order_call dd c)).
    destruct (run_order_calls calls (do_order_call dd c)) as [a1 a2 a3 a4 a5 a6 a7 a8].
    destruct c, dd; unfold set_OrderID in *; simpl in *; by inversion IH.
Qed.

Lemma run_lease_calls_frame (calls : list LeaseCall) :
  ∀ dd, set_LeaseID (run_lease_calls calls dd) (LeaseID_of dd) = dd.
Proof.
  induction calls as [|c calls IH]; intros dd; simpl.
  - apply set_LeaseID_same.
  - fold (run_lease_calls calls (do_lease_call dd c)).
    specialize (IH (do_lease_call dd c)).
    destruct (run_lease_calls calls (do_lease_call dd c)) as [a1 a2 a3 a4 a5 a6 a7 a8].
    destruct c, dd; unfold set_LeaseID in *; simpl in *; by inversion IH.
Qed.

Lemma order_lease_call_comm (dd : DeploymentData) (oc : OrderCall) (lc : LeaseCall) :
  do_lease_call (do_order_call dd oc) lc = do_order_call (do_lease_call dd lc) oc.
Proof. by destruct oc, lc. Qed.

Lemma run_lease_calls_order_call (lcalls : list LeaseCall) (oc : OrderCall) :
  ∀ dd, run_lease_calls lcalls (do_order_call dd oc)
        = do_order_call (run_lease_calls lcalls dd) oc.
Proof.
  induction lcalls as [|lc lcalls IH]; intros dd; simpl; [done|].
  fold (run_lease_calls lcalls (do_lease_call (do_order_call dd oc) lc)).
  fold (run_lease_calls lcalls (do_lease_call dd lc)).
  by rewrite order_lease_call_comm, IH.
Qed.

Lemma run_calls_comm (ocalls : list OrderCall) (lcalls : list LeaseCall) :
  ∀ dd, run_lease_calls lcalls (run_order_calls ocalls dd)
        = run_order_calls ocalls (run_lease_calls lcalls dd).
Proof.
  induction ocalls as [|oc ocalls IH]; intros dd; simpl; [done|].
  fold (run_order_calls ocalls (do_order_call dd oc)).
  fold (run_order_calls ocalls (do_order_call (run_lease_calls lcalls dd) oc)).
  by rewrite IH, run_lease_calls_order_call.
Qed.

(** X4. Order calls change the order collection only and lease calls the
    lease collection only: groups, deployment id, version and the other
    collection stay as they were, so the two kinds of calls give the same
    tracker in either order and MsgCreate returns the same message after
    any of them. *)
Theorem tracking_leaves_the_rest (ocalls : list OrderCall) (lcalls : list LeaseCall)
    (st : GroupStore) (dd : DeploymentData) :
  set_OrderID (run_order_calls ocalls dd) (OrderID_of dd) = dd
  ∧ set_LeaseID (run_lease_calls lcalls dd) (LeaseID_of dd) = dd
  ∧ run_lease_calls lcalls (run_order_calls ocalls dd)
    = run_order_calls ocalls (run_lease_calls lcalls dd)
  ∧ fst (MsgCreate (st, run_lease_calls lcalls (run_order_calls ocalls dd)))
    = fst (MsgCreate (st, dd))
  ∧ ExpectedLeases (run_order_calls ocalls dd) = ExpectedLeases dd
  ∧ ExpectedOrders (run_lease_calls lcalls dd) = ExpectedOrders dd.
Proof.
  pose proof (run_order_calls_frame ocalls dd) as Ho.
  pose proof (run_lease_calls_frame lcalls dd) as Hl.
  pose proof (run_lease_calls_frame lcalls (run_order_calls ocalls dd)) as Hlo.
  split; [done|]. split; [done|]. split; [apply run_calls_comm|].
  split; [|split].
  - unfold MsgCreate. simpl.
    pose proof (f_equal Groups Hlo) as Hg. pose proof (f_equal DeploymentID_of Hlo) as Hi.
    pose proof (f_equal Version Hlo) as Hv. simpl in Hg, Hi, Hv.
    pose proof (f_equal Groups Ho) as Hg'. pose proof (f_equal DeploymentID_of Ho) as Hi'.
    pose proof (f_equal Version Ho) as Hv'. simpl in Hg', Hi', Hv'.
    by rewrite Hg, Hi, Hv, Hg', Hi', Hv'.
  - unfold ExpectedLeases.
    pose proof (f_equal Groups Ho) as Hg. pose proof (f_equal LeaseID_of Ho) as Hx.
    simpl in Hg, Hx. by rewrite Hg, Hx.
  - unfold ExpectedOrders.
    pose proof (f_equal Groups Hl) as Hg. pose proof (f_equal OrderID_of Hl) as Hx.
    simpl in Hg, Hx. by rewrite Hg, Hx.
Qed.

(** X5. ExpectedOrders compares for equality, not for at least: on a
    tracker where it is true, one more AddOrder makes it false, and so does
    a RemoveOrder of an id that is tracked; the same holds of
    ExpectedLeases with AddLease and RemoveLease. *)
Theorem expected_is_exact (dd : DeploymentData) :
  (ExpectedOrders dd = true →
   (∀ order, ExpectedOrders (AddOrder order dd) = false)
   ∧ (∀ order, In order (OrderID_of dd) → ExpectedOrders (RemoveOrder order dd) = false))
  ∧ (ExpectedLeases dd = true →
     (∀ lease, ExpectedLeases (AddLease lease dd) = false)
     ∧ (∀ lease, In lease (LeaseID_of dd) → ExpectedLeases (RemoveLease lease dd) = false)).
Proof.
  split; intros Hexp; apply Nat.eqb_eq in Hexp; split.
  - intros order. unfold ExpectedOrders, AddOrder. simpl.
    rewrite length_app. simpl. apply Nat.eqb_neq. lia.
  - intros order Hin. unfold ExpectedOrders. rewrite OrderID_of_RemoveOrder.
    pose proof (filter_split_length (OrderID_Equals order) (OrderID_of dd)) as Hlen.
    assert (0 < length (List.filter (OrderID_Equals order) (OrderID_of dd)))%nat.
    { assert (In order (List.filter (OrderID_Equals order) (OrderID_of dd))) as Hf
        by (apply filter_In; split; [done | apply OrderID_Equals_refl]).
      destruct (List.filter (OrderID_Equals order) (OrderID_of dd)); [done|simpl; lia]. }
    simpl. apply Nat.eqb_neq. lia.
  - intros lease. unfold ExpectedLeases, AddLease. simpl.
    rewrite length_app. simpl. apply Nat.eqb_neq. lia.
  - intros lease Hin. unfold ExpectedLeases. rewrite LeaseID_of_RemoveLease.
    pose proof (filter_split_length (LeaseID_Equals lease) (LeaseID_of dd)) as Hlen.
    assert (0 < length (List.filter (LeaseID_Equals lease) (LeaseID_of dd)))%nat.
    { assert (In lease (List.filter (LeaseID_Equals lease) (LeaseID_of dd))) as Hf
        by (apply filter_In; split; [done | apply LeaseID_Equals_refl]).
      destruct (List.filter (LeaseID_Equals lease) (LeaseID_of dd)); [done|simpl; lia]. }
    simpl. apply Nat.eqb_neq. lia.
Qed.

End TrackerMore.

(** ** Slices in memory: what the calls do to the arrays *)

Section SliceMemMore.
Context `{RT : SliceRuntime}.

(** X6. On a valid slice, AddLease and RemoveLease in memory keep the
    stored slice valid and make it show what the same calls give on the
    list of its elements: the appended id last, the removed id filtered
    out, whether append wrote in place or allocated. *)
Theorem slice_calls_show_list_calls (h : SliceMem.Heap) (s : SliceMem.slice)
    (dd : DeploymentData) (calls : list LeaseCall) :
  SliceMem.valid h s →
  LeaseID_of dd = SliceMem.view h s →
  let after := SliceMem.run_lease_calls calls (h, s) in
  SliceMem.valid (fst after) (snd after)
  ∧ SliceMem.view (fst after) (snd after) = LeaseID_of (run_lease_calls calls dd)
  ∧ SliceMem.len (snd after) = length (LeaseID_of (run_lease_calls calls dd)).
Proof.
  intros Hs Hdd after.
  destruct (run_lease_calls_mem calls h s s dd Hs (outlives_self h s Hs) Hdd)
    as (Hv & _ & Hview).
  split; [done|]. split; [done|].
  rewrite Hview. symmetry. by apply valid_length_view.
Qed.

Lemma append_extends (h0 h : SliceMem.Heap) (out : SliceMem.slice) (x : LeaseID) :
  h0 ⊆ h →
  (∀ p, SliceMem.base out = Some p → h0 !! p = None) →
  h0 ⊆ fst (SliceMem.append h out x)
  ∧ ∀ p, SliceMem.base (snd (SliceMem.append h out x)) = Some p → h0 !! p = None.
Proof.
  intros Hsub Hout.
  assert (h0 !! fresh (dom h) = None) as Hfresh.
  { eapply lookup_weaken_None; [|exact Hsub].
    apply not_elem_of_dom, is_fresh. }
  unfold SliceMem.append.
  destruct (SliceMem.base out) as [p|] eqn:Hb.
  - destruct (decide (SliceMem.len out < SliceMem.cap out)%nat); simpl.
    + split; [apply insert_subseteq_r; [by apply Hout|done]|].
      intros p' [= <-]. by apply Hout.
    + split; [by apply insert_subseteq_r|]. by intros p' [= <-].
  - simpl. split; [by apply insert_subseteq_r|]. by intros p' [= <-].
Qed.

Lemma RemoveLease_loop_extends (order : LeaseID) (s : SliceMem.slice) (h0 : SliceMem.Heap)
    (idx : list nat) :
  ∀ st : SliceMem.Heap * SliceMem.slice,
  h0 ⊆ fst st →
  (∀ p, SliceMem.base (snd st) = Some p → h0 !! p = None) →
  h0 ⊆ fst (SliceMem.RemoveLease_loop order s idx st)
  ∧ ∀ p, SliceMem.base (snd (SliceMem.RemoveLease_loop order s idx st)) = Some p →
         h0 !! p = None.
Proof.
  induction idx as [|i idx IH]; intros st Hsub Hout; simpl; [done|].
  destruct (SliceMem.cells (fst st) s !! i) as [o|]; [|done].
  destruct (negb (LeaseID_Equals order o)); [|by apply IH].
  destruct (append_extends h0 (fst st) (snd st) o Hsub Hout) as [H1 H2].
  by apply IH.
Qed.

Lemma RemoveLease_loop_all_equal (order : LeaseID) (s : SliceMem.slice)
    (h : SliceMem.Heap) (out : SliceMem.slice) (n : nat) :
  ∀ k, (k + n = SliceMem.len s)%nat →
  SliceMem.valid h s →
  (∀ o, In o (SliceMem.view h s) → LeaseID_Equals order o = true) →
  SliceMem.RemoveLease_loop order s (seq k n) (h, out) = (h, out).
Proof.
  induction n as [|n IH]; intros k Hk Hs Hall; simpl; [done|].
  pose proof (valid_length_view h s Hs) as Hlen.
  destruct (SliceMem.view h s !! k) as [o|] eqn:Ho; cycle 1.
  { apply lookup_ge_None in Ho. lia. }
  assert (SliceMem.cells h s !! k = Some o) as ->.
  { unfold SliceMem.view in Ho. by rewrite lookup_take_lt in Ho by lia. }
  rewrite (Hall o); [|apply list_elem_of_In; by eapply list_elem_of_lookup_2].
  simpl. apply IH; [lia|done|done].
Qed.

(** RemoveLease on a valid slice: the stored slice is valid afterwards and
    shows the elements the id does not equal, in their order. *)
Lemma RemoveLease_mem (order : LeaseID) (h : SliceMem.Heap) (s : SliceMem.slice) :
  SliceMem.valid h s →
  SliceMem.valid (fst (SliceMem.RemoveLease order (h, s)))
    (snd (SliceMem.RemoveLease order (h, s)))
  ∧ SliceMem.view (fst (SliceMem.RemoveLease order (h, s)))
      (snd (SliceMem.RemoveLease order (h, s)))
    = List.filter (fun o => negb (LeaseID_Equals order o)) (SliceMem.view h s).
Proof.
  intros Hs. unfold SliceMem.RemoveLease. simpl.
  destruct (RemoveLease_loop_mem order s (SliceMem.len s) 0 h SliceMem.nil_slice
              eq_refl (valid_nil_slice h) (outlives_nil_slice h s Hs))
    as (Hr1 & Hr2 & _).
  split; [done|]. rewrite Hr2. by rewrite RemoveLease_loop_filter.
Qed.

(** [append] removes no array: an address free afterwards was free. *)
Lemma append_lookup_None (h : SliceMem.Heap) (s : SliceMem.slice) (x : LeaseID)
    (p : positive) :
  fst (SliceMem.append h s x) !! p = None → h !! p = None.
Proof.
  unfold SliceMem.append.
  destruct (SliceMem.base s) as [q|];
    [destruct (decide (SliceMem.len s < SliceMem.cap s)%nat)|]; simpl;
    intros H; by apply lookup_insert_None in H as [H _].
Qed.

Lemma filter_nil_all {A} (f : A → bool) (l : list A) :
  List.filter (fun a => negb (f a)) l = [] → ∀ a, In a l → f a = true.
Proof.
  intros Hnil a Ha. destruct (f a) eqn:Hf; [done|].
  assert (In a (List.filter (fun a => negb (f a)) l)) as Hin.
  { apply filter_In. split; [done|]. by rewrite Hf. }
  rewrite Hnil in Hin. destruct Hin.
Qed.

(** X7. RemoveLease never writes into an array that exists: every array
    of the heap is afterwards what it was, and the slice it stores starts
    at no array of that heap.  On a valid slice the stored slice is valid
    and shows the kept leases in their order, so these went to a newly
    allocated array.  When nothing is kept, also when the collection was
    empty, the stored slice is the nil slice and the heap is unchanged. *)
Theorem RemoveLease_builds_anew (h : SliceMem.Heap) (s : SliceMem.slice) (order : LeaseID) :
  let r := SliceMem.RemoveLease order (h, s) in
  h ⊆ fst r
  ∧ (∀ p, SliceMem.base (snd r) = Some p → h !! p = None)
  ∧ (SliceMem.valid h s →
     SliceMem.valid (fst r) (snd r)
     ∧ SliceMem.view (fst r) (snd r)
       = List.filter (fun o => negb (LeaseID_Equals order o)) (SliceMem.view h s)
     ∧ ((∀ o, In o (SliceMem.view h s) → LeaseID_Equals order o = true) →
        r = (h, SliceMem.nil_slice))).
Proof.
  intros r.
  assert (h ⊆ fst r ∧ ∀ p, SliceMem.base (snd r) = Some p → h !! p = None) as [Hsub Hnew].
  { unfold r, SliceMem.RemoveLease. simpl.
    apply RemoveLease_loop_extends; simpl; [done|]. intros p Hp. discriminate. }
  split; [done|]. split; [done|]. intros Hs.
  destruct (RemoveLease_mem order h s Hs) as [Hv Hview].
  split; [done|]. split; [done|].
  intros Hall. unfold r, SliceMem.RemoveLease. simpl.
  by apply RemoveLease_loop_all_equal.
Qed.

(** X3. Adding an id and then removing it gives what removing it alone
    gives, so copies tracked before the add are gone too.  When the id was
    not tracked, the collection holds the ids it held, in their order, but
    in a newly built slice: in memory the stored slice shows these ids and
    starts at no array of the heap before the two calls, and when no id is
    left it is the nil slice, also where the collection was an empty slice
    that was not nil. *)
Theorem add_then_remove (dd : DeploymentData) :
  (∀ order,
     RemoveOrder order (AddOrder order dd) = RemoveOrder order dd
     ∧ (existsb (OrderID_Equals order) (OrderID_of dd) = false →
        OrderID_of (RemoveOrder order (AddOrder order dd)) = OrderID_of dd))
  ∧ (∀ lease,
     RemoveLease lease (AddLease lease dd) = RemoveLease lease dd
     ∧ (existsb (LeaseID_Equals lease) (LeaseID_of dd) = false →
        LeaseID_of (RemoveLease lease (AddLease lease dd)) = LeaseID_of dd))
  ∧ (∀ lease h s,
       SliceMem.valid h s → LeaseID_of dd = SliceMem.view h s →
       let r := SliceMem.RemoveLease lease (SliceMem.AddLease lease (h, s)) in
       SliceMem.valid (fst r) (snd r)
       ∧ SliceMem.view (fst r) (snd r) = LeaseID_of (RemoveLease lease dd)
       ∧ (∀ p, SliceMem.base (snd r) = Some p → h !! p = None)
       ∧ (LeaseID_of (RemoveLease lease dd) = [] → snd r = SliceMem.nil_slice)).
Proof.
  split; [|split].
  - intros order.
    assert (RemoveOrder order (AddOrder order dd) = RemoveOrder order dd) as Heq.
    { rewrite !RemoveOrder_as_filter. unfold AddOrder; simpl.
      rewrite List.filter_app. simpl. rewrite OrderID_Equals_refl. simpl.
      rewrite app_nil_r. by destruct dd. }
    split; [done|]. intros Habs. rewrite Heq, OrderID_of_RemoveOrder.
    by apply filter_all_kept.
  - intros lease.
    assert (RemoveLease lease (AddLease lease dd) = RemoveLease lease dd) as Heq.
    { rewrite !RemoveLease_as_filter. unfold AddLease; simpl.
      rewrite List.filter_app. simpl. rewrite LeaseID_Equals_refl. simpl.
      rewrite app_nil_r. by destruct dd. }
    split; [done|]. intros Habs. rewrite Heq, LeaseID_of_RemoveLease.
    by apply filter_all_kept.
  - intros lease h s Hs Hdd r.
    destruct (append_spec h s lease Hs) as [Hv1 Hview1].
    unfold r, SliceMem.AddLease. cbn [fst snd].
    destruct (SliceMem.append h s lease) as [h1 s1] eqn:Happ. simpl in Hv1, Hview1.
    destruct (RemoveLease_mem lease h1 s1 Hv1) as [Hv Hview].
    assert (List.filter (fun o => negb (LeaseID_Equals lease o)) (SliceMem.view h1 s1)
            = LeaseID_of (RemoveLease lease dd)) as Hkept.
    { rewrite Hview1, List.filter_app, LeaseID_of_RemoveLease, Hdd. simpl.
      rewrite LeaseID_Equals_refl. simpl. by rewrite app_nil_r. }
    split; [done|]. split; [by rewrite Hview|]. split.
    + intros p Hp. apply (append_lookup_None h s lease). rewrite Happ. simpl.
      revert p Hp. unfold SliceMem.RemoveLease. simpl.
      apply RemoveLease_loop_extends; simpl; [done|]. intros p Hp. discriminate.
    + intros Hnil. rewrite <- Hkept in Hnil.
      unfold SliceMem.RemoveLease. simpl.
      rewrite RemoveLease_loop_all_equal; [done|done|done|].
      by apply filter_nil_all.
Qed.

End SliceMemMore.

(** ** The configuration: what is stored, what is returned, when the
    process exits *)

Section ConfigMore.
Context `{E : Env}.

Lemma GetAccAddress_keeps_config (s : Proc) :
  config (snd (GetAccAddress s)) = config s.
Proof.
  unfold GetAccAddress, bind, get_config, emit, ret, panic. simpl.
  destruct (address (config s)); simpl; [done|].
  destruct (keybase (config s)); simpl; [|done].
  by destruct (kb_Get _ _).
Qed.

(** X8. Neither GetAccAddress nor validateConfig stores the address:
    GetAccAddress leaves the configuration as it is, and after
    validateConfig the address field is what it was, as are chain id, rpc
    address, key file and passphrase; the codec is set in every case. *)
Theorem address_is_never_stored (s : Proc) :
  config (snd (GetAccAddress s)) = config s
  ∧ address (config (snd (validateConfig s))) = address (config s)
  ∧ ChainID (config (snd (validateConfig s))) = ChainID (config s)
  ∧ RPCAddr (config (snd (validateConfig s))) = RPCAddr (config s)
  ∧ Keyfile (config (snd (validateConfig s))) = Keyfile (config s)
  ∧ Keypass (config (snd (validateConfig s))) = Keypass (config s)
  ∧ Amino (config (snd (validateConfig s))) = Some app_MakeCodec.
Proof.
  split; [apply GetAccAddress_keeps_config|].
  unfold validateConfig, CreateKeybase, bind, get_config, put_config, get_homePath,
    emit, ret. simpl.
  destruct (rpchttp_New _ _); simpl; [|done].
  destruct (os_IsNotExist _); simpl; [done|].
  destruct (os_Open _); simpl; [|done].
  destruct (ioutil_ReadAll _); simpl; [|done].
  destruct (kb_ImportPrivKey _ _ _ _) as [kb' [e|]]; simpl; [done|].
  match goal with |- context [GetAccAddress ?x] =>
    pose proof (GetAccAddress_keeps_config x) as Hk;
    destruct (GetAccAddress x) as [[?| |] ?] end; simpl in *; by rewrite Hk.
Qed.

(** X9. With an rpc address that parses and a key file that exists,
    validateConfig returns the error of opening or reading the file with
    no keybase stored; an error of the import is returned too, but the
    keybase of the failed import is stored in the configuration; and when
    the import succeeds the new keybase is stored and the call ends as
    GetAccAddress ends on that state. *)
Theorem validateConfig_with_keyfile (s : Proc) (cl : Client) :
  rpchttp_New (RPCAddr (config s)) "/websocket" = OK cl →
  os_IsNotExist (os_Stat (path_Join (homePath s) (Keyfile (config s)))) = false →
  let s1 := {| config := set_Amino (config s) (Some app_MakeCodec);
               cfgPath := cfgPath s; homePath := homePath s; events := events s |} in
  let stored kb := {| config := set_keybase (config s1) (Some kb);
                      cfgPath := cfgPath s; homePath := homePath s;
                      events := events s |} in
  (∀ e, os_Open (path_Join (homePath s) (Keyfile (config s))) = Fail e →
        validateConfig s = (Returned (Some e), s1))
  ∧ (∀ kf e, os_Open (path_Join (homePath s) (Keyfile (config s))) = OK kf →
        ioutil_ReadAll kf = Fail e →
        validateConfig s = (Returned (Some e), s1))
  ∧ (∀ kf byt kb e,
        os_Open (path_Join (homePath s) (Keyfile (config s))) = OK kf →
        ioutil_ReadAll kf = OK byt →
        kb_ImportPrivKey keys_NewInMemory defaultKey byt (Keypass (config s)) = (kb, Some e) →
        validateConfig s = (Returned (Some e), stored kb))
  ∧ (∀ kf byt kb,
        os_Open (path_Join (homePath s) (Keyfile (config s))) = OK kf →
        ioutil_ReadAll kf = OK byt →
        kb_ImportPrivKey keys_NewInMemory defaultKey byt (Keypass (config s)) = (kb, None) →
        validateConfig s
        = (match fst (GetAccAddress (stored kb)) with
           | Returned _ => Returned None
           | Exited code => Exited code
           | Panicked => Panicked
           end,
           snd (GetAccAddress (stored kb)))).
Proof.
  intros Hrpc Hstat s1 stored.
  unfold validateConfig, CreateKeybase, bind, get_config, put_config, get_homePath,
    emit, ret. simpl. rewrite Hrpc. simpl. rewrite Hstat. simpl.
  split; [|split; [|split]].
  - intros e ->. done.
  - intros kf e -> ->. done.
  - intros kf byt kb e -> -> ->. done.
  - intros kf byt kb -> -> ->. simpl.
    by destruct (GetAccAddress _) as [[a| |] s2].
Qed.

Lemma initConfig_cases (cmd : Command) (s s' : Proc) (o : outcome (option error)) :
  initConfig cmd s = (o, s') →
  match o with
  | Returned (Some e) => cmd_GetString cmd FlagHome = Fail e ∧ s' = s
  | Returned None => True
  | Exited code =>
      code = 1
      ∧ ∃ msg, events s' = events s ++ [EvPrint msg] ∧ String.prefix "Error " msg = true
  | Panicked => True
  end.
Proof.
  intros H.
  unfold initConfig, validateConfig, CreateKeybase, GetAccAddress, bind, get_config,
    put_config, put_cfgPath, get_cfgPath, get_homePath, emit, ret, os_Exit, panic in H.
  simpl in H.
  repeat (match type of H with
          | context [match ?x with _ => _ end] =>
              lazymatch x with
              | context [match _ with _ => _ end] => fail
              | _ => destruct x eqn:?
              end
          end; simpl in H);
    inversion H; subst; simpl; try done;
    (split; [done|]); eexists; (split; [done|]); done.
Qed.

(** X10. initConfig returns an error only when the home flag cannot be
    read, and then changes nothing.  When it ends the process the exit
    status is 1 and the one thing printed is a line that starts with
    Error. *)
Theorem initConfig_outcomes (cmd : Command) (s : Proc) :
  (∀ e s', initConfig cmd s = (Returned (Some e), s') →
           cmd_GetString cmd FlagHome = Fail e ∧ s' = s)
  ∧ (∀ code s', initConfig cmd s = (Exited code, s') →
       code = 1
       ∧ ∃ msg, events s' = events s ++ [EvPrint msg]
                ∧ String.prefix "Error " msg = true).
Proof.
  split.
  - intros e s' H. exact (initConfig_cases cmd s s' _ H).
  - intros code s' H. exact (initConfig_cases cmd s s' _ H).
Qed.

(** X11. When the configuration file cannot be found, or viper cannot
    read it, initConfig returns nil with the empty configuration: nothing
    is validated and no key is loaded.  A message is printed only when the
    file does not exist; another error of Stat and an error of viper pass
    in silence. *)
Theorem initConfig_without_config_file (cmd : Command) (s : Proc) (home : string) :
  cmd_GetString cmd FlagHome = OK home →
  let p := path_Join home "config.yaml" in
  let reset := {| config := zero_Config; cfgPath := p; homePath := homePath s;
                  events := events s |} in
  (∀ e, os_Stat p = Some e → os_IsNotExist (Some e) = true →
        initConfig cmd s
        = (Returned None,
           add_events reset [EvPrint ("config file " ++ p ++ " doesn't exist" ++ newline)]))
  ∧ (∀ e, os_Stat p = Some e → os_IsNotExist (Some e) = false →
          initConfig cmd s = (Returned None, reset))
  ∧ (∀ e, os_Stat p = None → viper_ReadInConfig p = Some e →
          initConfig cmd s = (Returned None, reset)).
Proof.
  intros Hhome p reset. subst p reset.
  split; [|split]; intros e H1 H2; unfold initConfig; rewrite Hhome;
    unfold bind, put_config, put_cfgPath, get_cfgPath, emit, ret; simpl;
    rewrite H1; simpl; rewrite ?H2; done.
Qed.

End ConfigMore.

(** ** The transaction pipeline: what is sent to the node, and when *)

Section PipelineMore.
Context `{E : Env}.

(** The state is the one before with some events added. *)
Ltac same_state :=
  unfold add_events; simpl; rewrite <- ?app_assoc; simpl; reflexivity.

Lemma filter_validate_events (f : Event → bool) (l : list Msg) :
  (∀ m, f (EvValidateBasic m) = false) →
  List.filter f (map EvValidateBasic l) = [].
Proof.
  intros Hf. induction l as [|m l IH]; simpl; [done|]. by rewrite Hf.
Qed.

(** The events of BuildAndSignTx: after what GetAccAddress does, the
    account lookup, the gas estimation and the signature, each only when
    the one before succeeded. *)
Lemma BuildAndSignTx_shape (msgs : list Msg) (s : Proc) :
  ∃ evs,
    snd (BuildAndSignTx msgs s) = add_events s evs
    ∧ List.filter is_broadcast evs = []
    ∧ (length (List.filter is_network evs) ≤ 2)%nat
    ∧ (length (List.filter is_sign evs) ≤ 1)%nat
    ∧ (∀ r, fst (BuildAndSignTx msgs s) = Returned r →
         ∃ pre ctx a,
           List.filter is_network pre = []
           ∧ List.filter is_sign pre = []
           ∧ ((∃ e, r = Fail e ∧ auth_GetAccount ctx a = Fail e
                    ∧ evs = pre ++ [EvGetAccount ctx a])
              ∨ (∃ acc b,
                   auth_GetAccount ctx a = OK acc
                   ∧ tb_accNumber b = acc_GetAccountNumber acc
                   ∧ tb_sequence b = acc_GetSequence acc
                   ∧ tb_gas b = 200000
                   ∧ tb_chainID b = ChainID (config s)
                   ∧ tb_keybase b = keybase (config s)
                   ∧ ((∃ e, r = Fail e ∧ authclient_EnrichWithGas b ctx msgs = Fail e
                            ∧ evs = pre ++ [EvGetAccount ctx a; EvEnrichWithGas b ctx msgs])
                      ∨ (∃ b',
                           authclient_EnrichWithGas b ctx msgs = OK b'
                           ∧ r = txBldr_BuildAndSign b' defaultKey (Keypass (config s)) msgs
                           ∧ evs = pre ++ [EvGetAccount ctx a; EvEnrichWithGas b ctx msgs;
                                           EvBuildAndSign b' defaultKey
                                             (Keypass (config s)) msgs]))))).
Proof.
  unfold BuildAndSignTx, NewTMClient, GetAccAddress, bind, get_config, emit, ret, panic.
  simpl.
  destruct (rpchttp_New _ _) as [cl|e0]; simpl;
    (destruct (address (config s)) as [a|] eqn:Ha; simpl;
     [|destruct (keybase (config s)) as [kb|] eqn:Hkb; simpl;
       [destruct (kb_Get kb defaultKey) as [k|e1]; simpl|]]).
  all: try (eexists; split; [same_state|];
            simpl; split; [done|]; split; [lia|]; split; [lia|];
            intros r Hr; discriminate).
  all: destruct (auth_GetAccount _ _) as [acc|e2] eqn:Hacc; simpl;
    [destruct (authclient_EnrichWithGas _ _ _) as [b'|e3] eqn:Hgas; simpl|].
  all: eexists; (split; [same_state|]).
  all: simpl; (split; [done|]); (split; [lia|]); (split; [lia|]).
  all: intros r [= <-].
  all: lazymatch goal with
       | |- context [EvSetBech32Prefix ?x ?y] => exists [EvSetBech32Prefix x y]
       | _ => exists []
       end.
  all: lazymatch type of Hacc with auth_GetAccount ?c ?o = _ => exists c, o end.
  all: simpl; (split; [done|]); (split; [done|]).
  all: try (left; exists e2; done).
  all: right; lazymatch type of Hgas with
              | authclient_EnrichWithGas ?b _ _ = _ => exists acc, b
              end;
       (split; [exact Hacc|]); simpl; repeat (split; [reflexivity|]).
  all: try (left; exists e3; done).
  all: right; exists b'; done.
Qed.

(** X12. BuildAndSignTx changes nothing of the configuration and never
    broadcasts: it only adds events, at most two of them calls to the node
    and at most one a signature.  What it returns is the error of the
    account lookup, or the error of the gas estimation made with gas
    200000 and the number and sequence of the account, or what BuildAndSign
    returns; the signature is asked for only after both calls succeeded. *)
Theorem BuildAndSignTx_effects (msgs : list Msg) (s : Proc) :
  ∃ evs,
    snd (BuildAndSignTx msgs s) = add_events s evs
    ∧ List.filter is_broadcast evs = []
    ∧ (length (List.filter is_network evs) ≤ 2)%nat
    ∧ (length (List.filter is_sign evs) ≤ 1)%nat
    ∧ (∀ r, fst (BuildAndSignTx msgs s) = Returned r →
         ∃ pre ctx a,
           List.filter is_network pre = []
           ∧ List.filter is_sign pre = []
           ∧ ((∃ e, r = Fail e ∧ auth_GetAccount ctx a = Fail e
                    ∧ evs = pre ++ [EvGetAccount ctx a])
              ∨ (∃ acc b,
                   auth_GetAccount ctx a = OK acc
                   ∧ tb_accNumber b = acc_GetAccountNumber acc
                   ∧ tb_sequence b = acc_GetSequence acc
                   ∧ tb_gas b = 200000
                   ∧ tb_chainID b = ChainID (config s)
                   ∧ tb_keybase b = keybase (config s)
                   ∧ ((∃ e, r = Fail e ∧ authclient_EnrichWithGas b ctx msgs = Fail e
                            ∧ evs = pre ++ [EvGetAccount ctx a; EvEnrichWithGas b ctx msgs])
                      ∨ (∃ b',
                           authclient_EnrichWithGas b ctx msgs = OK b'
                           ∧ r = txBldr_BuildAndSign b' defaultKey (Keypass (config s)) msgs
                           ∧ evs = pre ++ [EvGetAccount ctx a; EvEnrichWithGas b ctx msgs;
                                           EvBuildAndSign b' defaultKey
                                             (Keypass (config s)) msgs]))))).
Proof. apply BuildAndSignTx_shape. Qed.

(** X13. SendMsgs only adds events and broadcasts at most once.  When it
    returns no error the transaction was broadcast exactly once and every
    message had validated; when it returns without a broadcast, the
    response is the zero response and the error is not nil. *)
Theorem SendMsgs_broadcasts_at_most_once (datagrams : list Msg) (s : Proc) :
  ∃ evs,
    snd (SendMsgs datagrams s) = add_events s evs
    ∧ (length (List.filter is_broadcast evs) ≤ 1)%nat
    ∧ (∀ res, fst (SendMsgs datagrams s) = Returned (res, None) →
         length (List.filter is_broadcast evs) = 1%nat
         ∧ ∀ m, In m datagrams → msg_ValidateBasic m = None)
    ∧ (∀ res err, fst (SendMsgs datagrams s) = Returned (res, err) →
         List.filter is_broadcast evs = [] →
         res = zero_TxResponse ∧ err ≠ None).
Proof.
  destruct (first_invalid datagrams)
    as [Hall|(pre & msg & post & err0 & Heq & Hpre & Hmsg)].
  - assert (SendMsgs datagrams s
            = bind (BuildAndSignTx datagrams)
                (fun b => match b with
                          | Fail err => ret (zero_TxResponse, Some err)
                          | OK out => BroadcastTxCommit out
                          end)
                (add_events s (map EvValidateBasic datagrams))) as Hrun.
    { unfold SendMsgs, bind at 1.
      by rewrite (SendMsgs_validate_passes datagrams s Hall). }
    destruct (BuildAndSignTx_shape datagrams
                (add_events s (map EvValidateBasic datagrams)))
      as (evs & Hst & Hbc & _ & _ & _).
    assert (List.filter is_broadcast (map EvValidateBasic datagrams ++ evs) = []) as Hnone.
    { rewrite List.filter_app, Hbc, filter_validate_events; done. }
    unfold bind in Hrun.
    destruct (BuildAndSignTx datagrams (add_events s (map EvValidateBasic datagrams)))
      as [[[out|e]| |] s1]; simpl in Hst; subst s1; rewrite add_events_app in Hrun.
    + unfold BroadcastTxCommit, NewTMClient, bind, get_config, emit, ret in Hrun.
      simpl in Hrun.
      set (ctx := CLICtx (config s)
                    match rpchttp_New (RPCAddr (config s)) "/websocket" with
                    | OK cl => Some cl
                    | Fail _ => None
                    end).
      assert (SendMsgs datagrams s
              = (Returned (ctx_BroadcastTxCommit ctx out),
                 add_events s ((map EvValidateBasic datagrams ++ evs)
                               ++ [EvBroadcastTxCommit ctx out]))) as ->.
      { rewrite Hrun. unfold ctx.
        destruct (rpchttp_New _ _); simpl; by rewrite add_events_app. }
      eexists. split; [reflexivity|].
      rewrite List.filter_app, Hnone. simpl.
      split; [lia|]. split; [done|]. intros r0 e1 _ Hno. discriminate.
    + rewrite Hrun. eexists. split; [reflexivity|]. rewrite Hnone. simpl.
      split; [lia|]. split; [intros r0 [=]|].
      intros r0 e1 [= <- <-] _. done.
    + rewrite Hrun. eexists. split; [reflexivity|]. rewrite Hnone. simpl.
      split; [lia|]. split; intros; discriminate.
    + rewrite Hrun. eexists. split; [reflexivity|]. rewrite Hnone. simpl.
      split; [lia|]. split; intros; discriminate.
  - assert (SendMsgs datagrams s
            = (Returned (zero_TxResponse, Some err0),
               add_events s (map EvValidateBasic (pre ++ [msg])))) as ->.
    { unfold SendMsgs, bind at 1. rewrite Heq.
      by rewrite (SendMsgs_validate_stops pre post msg err0 s Hpre Hmsg). }
    eexists. split; [reflexivity|].
    rewrite filter_validate_events by done. simpl.
    split; [lia|]. split; [intros r0 [=]|].
    intros r0 e1 [= <- <-] _. done.
Qed.

(** X14. BlockHeight panics when the rpc address does not parse, since
    NewTMClient drops the error and Status is called on a nil client.
    Otherwise it asks the node once; an error of Status is returned, and a
    height is returned as uint64: below 2^64, the height itself when that
    is not negative, and the height plus 2^64 when it is negative. *)
Theorem BlockHeight_cases (s : Proc) :
  (∀ e, rpchttp_New (RPCAddr (config s)) "/websocket" = Fail e →
        BlockHeight s = (Panicked, s))
  ∧ (∀ cl e, rpchttp_New (RPCAddr (config s)) "/websocket" = OK cl →
        client_Status cl = Fail e →
        BlockHeight s = (Returned (Fail e), add_events s [EvStatus cl]))
  ∧ (∀ cl h, rpchttp_New (RPCAddr (config s)) "/websocket" = OK cl →
        client_Status cl = OK h →
        ∃ height, BlockHeight s = (Returned (OK height), add_events s [EvStatus cl])
                  ∧ 0 ≤ height < 2 ^ 64
                  ∧ (0 ≤ h < 2 ^ 64 → height = h)
                  ∧ (- 2 ^ 63 ≤ h < 0 → height = h + 2 ^ 64)).
Proof.
  split; [|split].
  - intros e Hrpc. unfold BlockHeight, NewTMClient, bind, get_config, ret, panic.
    simpl. by rewrite Hrpc.
  - intros cl e Hrpc Hst. rewrite (BlockHeight_status s cl Hrpc). by rewrite Hst.
  - intros cl h Hrpc Hst. rewrite (BlockHeight_status s cl Hrpc). rewrite Hst.
    exists (uint64_of_int64 h). split; [done|]. unfold uint64_of_int64.
    split; [apply Z.mod_pos_bound; lia|]. split.
    + intros Hh. by apply Z.mod_small.
    + intros Hh. rewrite <- (Z.mod_add h 1 (2 ^ 64)) by lia.
      apply Z.mod_small. lia.
Qed.

Lemma NewDeploymentData_cases (file : string) (flags : FlagSet) (depAddr : AccAddress)
    (s s' : Proc) (o : outcome (goerr DeploymentData)) :
  NewDeploymentData file flags depAddr s = (o, s') →
  match o with
  | Returned (OK dd) =>
      ∃ f sdlSpec groups mani ver,
        ioutil_ReadFile file = OK f ∧ sdl_Read f = OK sdlSpec
        ∧ sdl_DeploymentGroups sdlSpec = OK groups ∧ sdl_Manifest sdlSpec = OK mani
        ∧ sdl_ManifestVersion mani = OK ver
        ∧ SDLFile dd = f ∧ SDL dd = Some sdlSpec ∧ Manifest dd = Some mani
        ∧ Groups dd = groups ∧ Version dd = ver
        ∧ OrderID_of dd = [] ∧ LeaseID_of dd = []
  | Returned (Fail e) =>
      (ioutil_ReadFile file = Fail e ∧ s' = s)
      ∨ ∃ f, ioutil_ReadFile file = OK f
        ∧ ((sdl_Read f = Fail e ∧ s' = s)
           ∨ ∃ sdlSpec, sdl_Read f = OK sdlSpec
             ∧ ((sdl_DeploymentGroups sdlSpec = Fail e ∧ s' = s)
                ∨ ∃ groups, sdl_DeploymentGroups sdlSpec = OK groups
                  ∧ ((sdl_Manifest sdlSpec = Fail e ∧ s' = s)
                     ∨ ∃ mani, sdl_Manifest sdlSpec = OK mani
                       ∧ ((sdl_ManifestVersion mani = Fail e ∧ s' = s)
                          ∨ ∃ ver, sdl_ManifestVersion mani = OK ver
                            ∧ ((dcli_DeploymentIDFromFlags flags (addr_String depAddr)
                                = Fail e ∧ s' = s)
                               ∨ ∃ id,
                                   dcli_DeploymentIDFromFlags flags (addr_String depAddr)
                                   = OK id
                                   ∧ DSeq id = 0
                                   ∧ BlockHeight s = (Returned (Fail e), s'))))))
  | Exited _ => False
  | Panicked =>
      ∃ e, rpchttp_New (RPCAddr (config s)) "/websocket" = Fail e ∧ s' = s
  end.
Proof.
  unfold NewDeploymentData. intros H.
  destruct (ioutil_ReadFile file) as [f|e0] eqn:Hstep0; [|inversion H; subst; by left].
  destruct (sdl_Read f) as [sdlSpec|e1] eqn:Hstep1;
    [|inversion H; subst; right; exists f; split; [done|]; by left].
  destruct (sdl_DeploymentGroups sdlSpec) as [groups|e2] eqn:Hstep2;
    [|inversion H; subst; right; exists f; split; [done|]; right;
      exists sdlSpec; split; [done|]; by left].
  destruct (sdl_Manifest sdlSpec) as [mani|e3] eqn:Hstep3;
    [|inversion H; subst; right; exists f; split; [done|]; right;
      exists sdlSpec; split; [done|]; right; exists groups; split; [done|]; by left].
  destruct (sdl_ManifestVersion mani) as [ver|e4] eqn:Hstep4;
    [|inversion H; subst; right; exists f; split; [done|]; right;
      exists sdlSpec; split; [done|]; right; exists groups; split; [done|]; right;
      exists mani; split; [done|]; by left].
  destruct (dcli_DeploymentIDFromFlags flags (addr_String depAddr)) as [id|e5] eqn:Hstep5;
    [|inversion H; subst; right; exists f; split; [done|]; right;
      exists sdlSpec; split; [done|]; right; exists groups; split; [done|]; right;
      exists mani; split; [done|]; right; exists ver; split; [done|]; by left].
  destruct (Z.eqb (DSeq id) 0) eqn:Hz.
  - apply Z.eqb_eq in Hz. unfold bind in H.
    destruct (BlockHeight s) as [[[h|e6]| |] s1] eqn:Hh; inversion H; subst.
    + by exists f, sdlSpec, groups, mani, ver.
    + right; exists f; split; [done|]; right;
        exists sdlSpec; split; [done|]; right; exists groups; split; [done|]; right;
        exists mani; split; [done|]; right; exists ver; split; [done|]; right.
      by exists id.
    + unfold BlockHeight, NewTMClient, bind, get_config, emit, ret, panic in Hh.
      simpl in Hh. destruct (rpchttp_New _ _); simpl in Hh;
        [destruct (client_Status _)|]; inversion Hh.
    + unfold BlockHeight, NewTMClient, bind, get_config, emit, ret, panic in Hh.
      simpl in Hh. destruct (rpchttp_New _ _) as [cl|e7]; simpl in Hh;
        [destruct (client_Status _); inversion Hh|].
      inversion Hh; subst. by exists e7.
  - inversion H; subst. by exists f, sdlSpec, groups, mani, ver.
Qed.

(** X15. NewDeploymentData never ends the process, and panics only when
    BlockHeight does.  A tracker it returns holds the file, the parsed
    specification, its groups, manifest and version, and no orders or
    leases.  An error it returns is the error of the first step that
    failed, in the order read, sdl.Read, groups, manifest, version, flags,
    block height; up to the flags nothing has been sent to the node. *)
Theorem NewDeploymentData_steps (file : string) (flags : FlagSet) (depAddr : AccAddress)
    (s : Proc) :
  (∀ dd s', NewDeploymentData file flags depAddr s = (Returned (OK dd), s') →
     ∃ f sdlSpec groups mani ver,
       ioutil_ReadFile file = OK f ∧ sdl_Read f = OK sdlSpec
       ∧ sdl_DeploymentGroups sdlSpec = OK groups ∧ sdl_Manifest sdlSpec = OK mani
       ∧ sdl_ManifestVersion mani = OK ver
       ∧ SDLFile dd = f ∧ SDL dd = Some sdlSpec ∧ Manifest dd = Some mani
       ∧ Groups dd = groups ∧ Version dd = ver
       ∧ OrderID_of dd = [] ∧ LeaseID_of dd = [])
  ∧ (∀ e s', NewDeploymentData file flags depAddr s = (Returned (Fail e), s') →
     (ioutil_ReadFile file = Fail e ∧ s' = s)
     ∨ ∃ f, ioutil_ReadFile file = OK f
       ∧ ((sdl_Read f = Fail e ∧ s' = s)
          ∨ ∃ sdlSpec, sdl_Read f = OK sdlSpec
            ∧ ((sdl_DeploymentGroups sdlSpec = Fail e ∧ s' = s)
               ∨ ∃ groups, sdl_DeploymentGroups sdlSpec = OK groups
                 ∧ ((sdl_Manifest sdlSpec = Fail e ∧ s' = s)
                    ∨ ∃ mani, sdl_Manifest sdlSpec = OK mani
                      ∧ ((sdl_ManifestVersion mani = Fail e ∧ s' = s)
                         ∨ ∃ ver, sdl_ManifestVersion mani = OK ver
                           ∧ ((dcli_DeploymentIDFromFlags flags (addr_String depAddr)
                               = Fail e ∧ s' = s)
                              ∨ ∃ id,
                                  dcli_DeploymentIDFromFlags flags (addr_String depAddr)
                                  = OK id
                                  ∧ DSeq id = 0
                                  ∧ BlockHeight s = (Returned (Fail e), s')))))))
  ∧ (∀ code s', NewDeploymentData file flags depAddr s ≠ (Exited code, s'))
  ∧ (∀ s', NewDeploymentData file flags depAddr s = (Panicked, s') →
       ∃ e, rpchttp_New (RPCAddr (config s)) "/websocket" = Fail e ∧ s' = s).
Proof.
  split; [|split; [|split]].
  - intros dd s' H. exact (NewDeploymentData_cases _ _ _ _ _ _ H).
  - intros e s' H. exact (NewDeploymentData_cases _ _ _ _ _ _ H).
  - intros code s' H. exact (NewDeploymentData_cases _ _ _ _ _ _ H).
  - intros s' H. exact (NewDeploymentData_cases _ _ _ _ _ _ H).
Qed.

(** X16. A tracker that NewDeploymentDataFromConfig returns has no groups,
    orders or leases and sequence number zero, so ExpectedOrders and
    ExpectedLeases are true of it from the start and MsgCreate returns a
    message without groups; its owner is the address of the configuration
    when one is stored. *)
Theorem NewDeploymentDataFromConfig_expects_nothing (s s' : Proc) (dd : DeploymentData) :
  NewDeploymentDataFromConfig s = (Returned dd, s') →
  Groups dd = [] ∧ OrderID_of dd = [] ∧ LeaseID_of dd = []
  ∧ DSeq (DeploymentID_of dd) = 0
  ∧ ExpectedOrders dd = true ∧ ExpectedLeases dd = true
  ∧ (∀ st, fst (MsgCreate (st, dd))
           = Returned {| msg_ID := DeploymentID_of dd; msg_Groups := [];
                         msg_Version := [] |})
  ∧ (∀ a, address (config s) = Some a → Owner (DeploymentID_of dd) = a ∧ s' = s).
Proof.
  unfold NewDeploymentDataFromConfig, bind, ret. intros H.
  destruct (GetAccAddress s) as [[a| |] s1] eqn:Ha; inversion H; subst; simpl.
  repeat (split; [done|]).
  intros a0 Haddr.
  unfold GetAccAddress, bind, get_config, ret in Ha. simpl in Ha.
  rewrite Haddr in Ha. by inversion Ha.
Qed.

End PipelineMore.

(** ** Callers under the write lock: exclusion and progress *)

Section LockedMore.
Context `{CT : ChainTypes}.

(** X17. In every world the callers reach, at most one caller is inside a
    call, and it is the one recorded as holding the write lock: with the
    lock free every caller stands before its Lock. *)
Theorem locked_calls_exclude_each_other (d : DeploymentData)
    (programs : list (list LeaseCall)) (sched : list nat) (w : Locked.world) :
  Locked.run sched (Locked.start d programs) = Some w →
  (∀ t t' c c', Locked.callers w !! t = Some c → Locked.callers w !! t' = Some c' →
     Locked.at_phase c ≠ Locked.AtLock → Locked.at_phase c' ≠ Locked.AtLock → t = t')
  ∧ (∀ t c, Locked.callers w !! t = Some c → Locked.at_phase c ≠ Locked.AtLock →
       Locked.writer w = Some t)
  ∧ (Locked.writer w = None →
     ∀ t c, Locked.callers w !! t = Some c → Locked.at_phase c = Locked.AtLock).
Proof.
  intros Hrun.
  pose proof (consistent_run d programs sched _ _ (consistent_start d programs) Hrun)
    as (_ & Hlock & _ & _).
  split; [|split].
  - intros t t' c c' Hc Hc' Hph Hph'.
    destruct (Hlock t c Hc Hph) as [Hw _]. destruct (Hlock t' c' Hc' Hph') as [Hw' _].
    congruence.
  - intros t c Hc Hph. by destruct (Hlock t c Hc Hph).
  - intros Hfree t c Hc.
    destruct (Locked.at_phase c) eqn:Hph; [done| | |];
      (destruct (Hlock t c Hc) as [Hw _]; [by rewrite Hph|congruence]).
Qed.

Lemma list_sum_insert (l : list nat) (i x y : nat) :
  l !! i = Some x → (list_sum (<[i := y]> l) + x = list_sum l + y)%nat.
Proof.
  revert i. induction l as [|a l IH]; intros [|i] Hi; simpl in *; try done.
  - inversion Hi; subst. lia.
  - specialize (IH i Hi). lia.
Qed.

(** A statement is one statement less to run. *)
Lemma step_steps_left (t : nat) (w w' : Locked.world) :
  Locked.step t w = Some w' → steps_left w = S (steps_left w').
Proof.
  unfold Locked.step. intros Hstep.
  destruct (Locked.callers w !! t) as [c|] eqn:Hc; [|discriminate].
  destruct (Locked.todo c) as [|call rest] eqn:Htodo; [discriminate|].
  assert (map caller_steps_left (Locked.callers w) !! t = Some (caller_steps_left c))
    as Hm by (by rewrite map_lookup, Hc).
  assert (∀ c', steps_left
                  {| Locked.dd := Locked.dd w'; Locked.writer := Locked.writer w';
                     Locked.callers := <[t := c']> (Locked.callers w) |}
                + caller_steps_left c
                = steps_left w + caller_steps_left c')%nat as Hsum.
  { intros c'. unfold steps_left. simpl. rewrite map_insert.
    by apply list_sum_insert. }
  unfold caller_steps_left in Hsum. rewrite Htodo in Hsum. simpl length in Hsum.
  destruct (Locked.at_phase c) eqn:Hph;
    [destruct (Locked.writer w); [discriminate|]| | |];
    inversion Hstep; subst w'; clear Hstep;
    match goal with |- context [<[t := ?c']> _] => specialize (Hsum c') end;
    unfold steps_left in *; simpl in *; lia.
Qed.

Lemma run_steps_left (sched : list nat) :
  ∀ w w', Locked.run sched w = Some w' →
          steps_left w = (length sched + steps_left w')%nat.
Proof.
  induction sched as [|t sched IH]; intros w w' Hrun; simpl in Hrun.
  - by inversion Hrun.
  - destruct (Locked.step t w) as [w1|] eqn:Hstep; [|discriminate].
    rewrite (step_steps_left t w w1 Hstep), (IH w1 w' Hrun). simpl. lia.
Qed.

Lemma steps_left_start (d : DeploymentData) (programs : list (list LeaseCall)) :
  steps_left (Locked.start d programs) = (4 * length (concat programs))%nat.
Proof.
  unfold steps_left, Locked.start. simpl. rewrite map_map.
  induction programs as [|p ps IH]; simpl; [done|].
  unfold caller_steps_left at 1. simpl. rewrite length_app. lia.
Qed.

Lemma finished_steps_left (w : Locked.world) :
  Locked.finished w = true ↔ steps_left w = 0%nat.
Proof.
  unfold Locked.finished, steps_left.
  induction (Locked.callers w) as [|c cs IH]; [done|].
  change (list_sum (map caller_steps_left (c :: cs)))
    with (caller_steps_left c + list_sum (map caller_steps_left cs))%nat.
  cbn [forallb]. rewrite andb_true_iff, IH.
  generalize (list_sum (map caller_steps_left cs)). intros n.
  unfold caller_steps_left.
  destruct (Locked.todo c) as [|call rest]; simpl length.
  - split; [intros [_ ->]; lia | intros H; split; [done | lia]].
  - split; [intros [? _]; discriminate|].
    destruct (Locked.at_phase c); simpl; lia.
Qed.

(** No deadlock: in a consistent world that is not finished some caller
    can run a statement. *)
Lemma consistent_can_step (d : DeploymentData) (programs : list (list LeaseCall))
    (w : Locked.world) :
  Locked.consistent d programs w → Locked.finished w = false →
  ∃ t w', Locked.step t w = Some w'.
Proof.
  intros (_ & Hlock & _ & Hwriter) Hfin.
  destruct (Locked.writer w) as [t|] eqn:Hw.
  - destruct (Hwriter t eq_refl) as (c & Hc & Hph).
    destruct (Hlock t c Hc Hph) as [_ Htodo].
    exists t. unfold Locked.step. rewrite Hc.
    destruct (Locked.todo c) as [|call rest]; [done|].
    destruct (Locked.at_phase c); [done| | |]; eauto.
  - assert (∃ t c, Locked.callers w !! t = Some c ∧ Locked.todo c ≠ []) as (t & c & Hc & Htodo).
    { unfold Locked.finished in Hfin.
      assert (∀ cs : list Locked.caller,
                forallb (fun c => match Locked.todo c with [] => true | _ => false end) cs
                = false →
                ∃ t c, cs !! t = Some c ∧ Locked.todo c ≠ []) as Hex.
      { induction cs as [|c cs IH]; simpl; [discriminate|].
        destruct (Locked.todo c) eqn:Htodo; simpl.
        - intros H. destruct (IH H) as (t & c' & Hc' & Hne). by exists (S t), c'.
        - intros _. exists 0%nat, c. split; [done|]. by rewrite Htodo. }
      by apply Hex. }
    assert (Locked.at_phase c = Locked.AtLock) as Hph.
    { destruct (Locked.at_phase c) eqn:Hph; [done| | |];
        (destruct (Hlock t c Hc) as [Hw' _]; [by rewrite Hph|congruence]). }
    exists t. unfold Locked.step. rewrite Hc.
    destruct (Locked.todo c) as [|call rest]; [done|]. rewrite Hph, Hw. eauto.
Qed.

Lemma consistent_can_finish (d : DeploymentData) (programs : list (list LeaseCall))
    (n : nat) :
  ∀ w, steps_left w = n → Locked.consistent d programs w →
       ∃ sched w', Locked.run sched w = Some w' ∧ Locked.finished w' = true.
Proof.
  induction n as [|n IH]; intros w Hn Hw.
  - exists [], w. split; [done|]. by apply finished_steps_left.
  - assert (Locked.finished w = false) as Hfin.
    { destruct (Locked.finished w) eqn:Hf; [|done].
      apply finished_steps_left in Hf. lia. }
    destruct (consistent_can_step d programs w Hw Hfin) as (t & w1 & Hstep).
    pose proof (step_steps_left t w w1 Hstep) as Hs.
    destruct (IH w1 ltac:(lia) (consistent_step d programs t w w1 Hw Hstep))
      as (sched & w' & Hrun & Hdone).
    exists (t :: sched), w'. split; [|done]. simpl. by rewrite Hstep.
Qed.

(** X18. The lock discipline cannot deadlock and every call ends: from
    every world the callers reach, some schedule runs all callers to the
    end; a schedule never runs more than four statements for each call,
    and one that runs all callers to the end runs exactly that many. *)
Theorem locked_calls_finish (d : DeploymentData) (programs : list (list LeaseCall))
    (sched : list nat) (w : Locked.world) :
  Locked.run sched (Locked.start d programs) = Some w →
  (length sched ≤ 4 * length (concat programs))%nat
  ∧ (Locked.finished w = true ↔ length sched = (4 * length (concat programs))%nat)
  ∧ (Locked.finished w = false → ∃ t w', Locked.step t w = Some w')
  ∧ ∃ more w', Locked.run (sched ++ more) (Locked.start d programs) = Some w'
               ∧ Locked.finished w' = true.
Proof.
  intros Hrun.
  pose proof (run_steps_left sched _ _ Hrun) as Hlen.
  rewrite steps_left_start in Hlen.
  pose proof (consistent_run d programs sched _ _ (consistent_start d programs) Hrun)
    as Hw.
  split; [lia|]. split; [rewrite finished_steps_left; lia|].
  split; [by apply (consistent_can_step d programs)|].
  destruct (consistent_can_finish d programs _ w eq_refl Hw) as (more & w' & Hmore & Hfin).
  exists more, w'. split; [|done].
  clear -Hrun Hmore. revert Hrun. generalize (Locked.start d programs).
  induction sched as [|t sched IH]; intros w0 Hrun; simpl in *.
  - by inversion Hrun; subst.
  - destruct (Locked.step t w0); [by apply IH | discriminate].
Qed.

End LockedMore.

(** ** Key creation and the configuration file *)

Section KeysMore.
Context `{K : KeyEnv}.

(** X19. CreateKey never writes over a key file: unless Stat reports that
    the path does not exist, also when Stat fails for another reason, it
    returns the error that the key file already exists and prints and
    writes nothing.  Otherwise it announces the creation and writes at most
    one file, the key path with mode 0644, holding the key exported with
    the default passphrase from a new keybase; when it writes nothing it
    returns an error.  The configuration stays as it was: the new key is
    not put into its keybase. *)
Theorem CreateKey_never_overwrites (d : Keys.Disk) :
  let kp := path_Join (homePath (Keys.proc d)) (Keyfile (config (Keys.proc d))) in
  ∃ err evs w,
    Keys.CreateKey d
    = (Returned err, Keys.mkDisk (add_events (Keys.proc d) evs) (Keys.ops d ++ w))
    ∧ (os_IsNotExist (os_Stat kp) = false →
       err = Some ("keyfile " ++ kp ++ " already exists")%string ∧ evs = [] ∧ w = [])
    ∧ (os_IsNotExist (os_Stat kp) = true →
       evs = [EvPrint ("Creating " ++ kp ++ " ..." ++ newline)%string])
    ∧ (w = [] → err ≠ None)
    ∧ (w = []
       ∨ ∃ entropy mnemonic kb info armor,
           os_IsNotExist (os_Stat kp) = true
           ∧ bip39_NewEntropy 256 = OK entropy
           ∧ bip39_NewMnemonic entropy = OK mnemonic
           ∧ kb_CreateAccount keys_NewInMemory defaultKey mnemonic defaultPass defaultPass
               (keys_CreateHDPath 0 0) keys_Secp256k1 = (kb, OK info)
           ∧ kb_ExportPrivKey kb defaultKey defaultPass defaultPass = OK armor
           ∧ w = [Keys.OpWriteFile kp (list_byte_of_string armor) 420]
           ∧ err = ioutil_WriteFile kp (list_byte_of_string armor) 420).
Proof.
  intros kp. unfold Keys.CreateKey, Keys.wbind, Keys.lift, Keys.wret, Keys.attempt,
    get_config, get_homePath, emit. simpl. fold kp.
  destruct (os_IsNotExist (os_Stat kp)) eqn:Hstat; simpl.
  - destruct (bip39_NewEntropy 256) as [entropy|e1] eqn:H1; simpl;
      [destruct (bip39_NewMnemonic entropy) as [mnemonic|e2] eqn:H2; simpl;
       [destruct (kb_CreateAccount _ _ _ _ _ _ _) as [kb [info|e3]] eqn:H3; simpl;
        [destruct (kb_ExportPrivKey _ _ _ _) as [armor|e4] eqn:H4; simpl|]|]|].
    + eexists _, _, _. split; [reflexivity|].
      split; [done|]. split; [done|]. split; [done|].
      right. by exists entropy, mnemonic, kb, info, armor.
    + exists (Some e4), [EvPrint ("Creating " ++ kp ++ " ..." ++ newline)%string], [].
      rewrite app_nil_r. split; [done|]. split; [done|]. split; [done|]. split; [done|].
      by left.
    + exists (Some e3), [EvPrint ("Creating " ++ kp ++ " ..." ++ newline)%string], [].
      rewrite app_nil_r. split; [done|]. split; [done|]. split; [done|]. split; [done|].
      by left.
    + exists (Some e2), [EvPrint ("Creating " ++ kp ++ " ..." ++ newline)%string], [].
      rewrite app_nil_r. split; [done|]. split; [done|]. split; [done|]. split; [done|].
      by left.
    + exists (Some e1), [EvPrint ("Creating " ++ kp ++ " ..." ++ newline)%string], [].
      rewrite app_nil_r. split; [done|]. split; [done|]. split; [done|]. split; [done|].
      by left.
  - exists (Some ("keyfile " ++ kp ++ " already exists")%string), [], [].
    rewrite app_nil_r, add_events_nil. split; [by destruct d|].
    split; [done|]. split; [done|]. split; [done|]. by left.
Qed.

(** X20. writeConfig makes the given configuration the package
    configuration exactly when it returns nil, after the directory was
    made and the marshalled configuration written to the configuration
    path with mode 0644; when it returns an error the package
    configuration is what it was.  It prints nothing, and when the
    directory cannot be made or the configuration cannot be marshalled no
    file is written. *)
Theorem writeConfig_replaces_on_success (cmd : Command) (cfg : Config) (d : Keys.Disk) :
  let p := cfgPath (Keys.proc d) in
  let mkdir := Keys.OpMkdirAll (filepath_Dir p) 511 in
  ∃ err w,
    Keys.writeConfig cmd cfg d
    = (Returned err,
       Keys.mkDisk
         {| config := match err with None => cfg | Some _ => config (Keys.proc d) end;
            cfgPath := p; homePath := homePath (Keys.proc d);
            events := events (Keys.proc d) |}
         (Keys.ops d ++ w))
    ∧ (err = None ↔
       os_MkdirAll (filepath_Dir p) 511 = None
       ∧ ∃ out, yaml_Marshal cfg = OK out ∧ ioutil_WriteFile p out 420 = None)
    ∧ (w = [mkdir]
       ∨ ∃ out, os_MkdirAll (filepath_Dir p) 511 = None
                ∧ yaml_Marshal cfg = OK out
                ∧ w = [mkdir; Keys.OpWriteFile p out 420]).
Proof.
  intros p mkdir. unfold Keys.writeConfig, Keys.wbind, Keys.lift, Keys.wret, Keys.attempt,
    get_cfgPath, put_config. simpl. fold p. fold mkdir.
  destruct (os_MkdirAll (filepath_Dir p) 511) as [e1|] eqn:H1; simpl.
  - exists (Some e1), [mkdir]. split; [by destruct d as [[] ?]|].
    split; [|by left]. split; [done|]. intros [? _]. discriminate.
  - destruct (yaml_Marshal cfg) as [out|e2] eqn:H2; simpl.
    + destruct (ioutil_WriteFile p out 420) as [e3|] eqn:H3; simpl.
      * exists (Some e3), [mkdir; Keys.OpWriteFile p out 420].
        rewrite <- app_assoc. split; [by destruct d as [[] ?]|].
        split; [|right; by exists out]. split; [done|].
        intros [_ (out' & [= <-] & Hw)]. congruence.
      * exists None, [mkdir; Keys.OpWriteFile p out 420].
        rewrite <- app_assoc. split; [done|].
        split; [|right; by exists out]. split; [|done]. intros _. split; [done|].
        by exists out.
    + exists (Some e2), [mkdir]. split; [by destruct d as [[] ?]|].
      split; [|by left]. split; [done|]. intros [_ (out' & Hm & _)]. discriminate.
Qed.

End KeysMore.

(** ** The further properties on the sample runs *)

Section SampleMore.
#[local] Existing Instance Sample.chain.
#[local] Existing Instance Sample.libs.
#[local] Existing Instance Sample.runtime.

Lemma expected_is_exact_witness :
  let dd := AddOrder (sample_order 2) (AddOrder (sample_order 1) sample_tracker) in
  ExpectedOrders dd = true
  ∧ In (sample_order 1) (OrderID_of dd)
  ∧ ExpectedOrders (AddOrder (sample_order 3) dd) = false
  ∧ ExpectedOrders (RemoveOrder (sample_order 1) dd) = false.
Proof.
  intros dd. split; [reflexivity|]. split; [left; reflexivity|].
  destruct (expected_is_exact dd) as [H _].
  destruct (H eq_refl) as [Hadd Hrem]. split.
  - apply Hadd.
  - apply Hrem. left; reflexivity.
Defined.

Lemma slice_calls_show_list_calls_witness :
  let dd := set_LeaseID sample_tracker [sample_lease 1; sample_lease 2] in
  SliceMem.valid sample_heap sample_slice
  ∧ LeaseID_of dd = SliceMem.view sample_heap sample_slice
  ∧ SliceMem.view
      (fst (SliceMem.run_lease_calls sample_lease_calls (sample_heap, sample_slice)))
      (snd (SliceMem.run_lease_calls sample_lease_calls (sample_heap, sample_slice)))
    = LeaseID_of (run_lease_calls sample_lease_calls dd).
Proof.
  intros dd. split; [exact sample_slice_valid|]. split; [reflexivity|].
  destruct (slice_calls_show_list_calls sample_heap sample_slice dd sample_lease_calls
              sample_slice_valid eq_refl) as (_ & H & _).
  exact H.
Defined.

Lemma sample_empty_slice_valid : SliceMem.valid sample_heap sample_empty_slice.
Proof.
  exists [sample_lease 1; sample_lease 2; zero_LeaseID; zero_LeaseID].
  split; [reflexivity|]. split; [reflexivity | simpl; lia].
Defined.

Lemma RemoveLease_builds_anew_witness :
  let r := SliceMem.RemoveLease (sample_lease 1) (sample_heap, sample_slice) in
  SliceMem.valid sample_heap sample_slice
  ∧ SliceMem.view sample_heap sample_slice = [sample_lease 1; sample_lease 2]
  ∧ SliceMem.view (fst r) (snd r) = [sample_lease 2]
  ∧ SliceMem.base (snd r) ≠ SliceMem.base sample_slice
  ∧ SliceMem.RemoveLease (sample_lease 1) (sample_heap, sample_empty_slice)
    = (sample_heap, SliceMem.nil_slice).
Proof.
  intros r.
  destruct (RemoveLease_builds_anew sample_heap sample_slice (sample_lease 1))
    as (_ & Hnew & Hvalid).
  destruct (Hvalid sample_slice_valid) as (_ & Hview & _).
  split; [exact sample_slice_valid|]. split; [reflexivity|].
  split; [etrans; [exact Hview | reflexivity]|]. split.
  - intros Hbase. specialize (Hnew 5%positive Hbase). discriminate Hnew.
  - destruct (RemoveLease_builds_anew sample_heap sample_empty_slice (sample_lease 1))
      as (_ & _ & Hempty).
    destruct (Hempty sample_empty_slice_valid) as (_ & _ & Hnil).
    apply Hnil. intros o [].
Defined.

Lemma add_then_remove_witness :
  let r := SliceMem.RemoveLease (sample_lease 1)
             (SliceMem.AddLease (sample_lease 1) (sample_heap, sample_empty_slice)) in
  existsb (OrderID_Equals (sample_order 1)) (OrderID_of sample_tracker) = false
  ∧ OrderID_of (RemoveOrder (sample_order 1) (AddOrder (sample_order 1) sample_tracker))
    = OrderID_of sample_tracker
  ∧ SliceMem.valid sample_heap sample_empty_slice
  ∧ LeaseID_of sample_tracker = SliceMem.view sample_heap sample_empty_slice
  ∧ SliceMem.base sample_empty_slice = Some 5%positive
  ∧ snd r = SliceMem.nil_slice.
Proof.
  intros r.
  destruct (add_then_remove sample_tracker) as (Ho & _ & Hmem).
  split; [reflexivity|].
  split; [destruct (Ho (sample_order 1)) as [_ Habs]; apply Habs; reflexivity|].
  split; [exact sample_empty_slice_valid|]. split; [reflexivity|]. split; [reflexivity|].
  destruct (Hmem (sample_lease 1) sample_heap sample_empty_slice
              sample_empty_slice_valid eq_refl) as (_ & _ & _ & Hnil).
  apply Hnil. reflexivity.
Defined.

Lemma validateConfig_with_keyfile_witness :
  @rpchttp_New _ _ sample_env_with_key (RPCAddr (config sample_proc_wrong_pass)) "/websocket"
  = OK sample_client
  ∧ @os_IsNotExist _ _ sample_env_with_key
      (@os_Stat _ _ sample_env_with_key "/home/akash/key.priv") = false
  ∧ fst (@validateConfig _ _ sample_env_with_key sample_proc_wrong_pass)
    = Returned (Some "invalid passphrase"%string)
  ∧ keybase (config (snd (@validateConfig _ _ sample_env_with_key sample_proc_wrong_pass)))
    = Some ["default"%string].
Proof.
  split; [reflexivity|]. split; [reflexivity|].
  destruct (@validateConfig_with_keyfile _ _ sample_env_with_key sample_proc_wrong_pass
              sample_client eq_refl eq_refl) as (_ & _ & H & _).
  rewrite (H "/home/akash/key.priv"%string "armored key"%string ["default"%string]
             "invalid passphrase"%string eq_refl eq_refl eq_refl).
  split; reflexivity.
Defined.

Lemma initConfig_outcomes_witness :
  ∃ s', @initConfig _ _ sample_env_with_key sample_command Sample.proc_start
        = (Exited 1, s')
        ∧ ∃ msg, events s' = events Sample.proc_start ++ [EvPrint msg]
                 ∧ String.prefix "Error " msg = true.
Proof.
  destruct (@initConfig _ _ sample_env_with_key sample_command Sample.proc_start)
    as [o s'] eqn:Hrun.
  assert (o = Exited 1) as -> by (vm_compute in Hrun; by inversion Hrun).
  exists s'. split; [reflexivity|].
  destruct (@initConfig_outcomes _ _ sample_env_with_key sample_command Sample.proc_start)
    as [_ H].
  destruct (H 1 s' Hrun) as [_ Hmsg]. exact Hmsg.
Defined.

Lemma initConfig_without_config_file_witness :
  @cmd_GetString _ _ Sample.env sample_command_tmp FlagHome = OK "/tmp"%string
  ∧ @os_Stat _ _ Sample.env "/tmp/config.yaml" = Some "no such file or directory"%string
  ∧ fst (@initConfig _ _ Sample.env sample_command_tmp Sample.proc_loaded) = Returned None
  ∧ config (snd (@initConfig _ _ Sample.env sample_command_tmp Sample.proc_loaded))
    = zero_Config.
Proof.
  split; [reflexivity|]. split; [reflexivity|].
  destruct (@initConfig_without_config_file _ _ Sample.env sample_command_tmp
              Sample.proc_loaded "/tmp"%string eq_refl) as [H _].
  rewrite (H "no such file or directory"%string eq_refl eq_refl).
  split; reflexivity.
Defined.

Lemma BlockHeight_cases_witness :
  @rpchttp_New _ _ Sample.env (RPCAddr (config Sample.proc_loaded)) "/websocket"
  = OK sample_client
  ∧ @client_Status _ _ Sample.env sample_client = OK 1234
  ∧ ∃ height,
      @BlockHeight _ _ Sample.env Sample.proc_loaded
      = (Returned (OK height), add_events Sample.proc_loaded [EvStatus sample_client])
      ∧ height = 1234.
Proof.
  split; [reflexivity|]. split; [reflexivity|].
  destruct (@BlockHeight_cases _ _ Sample.env Sample.proc_loaded) as (_ & _ & H).
  destruct (H sample_client 1234 eq_refl eq_refl) as (height & Hrun & _ & Hsmall & _).
  exists height. split; [exact Hrun|]. apply Hsmall. lia.
Defined.

Lemma NewDeploymentDataFromConfig_expects_nothing_witness :
  ∃ dd, @NewDeploymentDataFromConfig _ _ Sample.env sample_proc_address
        = (Returned dd, sample_proc_address)
        ∧ ExpectedOrders dd = true ∧ ExpectedLeases dd = true.
Proof.
  destruct (@NewDeploymentDataFromConfig _ _ Sample.env sample_proc_address)
    as [o s'] eqn:Hrun.
  assert (∃ dd, o = Returned dd ∧ s' = sample_proc_address) as (dd & -> & ->).
  { vm_compute in Hrun. inversion Hrun. eexists. split; reflexivity. }
  exists dd. split; [reflexivity|].
  destruct (@NewDeploymentDataFromConfig_expects_nothing _ _ Sample.env
              sample_proc_address sample_proc_address dd Hrun)
    as (_ & _ & _ & _ & Ho & Hl & _).
  split; [exact Ho | exact Hl].
Defined.

Lemma locked_calls_exclude_each_other_witness :
  ∃ w, Locked.run [0; 0]%nat (Locked.start sample_tracker sample_programs) = Some w
       ∧ Locked.writer w = Some 0%nat
       ∧ ∀ t c, Locked.callers w !! t = Some c → Locked.at_phase c ≠ Locked.AtLock →
                t = 0%nat.
Proof.
  destruct (Locked.run [0; 0]%nat (Locked.start sample_tracker sample_programs))
    as [w|] eqn:Hrun; [|vm_compute in Hrun; discriminate].
  exists w. split; [reflexivity|].
  assert (Locked.writer w = Some 0%nat) as Hw.
  { vm_compute in Hrun. inversion Hrun. reflexivity. }
  split; [exact Hw|].
  destruct (locked_calls_exclude_each_other sample_tracker sample_programs [0; 0]%nat w Hrun)
    as (_ & Hholder & _).
  intros t c Hc Hph. specialize (Hholder t c Hc Hph). congruence.
Defined.

Lemma locked_calls_finish_witness :
  ∃ w, Locked.run sample_schedule (Locked.start sample_tracker sample_programs) = Some w
       ∧ Locked.finished w = true
       ∧ length sample_schedule = (4 * length (concat sample_programs))%nat.
Proof.
  destruct (Locked.run sample_schedule (Locked.start sample_tracker sample_programs))
    as [w|] eqn:Hrun; [|vm_compute in Hrun; discriminate].
  exists w.
  destruct (locked_calls_finish sample_tracker sample_programs sample_schedule w Hrun)
    as (_ & Hiff & _).
  split; [reflexivity|]. split; [|reflexivity].
  apply Hiff. reflexivity.
Defined.

Lemma CreateKey_never_overwrites_witness :
  @os_IsNotExist _ _ Sample.env (@os_Stat _ _ Sample.env "/home/akash/config.yaml") = false
  ∧ fst (@Keys.CreateKey _ _ _ sample_key_env sample_disk_key_taken)
    = Returned (Some "keyfile /home/akash/config.yaml already exists"%string)
  ∧ Keys.ops (snd (@Keys.CreateKey _ _ _ sample_key_env sample_disk_key_taken)) = [].
Proof.
  split; [reflexivity|].
  destruct (@CreateKey_never_overwrites _ _ _ sample_key_env sample_disk_key_taken)
    as (err & evs & w & Hrun & Htaken & _).
  destruct (Htaken eq_refl) as (-> & -> & ->).
  rewrite Hrun. split; reflexivity.
Defined.

End SampleMore.

(** ** Orders from any start, and appends through a returned slice *)

Section TrackerFromAnyStart.
Context `{CT : ChainTypes}.

(** X21. From any tracker, with or without repeated adds, an id is tracked
    after a sequence of order calls exactly when it was tracked at the
    start and no call removed it, or some call added it and no later call
    removed it. *)
Theorem orders_after_calls_from_any_start (calls : list OrderCall) (dd : DeploymentData)
    (id : OrderID) :
  In id (OrderID_of (run_order_calls calls dd))
  ↔ (In id (OrderID_of dd) ∧ ¬ In (CallRemoveOrder id) calls)
    ∨ ∃ pre post, calls = pre ++ CallAddOrder id :: post
                  ∧ ¬ In (CallRemoveOrder id) post.
Proof.
  rewrite In_run_order_calls, added_not_removed_iff.
  rewrite <- not_true_iff_false, removed_in_iff. done.
Qed.

End TrackerFromAnyStart.

Section SliceAliasing.
Context `{RT : SliceRuntime}.

(** X22. The slice Leases returns shares its array with the tracker.  When
    the stored slice has room, AddLease writes its lease into the cell
    after those the returned slice shows, and an append through the
    returned slice then writes into that same cell: the tracker shows the
    appended id in place of the lease it added. *)
Theorem append_through_snapshot_overwrites (h : SliceMem.Heap) (s : SliceMem.slice)
    (x y : LeaseID) :
  SliceMem.valid h s →
  (SliceMem.len s < SliceMem.cap s)%nat →
  let snapshot := SliceMem.Leases (h, s) in
  let added := SliceMem.AddLease x (h, s) in
  let appended := SliceMem.append (fst added) snapshot y in
  SliceMem.base (snd added) = SliceMem.base snapshot
  ∧ SliceMem.view (fst added) (snd added) = SliceMem.view h s ++ [x]
  ∧ SliceMem.view (fst appended) (snd added) = SliceMem.view h s ++ [y]
  ∧ SliceMem.view (fst appended) snapshot = SliceMem.view h s.
Proof.
  intros Hs Hroom snapshot added appended.
  unfold SliceMem.valid in Hs.
  destruct (SliceMem.base s) as [p|] eqn:Hb; [|lia].
  destruct Hs as (arr & Harr & Hlen & Hle).
  assert (SliceMem.cells h s = arr) as Hcells.
  { unfold SliceMem.cells. by rewrite Hb, Harr. }
  assert (added = (<[p := <[SliceMem.len s := x]> arr]> h,
                   SliceMem.mkSlice (Some p) (S (SliceMem.len s)) (SliceMem.cap s)))
    as Hadded.
  { unfold added, SliceMem.AddLease, SliceMem.append. simpl. rewrite Hb.
    destruct (decide (SliceMem.len s < SliceMem.cap s)%nat); [|lia]. by rewrite Hcells. }
  assert (appended
          = (<[p := <[SliceMem.len s := y]> arr]> h,
             SliceMem.mkSlice (Some p) (S (SliceMem.len s)) (SliceMem.cap s)))
    as Happended.
  { unfold appended, snapshot, SliceMem.Leases, SliceMem.append. simpl. rewrite Hb.
    destruct (decide (SliceMem.len s < SliceMem.cap s)%nat); [|lia].
    rewrite Hadded. simpl. unfold SliceMem.cells. rewrite Hb, lookup_insert_eq. simpl.
    by rewrite insert_insert_eq, list_insert_insert_eq. }
  rewrite Hadded, Happended. unfold snapshot, SliceMem.Leases. simpl.
  unfold SliceMem.view, SliceMem.cells. simpl.
  rewrite Hb, Harr, !lookup_insert_eq. simpl.
  split; [done|]. split; [|split].
  - erewrite take_S_r; [|apply list_lookup_insert_eq; lia]. by rewrite take_insert_ge.
  - erewrite take_S_r; [|apply list_lookup_insert_eq; lia]. by rewrite take_insert_ge.
  - by rewrite take_insert_ge.
Qed.

End SliceAliasing.

Section SampleAliasing.
#[local] Existing Instance Sample.chain.
#[local] Existing Instance Sample.runtime.

Lemma append_through_snapshot_overwrites_witness :
  SliceMem.valid sample_heap sample_slice
  ∧ (SliceMem.len sample_slice < SliceMem.cap sample_slice)%nat
  ∧ SliceMem.view
      (fst (SliceMem.append
              (fst (SliceMem.AddLease (sample_lease 3) (sample_heap, sample_slice)))
              (SliceMem.Leases (sample_heap, sample_slice)) (sample_lease 4)))
      (snd (SliceMem.AddLease (sample_lease 3) (sample_heap, sample_slice)))
    = [sample_lease 1; sample_lease 2; sample_lease 4].
Proof.
  split; [exact sample_slice_valid|]. split; [simpl; lia|].
  destruct (append_through_snapshot_overwrites sample_heap sample_slice
              (sample_lease 3) (sample_lease 4) sample_slice_valid)
    as (_ & _ & H & _); [simpl; lia|].
  etrans; [exact H|]. reflexivity.
Defined.

End SampleAliasing.
